(** * IniFile: a shallow embedding of [src/IniFile.h]

    The development follows the header top to bottom: the [size_t] and
    [std::string] primitives the code relies on, the [element] key type,
    the hashed containers holding the data, the loader, the serializer and
    the accessors.  Everything the C++ standard leaves to the
    implementation (iteration order of the unordered containers, the
    order [std::sort] gives to equal keys) is a field of an interface
    with the laws the standard guarantees; one implementation of each
    interface is given, and shown to obey the laws, further down. *)

From Stdlib Require Import NArith ZArith Lia Bool List Ascii String DecimalString.

From Stdlib Require Import Permutation Sorted.
From Stdlib Require DecimalPos.

Import ListNotations.

Local Open Scope string_scope.

Local Open Scope list_scope.

Local Open Scope N_scope.

Set Implicit Arguments.

(** * The code *)

(** ** [size_t] *)

Module SizeT.

(** [size_t] is a 64-bit unsigned integer. *)
Definition modulus : N := 2 ^ 64.

Definition wrap (n : N) : N := n mod modulus.

(** [std::string::npos], i.e. [size_t(-1)]. *)
Definition npos : N := modulus - 1.

(** Unsigned subtraction [a - b]. *)
Definition sub (a b : N) : N := wrap (a + modulus - wrap b).

(** [++n]. *)
Definition succ (n : N) : N := wrap (n + 1).

End SizeT.

(** ** Exceptions and results *)

(** The two exceptions the code can raise: [std::out_of_range] from
    [std::string::substr] and the [std::runtime_error]s of [load]. *)
Inductive exn : Type :=
| out_of_range
| runtime_error (what : string).

Inductive result (A : Type) : Type :=
| Ok (a : A)
| Throw (e : exn).

Arguments Ok {A} a.

Arguments Throw {A} e.

Definition bind {A B} (r : result A) (k : A -> result B) : result B :=
  match r with
  | Ok a => k a
  | Throw e => Throw e
  end.

Notation "x <- r ;; k" := (bind r (fun x => k))
  (at level 61, r at next level, right associativity).

(** ** [std::string] *)

Module Str.

Definition size (s : string) : N := N.of_nat (String.length s).

Definition empty (s : string) : bool :=
  match s with EmptyString => true | _ => false end.

(** Index of the first occurrence of [c] in [s], counted from [i]. *)
Fixpoint index_from (i : N) (c : ascii) (s : string) : option N :=
  match s with
  | EmptyString => None
  | String a s' => if Ascii.eqb a c then Some i else index_from (i + 1) c s'
  end.

(** Index of the last occurrence of [c] in [s], counted from [i]. *)
Fixpoint last_index_from (i : N) (c : ascii) (s : string) : option N :=
  match s with
  | EmptyString => None
  | String a s' =>
      match last_index_from (i + 1) c s' with
      | Some j => Some j
      | None => if Ascii.eqb a c then Some i else None
      end
  end.

(** [s.find_first_of(c)]: the position, or [npos]. *)
Definition find_first_of (s : string) (c : ascii) : N :=
  match index_from 0 c s with
  | Some i => i
  | None => SizeT.npos
  end.

(** [s.find_last_of(c)]: the position, or [npos]. *)
Definition find_last_of (s : string) (c : ascii) : N :=
  match last_index_from 0 c s with
  | Some i => i
  | None => SizeT.npos
  end.

Fixpoint drop (n : nat) (s : string) : string :=
  match n, s with
  | O, _ => s
  | S n', String _ s' => drop n' s'
  | S _, EmptyString => EmptyString
  end.

Fixpoint take (n : nat) (s : string) : string :=
  match n, s with
  | S n', String a s' => String a (take n' s')
  | _, _ => EmptyString
  end.

(** [s.substr(pos, count)]: throws [std::out_of_range] when
    [pos > size()], otherwise the [min(count, size() - pos)] characters
    from [pos] on. *)
Definition substr (s : string) (pos count : N) : result string :=
  if size s <? pos then Throw out_of_range
  else Ok (take (N.to_nat (N.min count (size s - pos))) (drop (N.to_nat pos) s)).

(** Number of characters the first loop of [readWord] steps over. *)
Fixpoint leading_spaces (s : string) : N :=
  match s with
  | String a s' => if Ascii.eqb a " " then 1 + leading_spaces s' else 0
  | EmptyString => 0
  end.

Fixpoint rev_append (s acc : string) : string :=
  match s with
  | EmptyString => acc
  | String a s' => rev_append s' (String a acc)
  end.

(** The string read from [rbegin()] to [rend()]. *)
Definition rev (s : string) : string := rev_append s EmptyString.

(** [std::tolower] in the classic locale, on one [unsigned char]. *)
Definition tolower (c : ascii) : ascii :=
  let n := N_of_ascii c in
  if (65 <=? n) && (n <=? 90) then ascii_of_N (n + 32) else c.

Fixpoint map (f : ascii -> ascii) (s : string) : string :=
  match s with
  | EmptyString => EmptyString
  | String a s' => String (f a) (map f s')
  end.

(** [std::to_string] on a [size_t]. *)
Definition of_size_t (n : N) : string := NilEmpty.string_of_uint (N.to_uint n).

(** [s] holds nothing but spaces. *)
Definition all_spaces (s : string) : bool :=
  leading_spaces s =? size s.

(** The same, character by character. *)
Fixpoint only_spaces (s : string) : Prop :=
  match s with
  | EmptyString => True
  | String a s' => a = " "%char /\ only_spaces s'
  end.

End Str.

(** ** [IniFile::readWord] (lines 422-453) *)

Definition readWord (line : string) : result string :=
  if Str.empty line then Ok EmptyString
  else
    let startPos := Str.leading_spaces line in
    let endPos := Str.size line - Str.leading_spaces (Str.rev line) in
    Str.substr line startPos endPos.

(** ** The key type [IniFile::element] (lines 50-92) *)

Record element : Type := mkElement { _name : string; _lineNum : N }.

(** The converting constructor [element(std::string name, size_t lineNum = 0)]
    used whenever a plain string is passed where an [element] is expected. *)
Definition element_of_string (name : string) : element := mkElement name 0.

(** [element::operator==] compares names only. *)
Definition element_eqb (a b : element) : bool := String.eqb (_name a) (_name b).

(** Modelled from the spec: the section handle [IniSection], declared in
    [IniSection.h], which is not part of the sources.  The code uses it as a
    string (the section name) with two accessors, [getIndex()] and
    [getLineNum()]; the spec gives the fields [name], [occurrenceIndex] and
    [sourceLine]. *)
Record IniSection : Type :=
  mkIniSection { sectionName : string; getIndex : N; getLineNum : N }.

(** The constructor [element(const IniSection&)]. *)
Definition element_of_section (s : IniSection) : element :=
  mkElement (sectionName s) (getLineNum s).

(** ** The containers (line 67)

    A hashed container only ever grows here ([insert], [operator[]]), so
    its nodes are kept in the order they were inserted and a node is named
    by its rank in that order.  The order in which the container is
    _iterated_ is the business of the standard library: it is a function
    of the keys inserted so far. *)

(** [std::unordered_map<element, std::string, elementHash>]. *)
Definition keymap : Type := list (element * string).

(** [std::unordered_multimap<element, keymap, elementHash>]. *)
Definition data : Type := list (element * keymap).

Definition names {V} (l : list (element * V)) : list string :=
  List.map (fun p => _name (fst p)) l.

(** What the standard guarantees about the iteration order of the two
    containers, given the keys in insertion order: every node is visited
    once, and in the multimap the nodes with equal keys are neighbours. *)
Class Hashtable : Type := {
  multimap_order : list string -> list nat;
  multimap_order_perm :
    forall ks, Permutation (multimap_order ks) (seq 0 (List.length ks));
  multimap_order_adjacent :
    forall ks k, exists pre grp post,
      multimap_order ks = pre ++ grp ++ post /\
      (forall i, In i grp -> nth_error ks i = Some k) /\
      (forall i, In i (pre ++ post) -> nth_error ks i <> Some k);
  map_order : list string -> list nat;
  map_order_perm :
    forall ks, Permutation (map_order ks) (seq 0 (List.length ks))
}.

(** What the standard guarantees about [std::sort] called with a
    comparator of the form [a.key < b.key]: the result is a rearrangement
    of the input in which no element is followed by a smaller one.  The
    relative order of equal keys is not fixed. *)
Class Sorting : Type := {
  std_sort : forall A : Type, (A -> N) -> list A -> list A;
  std_sort_perm :
    forall A (key : A -> N) l, Permutation (std_sort key l) l;
  std_sort_sorted :
    forall A (key : A -> N) l,
      StronglySorted (fun a b => key a <= key b) (std_sort key l)
}.

(** *** Operations of [unordered_map] *)

(** [m.find(key)]: the node whose key equals [key], or [end()]. *)
Fixpoint map_find (m : keymap) (key : string) : option (element * string) :=
  match m with
  | [] => None
  | (e, v) :: m' =>
      if element_eqb e (element_of_string key) then Some (e, v)
      else map_find m' key
  end.

(** [m.insert({e, v})]: no effect if a node with an equal key exists. *)
Definition map_insert (m : keymap) (e : element) (v : string) : keymap :=
  match map_find m (_name e) with
  | Some _ => m
  | None => m ++ [(e, v)]
  end.

(** [m[key] = v]: [operator[]] default-constructs a node for a missing
    key, from [element(key)], and the assignment overwrites the mapped
    string.  The key of an existing node is left as it is. *)
Fixpoint map_assign (m : keymap) (key v : string) : keymap :=
  match m with
  | [] => [(element_of_string key, v)]
  | (e, w) :: m' =>
      if element_eqb e (element_of_string key) then (e, v) :: m'
      else (e, w) :: map_assign m' key v
  end.

(** The value [m[key]] reads and the map it leaves behind. *)
Definition map_index (m : keymap) (key : string) : string * keymap :=
  match map_find m key with
  | Some (_, v) => (v, m)
  | None => (EmptyString, m ++ [(element_of_string key, EmptyString)])
  end.

(** *** Operations of [unordered_multimap] *)

(** [d.insert({e, m})] always adds a node; the iterator it returns names
    the new node. *)
Definition multimap_insert (d : data) (e : element) (m : keymap) : nat * data :=
  (List.length d, d ++ [(e, m)]).

(** The mapped value of node [n]. *)
Definition current_map (d : data) (n : nat) : keymap :=
  match nth_error d n with
  | Some (_, m) => m
  | None => []
  end.

(** Replace the mapped value of node [n]. *)
Fixpoint set_node (d : data) (n : nat) (m : keymap) : data :=
  match d, n with
  | [], _ => []
  | (e, _) :: d', O => (e, m) :: d'
  | p :: d', S n' => p :: set_node d' n' m
  end.

Section Containers.

Context {HT : Hashtable}.

(** The nodes of the multimap in iteration order, [begin()] to [end()].
    An iterator is a position in this sequence; [end()] is its length. *)
Definition iteration (d : data) : list nat := multimap_order (names d).

Definition end_ (d : data) : nat := List.length (iteration d).

(** The node an iterator points to; [None] for [end()]. *)
Definition deref (d : data) (it : nat) : option nat := nth_error (iteration d) it.

(** The key of node [n] equals [key], by [element::operator==]. *)
Definition node_equals (d : data) (key : element) (n : nat) : bool :=
  match nth_error d n with
  | Some (e, _) => element_eqb e key
  | None => false
  end.

(** Position of the first node satisfying [p], counted from [i]. *)
Fixpoint first_from (p : nat -> bool) (i : nat) (l : list nat) : option nat :=
  match l with
  | [] => None
  | n :: l' => if p n then Some i else first_from p (S i) l'
  end.

(** Length of the longest prefix of nodes satisfying [p]. *)
Fixpoint run_length (p : nat -> bool) (l : list nat) : nat :=
  match l with
  | n :: l' => if p n then S (run_length p l') else O
  | [] => O
  end.

(** [d.equal_range(key)]: the half-open range of iterators over the nodes
    whose key equals [key]; [(end(), end())] if there is none. *)
Definition equal_range (d : data) (key : element) : nat * nat :=
  match first_from (node_equals d key) 0 (iteration d) with
  | Some first =>
      (first, (first + run_length (node_equals d key) (skipn first (iteration d)))%nat)
  | None => (end_ d, end_ d)
  end.

(** [std::distance(first, second)]. *)
Definition distance (first second : nat) : N := N.of_nat (second - first).

(** ** [IniFile::getIterator] (lines 455-468)

    The result is an iterator; [end_ d] stands for [_data.end()]. *)
Definition getIterator (d : data) (section : IniSection) : nat :=
  let it := equal_range d (element_of_section section) in
  if (Nat.eqb (fst it) (end_ d) && Nat.eqb (snd it) (end_ d))
     || (distance (fst it) (snd it) + 1 <=? getIndex section)
  then end_ d
  else (fst it + N.to_nat (getIndex section))%nat.

(** ** [IniFile::getIteratorIndex] (lines 470-474) *)
Definition getIteratorIndex (d : data) (it : nat) : N :=
  match deref d it with
  | Some n =>
      match nth_error d n with
      | Some (e, _) => distance (fst (equal_range d (element_of_string (_name e)))) it
      | None => 0
      end
  | None => 0
  end.

End Containers.

(** ** [IniFile::load] (lines 103-163)

    The file is seen as the sequence of lines [getline] yields.  Failure
    to open it happens before the first line is read and is outside this
    model. *)

(** [line.find_first_of(c) != std::string::npos]. *)
Definition found (line : string) (c : ascii) : bool :=
  negb (Str.find_first_of line c =? SizeT.npos).

(** The state of the [while] loop: the container, [lineNum] and
    [sectionIt].  The iterator is only ever dereferenced, so it is kept as
    the node it points to, [None] standing for [_data.end()]. *)
Record loader : Type := mkLoader {
  ld_data : data;
  ld_lineNum : N;
  ld_sectionIt : option nat
}.

(** The halves of a key/value line, before [readWord]. *)
Definition key_half (line : string) : result string :=
  Str.substr line 0 (Str.find_first_of line "=").

Definition value_half (line : string) : result string :=
  Str.substr line (Str.find_first_of line "=" + 1) SizeT.npos.

(** The slice of a header line between the brackets. *)
Definition header_name (line : string) : result string :=
  Str.substr line (Str.find_first_of line "[" + 1)
    (SizeT.sub (SizeT.sub (Str.find_last_of line "]") (Str.find_first_of line "[")) 1).

Definition empty_field_msg (lineNum : N) : string :=
  ("empty key or value in line: " ++ Str.of_size_t lineNum)%string.

Definition orphan_key_msg (lineNum : N) : string :=
  ("key and value without section in line: " ++ Str.of_size_t lineNum)%string.

Definition duplicate_key_msg (lineNum : N) : string :=
  ("duplicate key in line: " ++ Str.of_size_t lineNum)%string.

(** One turn of the loop body. *)
Definition load_line (st : loader) (line : string) : result loader :=
  let lineNum := ld_lineNum st in
  if found line "[" && found line "]" then
    section <- header_name line ;;
    let (it, d) := multimap_insert (ld_data st) (mkElement section lineNum) [] in
    Ok (mkLoader d (SizeT.succ lineNum) (Some it))
  else if found line "=" then
    k <- key_half line ;;
    key <- readWord k ;;
    v <- value_half line ;;
    value <- readWord v ;;
    if Str.empty key || Str.empty value then
      Throw (runtime_error (empty_field_msg lineNum))
    else
      match ld_sectionIt st with
      | None => Throw (runtime_error (orphan_key_msg lineNum))
      | Some n =>
          let m := current_map (ld_data st) n in
          match map_find m key with
          | Some _ => Throw (runtime_error (duplicate_key_msg lineNum))
          | None =>
              Ok (mkLoader
                    (set_node (ld_data st) n (map_insert m (mkElement key lineNum) value))
                    (SizeT.succ lineNum) (ld_sectionIt st))
          end
      end
  else
    Ok (mkLoader (ld_data st) (SizeT.succ lineNum) (ld_sectionIt st)).

(** The loop: the state it ends in and the exception that ended it, if
    any.  A turn that throws does so before it touches the container. *)
Fixpoint load_loop (st : loader) (lines : list string) : loader * option exn :=
  match lines with
  | [] => (st, None)
  | line :: rest =>
      match load_line st line with
      | Ok st' => load_loop st' rest
      | Throw e => (st, Some e)
      end
  end.

(** [_data] after a call of [load] on an [IniFile] whose container held
    [d], whether the call returned or threw. *)
Definition load_data (d : data) (lines : list string) : data :=
  ld_data (fst (load_loop (mkLoader d 1 None) lines)).

(** The call itself: it returns, leaving [load_data], or throws. *)
Definition load (d : data) (lines : list string) : result data :=
  match snd (load_loop (mkLoader d 1 None) lines) with
  | None => Ok (load_data d lines)
  | Some e => Throw e
  end.

(** [getline] over a text: the lines between newline characters; a text
    that ends in a newline has no further, empty line. *)
Fixpoint getlines_from (cur : string) (text : string) : list string :=
  match text with
  | EmptyString => if Str.empty cur then [] else [Str.rev cur]
  | String a text' =>
      if Ascii.eqb a "010" then Str.rev cur :: getlines_from EmptyString text'
      else getlines_from (String a cur) text'
  end.

Definition getlines (text : string) : list string := getlines_from EmptyString text.

(** ** [IniFile::save] (lines 165-212)

    The result is the text written to the file.  Failure to open the file
    is outside this model. *)

Definition nl : string := String "010" EmptyString.

(** The elements [l] holds at the ranks [ns]. *)
Definition select {A} (l : list A) (ns : list nat) : list A :=
  flat_map (fun n => match nth_error l n with Some a => [a] | None => [] end) ns.

Definition lineNum_of {V} (p : element * V) : N := _lineNum (fst p).

Definition print_key (p : element * string) : string :=
  (_name (fst p) ++ " = " ++ snd p ++ nl)%string.

Definition print_section (item : element * list (element * string)) : string :=
  ("[" ++ _name (fst item) ++ "]" ++ nl
     ++ String.concat "" (List.map print_key (snd item)) ++ nl)%string.

Section Serializer.

Context {HT : Hashtable} {ST : Sorting}.

(** The inner vector of line 183-193: the keys of one section in
    iteration order, then sorted by [_lineNum]. *)
Definition sorted_keys (m : keymap) : list (element * string) :=
  std_sort lineNum_of (select m (map_order (names m))).

(** The vector [arr] once line 199 is reached. *)
Definition arr (d : data) : list (element * list (element * string)) :=
  std_sort lineNum_of
    (List.map (fun p => (fst p, sorted_keys (snd p))) (select d (iteration d))).

Definition save (d : data) : string :=
  String.concat "" (List.map print_section (arr d)).

End Serializer.

(** ** Accessors (lines 214-420) *)

(** The outcome of a call that may dereference [end()]: the standard
    gives such code no behaviour at all. *)
Inductive behaviour (A : Type) : Type :=
| Returns (a : A)
| Undefined.

Arguments Returns {A} a.

Arguments Undefined {A}.

(** [alias::trueValue], [alias::computerTruePrint] and
    [alias::computerFalsePrint] (lines 13-18). *)
Module alias.

Definition trueValue : list string := ["true"; "on"; "yes"; "1"].

Definition computerTruePrint : string := "true".

Definition computerFalsePrint : string := "false".

End alias.

(** [std::find(first, last, value) != last] over an array of strings. *)
Fixpoint std_find (l : list string) (value : string) : bool :=
  match l with
  | [] => false
  | a :: l' => if String.eqb a value then true else std_find l' value
  end.

Section Accessors.

Context {HT : Hashtable}.

(** What an iterator gives access to: nothing for [_data.end()],
    otherwise the node it points to and its [it->second]. *)
Definition node_at (d : data) (it : nat) : option (nat * keymap) :=
  if Nat.eqb it (end_ d) then None
  else
    match deref d it with
    | Some n =>
        match nth_error d n with
        | Some (_, m) => Some (n, m)
        | None => None
        end
    | None => None
    end.

(** *** [IniFile::read<T>] (lines 214-230)

    [extract text] is what [stream >> var] stores in [var] on a stream
    over [text]: [Some v] when the extraction stores [v], [None] when it
    stores nothing and [var] keeps what it held.  [declared] is what
    [T var;] holds: [var] has no initializer, so for a scalar type it is
    left uninitialised, which is [None]; for a class type it is the value
    [Some v] the default constructor makes.  Returning a variable that was
    never written is undefined behaviour.  The function returns the value
    and the container it leaves behind ([read] is not [const], and
    [operator[]] can insert). *)
Definition read {T} (extract : string -> option T) (declared : option T)
    (d : data) (section : IniSection) (key : string) (defaultValue : T)
  : behaviour T * data :=
  match node_at d (getIterator d section) with
  | None => (Returns defaultValue, d)
  | Some (n, m) =>
      match map_find m key with
      | None => (Returns defaultValue, d)
      | Some _ =>
          let (text, m') := map_index m key in
          (match extract text with
           | Some v => Returns v
           | None =>
               match declared with
               | Some v => Returns v
               | None => Undefined
               end
           end, set_node d n m')
      end
  end.

(** *** [IniFile::read<bool>] (lines 232-253) *)
Definition read_bool (d : data) (section : IniSection) (key : string)
    (defaultValue : bool) : bool * data :=
  match node_at d (getIterator d section) with
  | None => (defaultValue, d)
  | Some (n, m) =>
      match map_find m key with
      | None => (defaultValue, d)
      | Some _ =>
          let (text, m') := map_index m key in
          let valueCopy := Str.map Str.tolower text in
          (if std_find alias.trueValue valueCopy then true else false,
           set_node d n m')
      end
  end.

(** *** [IniFile::read<std::string>] (lines 255-266) *)
Definition read_string (d : data) (section : IniSection) (key : string)
    (defaultValue : string) : string * data :=
  match node_at d (getIterator d section) with
  | None => (defaultValue, d)
  | Some (n, m) =>
      match map_find m key with
      | None => (defaultValue, d)
      | Some _ =>
          let (text, m') := map_index m key in
          (text, set_node d n m')
      end
  end.

(** The statement [it->second[key] = text] behind [getIterator], shared
    by the three [writeKeyValue]s. *)
Definition assign (d : data) (section : IniSection) (key text : string) : data :=
  match node_at d (getIterator d section) with
  | None => d
  | Some (n, m) => set_node d n (map_assign m key text)
  end.

(** *** [IniFile::writeKeyValue<T>] (lines 274-285), with
    [std::to_string] as [to_string]. *)
Definition writeKeyValue {T} (to_string : T -> string)
    (d : data) (section : IniSection) (key : string) (value : T) : data :=
  assign d section key (to_string value).

(** *** [IniFile::writeKeyValue<bool>] (lines 287-305) *)
Definition writeKeyValue_bool (d : data) (section : IniSection) (key : string)
    (value : bool) : data :=
  if value then assign d section key alias.computerTruePrint
  else assign d section key alias.computerFalsePrint.

(** *** [IniFile::writeKeyValue<const std::string&>] (lines 307-318) *)
Definition writeKeyValue_string (d : data) (section : IniSection)
    (key value : string) : data :=
  assign d section key value.

(** Position of node [n] in a sequence of nodes. *)
Definition position_of (n : nat) (l : list nat) : option nat :=
  first_from (Nat.eqb n) 0 l.

(** *** [IniFile::writeSection] (lines 268-272) *)
Definition writeSection (d : data) (section : string) : IniSection * data :=
  let (n, d') := multimap_insert d (element_of_string section) [] in
  let it := match position_of n (iteration d') with
            | Some it => it
            | None => end_ d'
            end in
  (mkIniSection section (getIteratorIndex d' it) 0, d').

(** *** [IniFile::sectionExists] (lines 320-330) *)
Definition sectionExists (d : data) (section : IniSection) : bool :=
  if Nat.eqb (getIterator d section) (end_ d) then false else true.

(** *** [IniFile::keyExists] (lines 332-347) *)
Definition keyExists (d : data) (section : IniSection) (key : string) : bool :=
  match node_at d (getIterator d section) with
  | None => false
  | Some (_, m) =>
      match map_find m key with
      | None => false
      | Some _ => true
      end
  end.

(** *** [IniFile::sectionCount] (lines 377-387) *)
Definition sectionCount (d : data) (section : IniSection) : N :=
  let pairIt := equal_range d (element_of_section section) in
  if Nat.eqb (fst pairIt) (end_ d) && Nat.eqb (snd pairIt) (end_ d) then 0
  else distance (fst pairIt) (snd pairIt).

(** *** [IniFile::getKeyLineNum] (lines 410-420)

    [it->second.find(key)] is dereferenced without a test against
    [it->second.end()]. *)
Definition getKeyLineNum (d : data) (section : IniSection) (key : string)
  : behaviour N :=
  match node_at d (getIterator d section) with
  | None => Returns 0
  | Some (_, m) =>
      match map_find m key with
      | Some (e, _) => Returns (_lineNum e)
      | None => Undefined
      end
  end.

End Accessors.

(** ** Enumerations (lines 98-101, 349-375 and 389-408) and the hash
    (lines 61-64 and 89-92) *)

Section Enumeration.

Context {HT : Hashtable}.

(** The key [it->first] of the node an iterator points to. *)
Definition key_at (d : data) (it : nat) : option element :=
  match deref d it with
  | Some n => option_map fst (nth_error d n)
  | None => None
  end.

(** *** [IniFile::sections] (lines 349-359): one handle per iterator from
    [begin()] to [end()]. *)
Definition sections (d : data) : list IniSection :=
  flat_map
    (fun it =>
       match key_at d it with
       | Some e => [mkIniSection (_name e) (getIteratorIndex d it) (_lineNum e)]
       | None => []
       end)
    (seq 0 (end_ d)).

(** *** [IniFile::sectionRange] (lines 361-375): one handle per iterator
    of the equal range, numbered from 0. *)
Definition sectionRange (d : data) (section : IniSection) : list IniSection :=
  let pairIt := equal_range d (element_of_section section) in
  flat_map
    (fun index =>
       match key_at d (fst pairIt + index) with
       | Some e => [mkIniSection (sectionName section) (N.of_nat index) (_lineNum e)]
       | None => []
       end)
    (seq 0 (snd pairIt - fst pairIt)).

(** *** [IniFile::operator[]] (lines 98-101) *)
Definition subscript (d : data) (name : IniSection) : list IniSection :=
  sectionRange d name.

(** *** [IniFile::keys] (lines 389-408): the names of the keys of a
    section, in the iteration order of its map. *)
Definition keys (d : data) (section : IniSection) : list string :=
  match node_at d (getIterator d section) with
  | None => []
  | Some (_, m) => List.map (fun pair => _name (fst pair)) (select m (map_order (names m)))
  end.

End Enumeration.

(** *** [IniFile::elementHash::operator()] (lines 89-92), with
    [std::hash<std::string>] as [std_hash]. *)
Definition elementHash (std_hash : string -> N) (elem : element) : N :=
  std_hash (_name elem).

(** * A standard library, and the vocabulary of the properties *)

(** ** Stream extraction at [int]

    [stream >> var] for [T = int], as the standard describes it for the
    classic locale and decimal input: white space is skipped; if the input
    ends there, nothing is written to [var]; otherwise an optional sign and
    the longest run of digits are read, zero is written when there is no
    digit, and a value out of range is replaced by the nearest bound. *)

Module Stream.

Definition isspace (c : ascii) : bool :=
  let n := N_of_ascii c in (n =? 32) || ((9 <=? n) && (n <=? 13)).

Definition digit (c : ascii) : option Z :=
  let n := N_of_ascii c in
  if (48 <=? n) && (n <=? 57) then Some (Z.of_N (n - 48)) else None.

Fixpoint skipws (s : string) : string :=
  match s with
  | String c s' => if isspace c then skipws s' else s
  | EmptyString => EmptyString
  end.

(** The value of the leading digits of [s], if there is one. *)
Fixpoint digits (acc : option Z) (s : string) : option Z :=
  match s with
  | String c s' =>
      match digit c with
      | Some v => digits (Some (10 * match acc with Some a => a | None => 0 end + v)%Z) s'
      | None => acc
      end
  | EmptyString => acc
  end.

Definition INT_MAX : Z := 2147483647.

Definition INT_MIN : Z := -2147483648.

(** What the extraction stores in [var]; [None] when it stores nothing. *)
Definition extract_int (text : string) : option Z :=
  match skipws text with
  | EmptyString => None
  | String c s' =>
      let negative := Ascii.eqb c "-" in
      let body := if negative || Ascii.eqb c "+" then s' else String c s' in
      match digits None body with
      | None => Some 0%Z
      | Some v => Some (Z.max INT_MIN (Z.min INT_MAX (if negative then - v else v)))
      end
  end.

(** [std::to_string] on an [int]. *)
Definition to_string_int (value : Z) : string := NilEmpty.string_of_int (Z.to_int value).

End Stream.

(** ** A standard library

    One implementation of the two interfaces.  The containers are chained
    hash tables that link a node with a new key at the head of the node
    list, which is what libstdc++ does when the bucket of the key is empty,
    and a node whose key is already present in front of the nodes with
    that key.  [std::sort] is the insertion sort libstdc++ runs on ranges
    of fewer than 16 elements; it keeps equal keys in the order it found
    them. *)

Module Chained.

Definition same_key (ks : list string) (n i : nat) : bool :=
  match nth_error ks n, nth_error ks i with
  | Some a, Some b => String.eqb a b
  | _, _ => false
  end.

(** Link [n] in front of the first node satisfying [p]. *)
Fixpoint insert_before (p : nat -> bool) (n : nat) (l : list nat) : list nat :=
  match l with
  | [] => [n]
  | i :: l' => if p i then n :: i :: l' else i :: insert_before p n l'
  end.

Definition link (ks : list string) (ord : list nat) (n : nat) : list nat :=
  if existsb (same_key ks n) ord then insert_before (same_key ks n) n ord
  else n :: ord.

Definition order (ks : list string) : list nat :=
  fold_left (link ks) (seq 0 (List.length ks)) [].

(** Insert [a] in front of the first element with a greater key. *)
Fixpoint insert_sorted {A} (key : A -> N) (a : A) (l : list A) : list A :=
  match l with
  | [] => [a]
  | b :: l' => if key a <=? key b then a :: b :: l' else b :: insert_sorted key a l'
  end.

Definition insertion_sort {A} (key : A -> N) (l : list A) : list A :=
  fold_right (insert_sorted key) [] l.

(** The nodes with one key are neighbours. *)
Definition adjacent (ks : list string) (ord : list nat) : Prop :=
  forall k, exists pre grp post,
    ord = pre ++ grp ++ post /\
    (forall i, In i grp -> nth_error ks i = Some k) /\
    (forall i, In i (pre ++ post) -> nth_error ks i <> Some k).

End Chained.

(** ** Lines *)

(** What kind of line the loader takes [line] for. *)
Definition is_header (line : string) : bool := found line "[" && found line "]".

Definition is_keyvalue (line : string) : bool :=
  negb (is_header line) && found line "=".

Definition token (r : result string) : string :=
  match r with
  | Ok s => s
  | Throw _ => EmptyString
  end.

(** The text on either side of the first [=], and what the loader keeps
    of it. *)
Definition key_text (line : string) : string := token (key_half line).

Definition value_text (line : string) : string := token (value_half line).

Definition key_of (line : string) : string := token (readWord (key_text line)).

Definition value_of (line : string) : string := token (readWord (value_text line)).

Definition section_of (line : string) : string := token (header_name line).

(** ** Which lines make [load] fail

    A description of the failures in terms of the lines alone.  [seen]
    holds the lines above the one considered, nearest first. *)

Inductive failure : Type := EmptyField | OrphanKey | DuplicateKey.

(** The decimal numeral of [n]. *)
Definition decimal (n : N) : string := NilEmpty.string_of_uint (N.to_uint n).

(** What the exception says: the text for the kind of failure, then the
    number of the line. *)
Definition message (kind : failure) (lineNum : N) : string :=
  (match kind with
   | EmptyField => "empty key or value in line: "
   | OrphanKey => "key and value without section in line: "
   | DuplicateKey => "duplicate key in line: "
   end ++ decimal lineNum)%string.

(** One side of the [=] holds nothing but spaces. *)
Definition empty_field (line : string) : bool :=
  Str.all_spaces (key_text line) || Str.all_spaces (value_text line).

(** Going up from the line to the nearest header, some key/value line
    has the key [key]. *)
Fixpoint key_in_section (seen : list string) (key : string) : bool :=
  match seen with
  | [] => false
  | l :: seen' =>
      if is_header l then false
      else (is_keyvalue l && String.eqb (key_of l) key) || key_in_section seen' key
  end.

Definition offending (seen : list string) (line : string) : option failure :=
  if is_keyvalue line then
    if empty_field line then Some EmptyField
    else if negb (existsb is_header seen) then Some OrphanKey
    else if key_in_section seen (key_of line) then Some DuplicateKey
    else None
  else None.

(** The first offending line below [seen], with its rank in the file
    (counted from 0). *)
Fixpoint first_failure_from (seen rest : list string) : option (failure * nat) :=
  match rest with
  | [] => None
  | line :: rest' =>
      match offending seen line with
      | Some kind => Some (kind, List.length seen)
      | None => first_failure_from (line :: seen) rest'
      end
  end.

Definition first_failure (lines : list string) : option (failure * nat) :=
  first_failure_from [] lines.

(** What the loop knows after reading [seen] without failing. *)
Definition loader_inv (seen : list string) (st : loader) : Prop :=
  ld_lineNum st = N.of_nat (List.length seen) + 1 /\
  match ld_sectionIt st with
  | None => existsb is_header seen = false
  | Some n =>
      existsb is_header seen = true /\
      (n < List.length (ld_data st))%nat /\
      forall key,
        map_find (current_map (ld_data st) n) key = None <->
        key_in_section seen key = false
  end.

(** ** Line numbers *)

Definition line_lt {V} (a b : element * V) : Prop := lineNum_of a < lineNum_of b.

Definition line_le {V} (a b : element * V) : Prop := lineNum_of a <= lineNum_of b.

(** ** What a loaded container looks like

    Line numbers only grow while loading, so the sections, in insertion
    order, and the keys of each section, in insertion order, carry
    strictly ascending, non-zero line numbers. *)

Definition keys_below (bound : N) (m : keymap) : Prop :=
  StronglySorted line_lt m /\ Forall (fun kv => 0 < lineNum_of kv < bound) m.

Definition loaded_below (bound : N) (d : data) : Prop :=
  StronglySorted line_lt d /\
  Forall (fun node => 0 < lineNum_of node < bound /\ keys_below bound (snd node)) d.

(** ** Documents *)

(** The names a container holds, without line numbers. *)
Definition content (d : data) : list (string * list (string * string)) :=
  List.map (fun node =>
              (_name (fst node),
               List.map (fun kv => (_name (fst kv), snd kv)) (snd node))) d.

(** The sections, keys and values a sequence of lines spells out, as the
    loader tokenizes them. *)
Definition document : Type := list (string * list (string * string)).

(** Add a key to the last section. *)
Fixpoint add_key (doc : document) (kv : string * string) : document :=
  match doc with
  | [] => []
  | [s] => [(fst s, snd s ++ [kv])]
  | s :: doc' => s :: add_key doc' kv
  end.

Definition read_line (doc : document) (line : string) : document :=
  if is_header line then doc ++ [(section_of line, [])]
  else if is_keyvalue line then add_key doc (key_of line, value_of line)
  else doc.

Definition parse (lines : list string) : document := fold_left read_line lines [].

(** A document in the layout of [save]. *)
Definition render (doc : document) : string :=
  String.concat ""
    (List.map
       (fun s =>
          ("[" ++ fst s ++ "]" ++ nl
             ++ String.concat ""
                  (List.map (fun kv => fst kv ++ " = " ++ snd kv ++ nl) (snd s))
             ++ nl)%string)
       doc).

(** What the loop has built after reading [seen] without failing. *)
Definition parsed_inv (seen : list string) (st : loader) : Prop :=
  content (ld_data st) = parse (rev seen) /\
  match ld_sectionIt st with
  | None => True
  | Some n => S n = List.length (ld_data st)
  end.

(** The text without its leading and its trailing spaces: what the spec
    asks of the tokenizer, to be compared with [readWord]. *)
Definition trim (s : string) : string :=
  Str.take
    (N.to_nat (Str.size s - Str.leading_spaces (Str.rev s) - Str.leading_spaces s))
    (Str.drop (N.to_nat (Str.leading_spaces s)) s).

(** ** The failures as the specification words them

    The specification compares and tests the trimmed key and the trimmed
    value; the loader has what [readWord] returns.  These definitions
    follow the specification, with [trim] where [offending] has the
    loader's tokens, to be compared with [first_failure]. *)

Definition spec_key (line : string) : string := trim (key_text line).

Definition spec_value (line : string) : string := trim (value_text line).

(** The current section holds a key named [key]. *)
Fixpoint spec_key_in_section (seen : list string) (key : string) : bool :=
  match seen with
  | [] => false
  | l :: seen' =>
      if is_header l then false
      else (is_keyvalue l && String.eqb (spec_key l) key)
           || spec_key_in_section seen' key
  end.

Definition spec_offending (seen : list string) (line : string) : option failure :=
  if is_keyvalue line then
    if Str.empty (spec_key line) || Str.empty (spec_value line) then Some EmptyField
    else if negb (existsb is_header seen) then Some OrphanKey
    else if spec_key_in_section seen (spec_key line) then Some DuplicateKey
    else None
  else None.

Fixpoint spec_first_failure_from (seen rest : list string) : option (failure * nat) :=
  match rest with
  | [] => None
  | line :: rest' =>
      match spec_offending seen line with
      | Some kind => Some (kind, List.length seen)
      | None => spec_first_failure_from (line :: seen) rest'
      end
  end.

Definition spec_first_failure (lines : list string) : option (failure * nat) :=
  spec_first_failure_from [] lines.

(** Rank of the first line equal to [x]. *)
Fixpoint line_rank (x : string) (out : list string) : option nat :=
  match out with
  | [] => None
  | y :: out' => if String.eqb x y then Some O else option_map S (line_rank x out')
  end.

(** [x] is written above [y]. *)
Definition written_above (x y : string) (out : list string) : bool :=
  match line_rank x out, line_rank y out with
  | Some i, Some j => Nat.ltb i j
  | _, _ => false
  end.

(** ** Handles *)

(** Number of records named [k]. *)
Definition occurrences (d : data) (k : string) : nat :=
  List.length (filter (fun p => String.eqb (_name (fst p)) k) d).

Section Stored.

Context {HT : Hashtable}.

(** The text stored under [key] in the record [getIterator] returns. *)
Definition stored (d : data) (section : IniSection) (key : string) : option string :=
  match node_at d (getIterator d section) with
  | Some (_, m) => option_map snd (map_find m key)
  | None => None
  end.

End Stored.

(** ** Sample containers *)

Definition one_section : data := [(mkElement "A" 1, [(mkElement "k" 2, "1")])].

Definition two_sections : data :=
  [(mkElement "A" 1, [(mkElement "k" 2, "1")]);
   (mkElement "B" 3, [(mkElement "k" 4, "2")])].

Definition flags : data :=
  [(mkElement "A" 1, [(mkElement "x" 2, "YES"); (mkElement "y" 3, "2")])].

Definition numbers : data :=
  [(mkElement "A" 1, [(mkElement "n" 2, "12"); (mkElement "w" 3, "abc")])].

(** One horizontal tab. *)
Definition tab : string := String "009" EmptyString.

(** The container loaded from the lines [[A]] and [k=<TAB>]. *)
Definition tab_value : data := [(mkElement "A" 1, [(mkElement "k" 2, tab)])].

(** ** Vocabulary of the further properties *)

(** The character [c] occurs in [s]. *)
Fixpoint occurs (c : ascii) (s : string) : bool :=
  match s with
  | EmptyString => false
  | String a s' => Ascii.eqb a c || occurs c s'
  end.

(** A line the loader does something with. *)
Definition significant (line : string) : bool := is_header line || is_keyvalue line.

(** No section holds two keys of one name. *)
Definition keys_unique (d : data) : Prop :=
  Forall (fun node : element * keymap => NoDup (names (snd node))) d.

(** The line of a file with the number [n], counted from 1. *)
Definition line_numbered (lines : list string) (n : N) : option string :=
  if n =? 0 then None else nth_error lines (N.to_nat n - 1).

(** The loop state of a [load] that started on a container holding [d],
    seen from a [load] that started on an empty one. *)
Definition shift (d : data) (st : loader) : loader :=
  mkLoader (d ++ ld_data st) (ld_lineNum st)
    (option_map (Nat.add (List.length d)) (ld_sectionIt st)).

(** The record [node] and its keys carry the numbers of the lines of
    [lines] they were read from. *)
Definition from_lines (lines : list string) (node : element * keymap) : Prop :=
  (exists line,
     line_numbered lines (lineNum_of node) = Some line /\
     is_header line = true /\ section_of line = _name (fst node)) /\
  Forall
    (fun kv : element * string =>
       exists line,
         line_numbered lines (lineNum_of kv) = Some line /\
         is_keyvalue line = true /\
         key_of line = _name (fst kv) /\ value_of line = snd kv)
    (snd node).

(** The container loaded from a file that names the section [A] twice. *)
Definition twice_A : data :=
  [(mkElement "A" 1, [(mkElement "k" 2, "1")]);
   (mkElement "B" 3, []);
   (mkElement "A" 4, [(mkElement "k" 5, "2")])].

(** What a write to [key] of the record behind [section] leaves alone,
    [d] being the container before and [d'] the container after: the
    records and their names and line numbers, what every handle resolves
    to, and the text under every other key and in every other record. *)
Definition untouched {HT : Hashtable} (d d' : data) (section : IniSection)
    (key : string) : Prop :=
  List.map fst d' = List.map fst d /\
  (forall s, getIterator d' s = getIterator d s) /\
  (forall s, sectionExists d' s = sectionExists d s) /\
  (forall s, sectionCount d' s = sectionCount d s) /\
  (forall s key',
      key' <> key \/ getIterator d s <> getIterator d section ->
      stored d' s key' = stored d s key' /\
      keyExists d' s key' = keyExists d s key').

(** The sections and the key names of a document, without the values. *)
Definition outline (doc : document) : list (string * list string) :=
  List.map (fun s => (fst s, List.map fst (snd s))) doc.

(** Number of header lines of [lines] that name the section [name]. *)
Definition headers_named (lines : list string) (name : string) : nat :=
  List.length
    (filter (fun line => is_header line && String.eqb (section_of line) name) lines).

(** [n] spaces. *)
Fixpoint spaces (n : nat) : string :=
  match n with
  | O => EmptyString
  | S n' => String " " (spaces n')
  end.


(** The text has no space at its start, or none at its end. *)
Definition one_sided (s : string) : Prop :=
  Str.leading_spaces s = 0 \/ Str.leading_spaces (Str.rev s) = 0.

(** No key/value line has spaces on both sides of its key. *)
Definition clean_keys (lines : list string) : Prop :=
  Forall (fun line => is_keyvalue line = true -> one_sided (key_text line)) lines.

(** * Lemmas *)

(** ** [size_t] *)

Module SizeTFacts.

Import SizeT.

Lemma npos_succ : npos + 1 = modulus.
Proof. reflexivity. Qed.

Lemma wrap_le n : wrap n <= n.
Proof. unfold wrap, modulus. apply N.Div0.mod_le. Qed.

Lemma wrap_small n : n < modulus -> wrap n = n.
Proof. intros H. unfold wrap. now apply N.mod_small. Qed.

Lemma succ_small n : n + 1 < modulus -> succ n = n + 1.
Proof. intros H. unfold succ. now apply wrap_small. Qed.

End SizeTFacts.

(** ** The standard library keeps the promises of the standard *)

Module ChainedLaws.

Import Chained.

Lemma insert_before_app p n a b :
  insert_before p n (a ++ b) =
  if existsb p a then insert_before p n a ++ b else a ++ insert_before p n b.
Proof.
  induction a as [|i a IH]; simpl; [reflexivity|].
  destruct (p i); simpl; [reflexivity|].
  rewrite IH. now destruct (existsb p a).
Qed.

Lemma insert_before_perm p n l : Permutation (insert_before p n l) (n :: l).
Proof.
  induction l as [|i l IH]; simpl; [reflexivity|].
  destruct (p i); [reflexivity|].
  rewrite IH. apply perm_swap.
Qed.

Lemma link_perm ks ord n : Permutation (link ks ord n) (n :: ord).
Proof.
  unfold link. destruct (existsb _ ord); [apply insert_before_perm|reflexivity].
Qed.

Lemma existsb_false {A} (p : A -> bool) l :
  existsb p l = false <-> forall x, In x l -> p x = false.
Proof.
  induction l as [|a l IH]; simpl; [tauto|].
  rewrite orb_false_iff, IH. split.
  - intros [Ha Hl] x [<-|Hx]; auto.
  - intros Hx. split; auto.
Qed.

Lemma same_key_true ks n i k :
  nth_error ks n = Some k ->
  same_key ks n i = true <-> nth_error ks i = Some k.
Proof.
  intros Hn. unfold same_key. rewrite Hn.
  destruct (nth_error ks i) as [b|]; [|split; discriminate].
  rewrite String.eqb_eq. split; [now intros ->|now intros [= ->]].
Qed.

Lemma link_adjacent ks ord n kn :
  nth_error ks n = Some kn ->
  adjacent ks ord -> adjacent ks (link ks ord n).
Proof.
  intros Hn Hadj k.
  destruct (Hadj k) as (pre & grp & post & -> & Hgrp & Hout).
  assert (Hsk : forall i, same_key ks n i = true <-> nth_error ks i = Some kn)
    by (intros i; now apply same_key_true).
  destruct (String.eqb_spec k kn) as [->|Hk].
  - (* the key of the new node *)
    assert (Hpre : existsb (same_key ks n) pre = false).
    { apply existsb_false. intros x Hx.
      destruct (same_key ks n x) eqn:E; [|reflexivity].
      apply Hsk in E. exfalso. apply (Hout x); [apply in_or_app; now left|exact E]. }
    assert (Hpost : existsb (same_key ks n) post = false).
    { apply existsb_false. intros x Hx.
      destruct (same_key ks n x) eqn:E; [|reflexivity].
      apply Hsk in E. exfalso. apply (Hout x); [apply in_or_app; now right|exact E]. }
    unfold link. rewrite !existsb_app, Hpre, Hpost, orb_false_r. simpl.
    destruct grp as [|g grp]; simpl.
    + exists [], [n], (pre ++ post). simpl. repeat split.
      * intros i [<-|[]]. exact Hn.
      * exact Hout.
    + assert (Hg : same_key ks n g = true) by (apply Hsk, Hgrp; now left).
      rewrite Hg.
      rewrite insert_before_app, Hpre. simpl. rewrite Hg.
      exists pre, (n :: g :: grp), post. repeat split.
      * intros i [<-|Hi]; [exact Hn|now apply Hgrp].
      * exact Hout.
  - (* another key *)
    assert (Hn' : nth_error ks n <> Some k) by (rewrite Hn; intros [= ->]; now apply Hk).
    assert (Hg : existsb (same_key ks n) grp = false).
    { apply existsb_false. intros x Hx.
      destruct (same_key ks n x) eqn:E; [|reflexivity].
      apply Hsk in E. rewrite (Hgrp x Hx) in E. injection E as ->. now elim Hk. }
    unfold link.
    destruct (existsb (same_key ks n) (pre ++ grp ++ post)) eqn:E.
    + rewrite insert_before_app.
      destruct (existsb (same_key ks n) pre) eqn:Epre.
      * exists (insert_before (same_key ks n) n pre), grp, post. repeat split.
        -- exact Hgrp.
        -- intros i Hi. apply in_app_or in Hi. destruct Hi as [Hi|Hi].
           ++ apply (Permutation_in _ (insert_before_perm _ n pre)) in Hi.
              destruct Hi as [<-|Hi]; [exact Hn'|].
              apply Hout, in_or_app. now left.
           ++ apply Hout, in_or_app. now right.
      * rewrite insert_before_app, Hg.
        exists pre, grp, (insert_before (same_key ks n) n post). repeat split.
        -- exact Hgrp.
        -- intros i Hi. apply in_app_or in Hi. destruct Hi as [Hi|Hi].
           ++ apply Hout, in_or_app. now left.
           ++ apply (Permutation_in _ (insert_before_perm _ n post)) in Hi.
              destruct Hi as [<-|Hi]; [exact Hn'|].
              apply Hout, in_or_app. now right.
    + exists (n :: pre), grp, post. repeat split.
      * exact Hgrp.
      * intros i [<-|Hi]; [exact Hn'|now apply Hout].
Qed.

Lemma order_prefix ks j :
  (j <= List.length ks)%nat ->
  let ord := fold_left (link ks) (seq 0 j) [] in
  Permutation ord (seq 0 j) /\ adjacent ks ord.
Proof.
  induction j as [|j IH]; intros Hj; cbv zeta.
  - split; [reflexivity|]. intros k. exists [], [], []. repeat split; intros i [].
  - destruct IH as [Hp Ha]; [lia|].
    rewrite seq_S, fold_left_app. cbn [fold_left Nat.add]. split.
    + rewrite link_perm, Hp. apply Permutation_cons_append.
    + destruct (nth_error ks j) as [kn|] eqn:E.
      * now apply link_adjacent with kn.
      * apply nth_error_None in E. lia.
Qed.

Lemma order_perm ks : Permutation (order ks) (seq 0 (List.length ks)).
Proof. apply order_prefix. lia. Qed.

Lemma order_adjacent ks : adjacent ks (order ks).
Proof. apply order_prefix. lia. Qed.

Lemma insert_sorted_perm {A} (key : A -> N) a l :
  Permutation (insert_sorted key a l) (a :: l).
Proof.
  induction l as [|b l IH]; simpl; [reflexivity|].
  destruct (key a <=? key b); [reflexivity|].
  rewrite IH. apply perm_swap.
Qed.

Lemma insertion_sort_perm {A} (key : A -> N) l :
  Permutation (insertion_sort key l) l.
Proof.
  induction l as [|a l IH]; simpl; [reflexivity|].
  rewrite insert_sorted_perm. now constructor.
Qed.

Lemma insert_sorted_sorted {A} (key : A -> N) a l :
  StronglySorted (fun x y => key x <= key y) l ->
  StronglySorted (fun x y => key x <= key y) (insert_sorted key a l).
Proof.
  induction 1 as [|b l Hl IH Hb]; simpl.
  - repeat constructor.
  - destruct (N.leb_spec (key a) (key b)) as [Hab|Hab].
    + constructor; [now constructor|].
      constructor; [exact Hab|].
      eapply Forall_impl; [|exact Hb]. simpl. intros; lia.
    + constructor; [exact IH|].
      eapply Permutation_Forall; [symmetry; apply insert_sorted_perm|].
      constructor; [lia|exact Hb].
Qed.

Lemma insertion_sort_sorted {A} (key : A -> N) l :
  StronglySorted (fun x y => key x <= key y) (insertion_sort key l).
Proof.
  induction l as [|a l IH]; simpl; [constructor|now apply insert_sorted_sorted].
Qed.

#[export] Instance hashtable : Hashtable := {
  multimap_order := order;
  multimap_order_perm := order_perm;
  multimap_order_adjacent := order_adjacent;
  map_order := order;
  map_order_perm := order_perm
}.

#[export] Instance sort : Sorting := {
  std_sort := @insertion_sort;
  std_sort_perm := @insertion_sort_perm;
  std_sort_sorted := @insertion_sort_sorted
}.

End ChainedLaws.

(** ** Strings *)

Module StrFacts.

Import Str.

Lemma size_cons a s : size (String a s) = 1 + size s.
Proof. unfold size. simpl String.length. lia. Qed.

Lemma leading_spaces_le s : leading_spaces s <= size s.
Proof.
  induction s as [|a s IH]; [reflexivity|].
  rewrite size_cons. cbn [leading_spaces]. destruct (Ascii.eqb a " "); lia.
Qed.

Lemma leading_spaces_all s : leading_spaces s = size s <-> only_spaces s.
Proof.
  induction s as [|a s IH]; [simpl; tauto|].
  rewrite size_cons. cbn [leading_spaces only_spaces].
  destruct (Ascii.eqb_spec a " "%char) as [->|Hne].
  - rewrite <- IH. split; [intros Heq; split; [reflexivity|lia]|intros [_ ->]; reflexivity].
  - split; [lia|intros [Ha _]; contradiction].
Qed.

Lemma all_spaces_iff s : all_spaces s = true <-> only_spaces s.
Proof. unfold all_spaces. rewrite N.eqb_eq. apply leading_spaces_all. Qed.

Lemma only_spaces_rev_append s acc :
  only_spaces (rev_append s acc) <-> only_spaces s /\ only_spaces acc.
Proof.
  revert acc. induction s as [|a s IH]; intros acc; simpl; [tauto|].
  rewrite IH. simpl. tauto.
Qed.

Lemma only_spaces_rev s : only_spaces (rev s) <-> only_spaces s.
Proof. unfold rev. rewrite only_spaces_rev_append. simpl. tauto. Qed.

Lemma length_rev_append s acc :
  String.length (rev_append s acc) = (String.length s + String.length acc)%nat.
Proof.
  revert acc. induction s as [|a s IH]; intros acc; simpl; [reflexivity|].
  rewrite IH. simpl. lia.
Qed.

Lemma size_rev s : size (rev s) = size s.
Proof. unfold size, rev. rewrite length_rev_append. simpl. f_equal. lia. Qed.

Lemma take_empty n s : take n s = EmptyString <-> n = O \/ s = EmptyString.
Proof.
  destruct n, s; simpl; split; auto; try discriminate.
  intros [|]; discriminate.
Qed.

Lemma drop_empty n s : drop n s = EmptyString <-> (String.length s <= n)%nat.
Proof.
  revert s. induction n as [|n IH]; intros [|a s]; simpl; split; auto; try lia;
    try discriminate.
  - intros Hd. apply IH in Hd. lia.
  - intros Hl. apply IH. lia.
Qed.

Lemma substr_ok s pos count :
  pos <= size s ->
  substr s pos count =
  Ok (take (N.to_nat (N.min count (size s - pos))) (drop (N.to_nat pos) s)).
Proof.
  intros Hpos. unfold substr.
  destruct (N.ltb_spec (size s) pos); [lia|reflexivity].
Qed.

Lemma index_from_bound i c s j :
  index_from i c s = Some j -> i <= j < i + size s.
Proof.
  revert i. induction s as [|a s IH]; intros i; simpl; [discriminate|].
  rewrite size_cons. destruct (Ascii.eqb a c).
  - intros [= <-]. lia.
  - intros Hj. apply IH in Hj. lia.
Qed.

Lemma find_first_of_found s c :
  negb (find_first_of s c =? SizeT.npos) = true -> find_first_of s c < size s.
Proof.
  unfold find_first_of. destruct (index_from 0 c s) as [j|] eqn:E.
  - intros _. apply index_from_bound in E. lia.
  - rewrite N.eqb_refl. discriminate.
Qed.

End StrFacts.

(** [readWord] never throws, and what it returns is empty exactly when
    the line holds nothing but spaces. *)
Lemma readWord_total line :
  exists word, readWord line = Ok word /\
               (word = EmptyString <-> Str.all_spaces line = true).
Proof.
  unfold readWord. destruct line as [|a s]; simpl Str.empty; cbv iota.
  - exists EmptyString. split; [reflexivity|]. split; reflexivity.
  - set (line := String a s).
    pose proof (StrFacts.leading_spaces_le line) as Hlead.
    pose proof (StrFacts.leading_spaces_le (Str.rev line)) as Htrail.
    rewrite StrFacts.size_rev in Htrail.
    rewrite StrFacts.substr_ok by exact Hlead.
    eexists. split; [reflexivity|].
    rewrite StrFacts.take_empty, StrFacts.drop_empty, StrFacts.all_spaces_iff.
    rewrite <- StrFacts.leading_spaces_all.
    assert (Hrev : Str.leading_spaces (Str.rev line) = Str.size line <->
                   Str.leading_spaces line = Str.size line).
    { rewrite <- (StrFacts.size_rev line) at 1.
      rewrite !StrFacts.leading_spaces_all. apply StrFacts.only_spaces_rev. }
    assert (Hpos : 0 < Str.size line) by (unfold line; rewrite StrFacts.size_cons; lia).
    unfold Str.size in *. split.
    + intros [Hz|Hl]; [|lia].
      destruct (N.min_spec (N.of_nat (String.length line) - Str.leading_spaces (Str.rev line))
                  (N.of_nat (String.length line) - Str.leading_spaces line)) as [[_ Hm]|[_ Hm]];
        rewrite Hm in Hz; [apply Hrev|]; lia.
    + intros Heq. left. rewrite Heq, N.sub_diag, N.min_0_r. reflexivity.
Qed.

(** ** Sorting by line number *)

(** A list in strictly ascending order is the only ascending arrangement
    of its elements. *)
Lemma ascending_unique {V} (l1 l2 : list (element * V)) :
  Permutation l1 l2 ->
  StronglySorted line_le l1 ->
  StronglySorted line_lt l2 ->
  l1 = l2.
Proof.
  revert l2. induction l1 as [|a l1 IH]; intros l2 Hp H1 H2.
  - apply Permutation_nil in Hp. now subst.
  - destruct l2 as [|b l2]; [symmetry in Hp; now apply Permutation_nil in Hp|].
    apply StronglySorted_inv in H1. destruct H1 as [H1 Ha].
    apply StronglySorted_inv in H2. destruct H2 as [H2 Hb].
    assert (a = b) as ->.
    { assert (Hin : In a (b :: l2)) by (eapply Permutation_in; [exact Hp|now left]).
      assert (Hin' : In b (a :: l1))
        by (eapply Permutation_in; [symmetry; exact Hp|now left]).
      destruct Hin as [->|Hin]; [reflexivity|].
      destruct Hin' as [->|Hin']; [reflexivity|].
      rewrite Forall_forall in Ha, Hb.
      specialize (Ha _ Hin'). specialize (Hb _ Hin).
      unfold line_le, line_lt in *. lia. }
    f_equal. apply IH; [now apply Permutation_cons_inv in Hp|exact H1|exact H2].
Qed.

Lemma std_sort_ascending {ST : Sorting} {V} (l target : list (element * V)) :
  Permutation l target ->
  StronglySorted line_lt target ->
  std_sort lineNum_of l = target.
Proof.
  intros Hp Ht. apply ascending_unique.
  - now rewrite std_sort_perm.
  - apply std_sort_sorted.
  - exact Ht.
Qed.

Lemma select_seq {A} (pre l : list A) :
  select (pre ++ l) (seq (List.length pre) (List.length l)) = l.
Proof.
  revert pre. induction l as [|a l IH]; intros pre; [reflexivity|].
  cbn [List.length seq select flat_map].
  rewrite nth_error_app2, Nat.sub_diag by lia. simpl.
  f_equal. specialize (IH (pre ++ [a])).
  rewrite <- app_assoc, length_app in IH. simpl in IH.
  rewrite Nat.add_1_r in IH. exact IH.
Qed.

(** Iterating a container visits its nodes, each once. *)
Lemma select_perm {A} (l : list A) ns :
  Permutation ns (seq 0 (List.length l)) -> Permutation (select l ns) l.
Proof.
  intros Hp. unfold select.
  rewrite (Permutation_flat_map _ Hp).
  exact (eq_ind _ (fun x => Permutation x l) (Permutation_refl l) _
           (eq_sym (select_seq [] l))).
Qed.

Section SerializerFacts.

Context {HT : Hashtable} {ST : Sorting}.

Lemma sorted_keys_ascending (m target : keymap) :
  Permutation m target ->
  StronglySorted line_lt target ->
  sorted_keys m = target.
Proof.
  intros Hp Ht. unfold sorted_keys. apply std_sort_ascending; [|exact Ht].
  rewrite select_perm; [exact Hp|].
  unfold names. rewrite <- (length_map (fun p => _name (fst p)) m).
  apply map_order_perm.
Qed.

(** When every section has one strictly ascending arrangement of its
    keys and the sections themselves have one, that is what [save]
    prints, whatever the containers' iteration order. *)
Lemma arr_ascending (d target : data) :
  Forall2 (fun node item =>
             fst node = fst item /\
             Permutation (snd node) (snd item) /\
             StronglySorted line_lt (snd item)) d target ->
  StronglySorted line_lt target ->
  arr d = target.
Proof.
  intros Hf Ht. unfold arr. apply std_sort_ascending; [|exact Ht].
  assert (Hmap : List.map (fun p => (fst p, sorted_keys (snd p))) d = target).
  { induction Hf as [|[e m] [e' m'] d t (He & Hp & Hs) Hf IH]; [reflexivity|].
    simpl in *. subst e'. rewrite (sorted_keys_ascending Hp Hs).
    f_equal. apply IH. now apply StronglySorted_inv in Ht. }
  rewrite <- Hmap. apply Permutation_map, select_perm.
  unfold iteration, names.
  rewrite <- (length_map (fun p => _name (fst p)) d).
  apply multimap_order_perm.
Qed.

Lemma arr_perm (d : data) :
  Permutation (arr d) (List.map (fun p => (fst p, sorted_keys (snd p))) d).
Proof.
  unfold arr. rewrite std_sort_perm. apply Permutation_map, select_perm.
  unfold iteration, names.
  rewrite <- (length_map (fun p => _name (fst p)) d).
  apply multimap_order_perm.
Qed.

Lemma sorted_keys_perm (m : keymap) : Permutation (sorted_keys m) m.
Proof.
  unfold sorted_keys. rewrite std_sort_perm. apply select_perm.
  unfold names. rewrite <- (length_map (fun p => _name (fst p)) m).
  apply map_order_perm.
Qed.

End SerializerFacts.

(** ** The loader, line by line *)

Lemma readWord_token s : readWord s = Ok (token (readWord s)).
Proof. destruct (readWord_total s) as (w & -> & _). reflexivity. Qed.

Lemma token_empty s :
  Str.empty (token (readWord s)) = Str.all_spaces s.
Proof.
  destruct (readWord_total s) as (w & Hw & Hiff). rewrite Hw. cbn [token].
  destruct (Str.all_spaces s).
  - now rewrite (proj2 Hiff eq_refl).
  - destruct w; [|reflexivity].
    pose proof (proj1 Hiff eq_refl) as Habs. discriminate Habs.
Qed.

Lemma header_name_ok line :
  found line "[" = true -> header_name line = Ok (section_of line).
Proof.
  intros Hf. unfold section_of, header_name.
  apply StrFacts.find_first_of_found in Hf.
  rewrite StrFacts.substr_ok by lia. reflexivity.
Qed.

Lemma key_half_ok line : key_half line = Ok (key_text line).
Proof.
  unfold key_text, key_half. rewrite StrFacts.substr_ok by lia. reflexivity.
Qed.

Lemma value_half_ok line :
  found line "=" = true -> value_half line = Ok (value_text line).
Proof.
  intros Hf. unfold value_text, value_half.
  apply StrFacts.find_first_of_found in Hf.
  rewrite StrFacts.substr_ok by lia. reflexivity.
Qed.

(** The three shapes of a turn of the loop. *)
Lemma load_line_header st line :
  is_header line = true ->
  load_line st line =
  Ok (mkLoader (ld_data st ++ [(mkElement (section_of line) (ld_lineNum st), [])])
        (SizeT.succ (ld_lineNum st)) (Some (List.length (ld_data st)))).
Proof.
  intros Hh. unfold load_line. unfold is_header in Hh. rewrite Hh.
  apply andb_true_iff in Hh. destruct Hh as [Hl _].
  rewrite (header_name_ok _ Hl). reflexivity.
Qed.

Lemma load_line_other st line :
  is_header line = false -> found line "=" = false ->
  load_line st line =
  Ok (mkLoader (ld_data st) (SizeT.succ (ld_lineNum st)) (ld_sectionIt st)).
Proof.
  intros Hh He. unfold load_line. unfold is_header in Hh. rewrite Hh, He.
  reflexivity.
Qed.

Lemma load_line_keyvalue st line :
  is_keyvalue line = true ->
  load_line st line =
  if Str.all_spaces (key_text line) || Str.all_spaces (value_text line) then
    Throw (runtime_error (empty_field_msg (ld_lineNum st)))
  else
    match ld_sectionIt st with
    | None => Throw (runtime_error (orphan_key_msg (ld_lineNum st)))
    | Some n =>
        match map_find (current_map (ld_data st) n) (key_of line) with
        | Some _ => Throw (runtime_error (duplicate_key_msg (ld_lineNum st)))
        | None =>
            Ok (mkLoader
                  (set_node (ld_data st) n
                     (current_map (ld_data st) n
                        ++ [(mkElement (key_of line) (ld_lineNum st), value_of line)]))
                  (SizeT.succ (ld_lineNum st)) (ld_sectionIt st))
        end
    end.
Proof.
  intros Hkv. unfold is_keyvalue in Hkv. apply andb_true_iff in Hkv.
  destruct Hkv as [Hh He]. apply negb_true_iff in Hh.
  unfold load_line. unfold is_header in Hh. rewrite Hh, He.
  rewrite key_half_ok. cbn [bind].
  rewrite (readWord_token (key_text line)). cbn [bind].
  rewrite (value_half_ok _ He). cbn [bind].
  rewrite (readWord_token (value_text line)). cbn [bind].
  fold (key_of line) (value_of line).
  unfold key_of at 1, value_of at 1. rewrite !token_empty.
  destruct (Str.all_spaces (key_text line) || Str.all_spaces (value_text line));
    [reflexivity|].
  destruct (ld_sectionIt st) as [n|]; [|reflexivity].
  fold (current_map (ld_data st) n).
  unfold map_insert. cbn [_name].
  destruct (map_find (current_map (ld_data st) n) (key_of line)); reflexivity.
Qed.

(** ** The loader and the offending lines *)

Lemma map_find_app m e v key :
  map_find (m ++ [(e, v)]) key =
  match map_find m key with
  | Some r => Some r
  | None => if String.eqb (_name e) key then Some (e, v) else None
  end.
Proof.
  induction m as [|[e' v'] m IH]; simpl.
  - unfold element_eqb. simpl. reflexivity.
  - destruct (element_eqb e' (element_of_string key)); [reflexivity|exact IH].
Qed.

Lemma length_set_node d n m : List.length (set_node d n m) = List.length d.
Proof.
  revert n. induction d as [|[e m'] d IH]; intros [|n]; simpl; auto.
Qed.

Lemma current_map_set_node d n m :
  (n < List.length d)%nat -> current_map (set_node d n m) n = m.
Proof.
  unfold current_map. revert n.
  induction d as [|[e m'] d IH]; intros [|n] Hn; simpl in *; try lia; auto.
  apply IH. lia.
Qed.

Lemma current_map_snoc d e :
  current_map (d ++ [(e, [])]) (List.length d) = [].
Proof.
  unfold current_map. rewrite nth_error_app2, Nat.sub_diag by lia. reflexivity.
Qed.

Lemma loader_inv_step seen st line st' :
  N.of_nat (List.length seen) + 2 < SizeT.modulus ->
  loader_inv seen st ->
  load_line st line = Ok st' ->
  loader_inv (line :: seen) st'.
Proof.
  intros Hlen [Hnum Hit] Hstep.
  assert (Hsucc : SizeT.succ (ld_lineNum st) = N.of_nat (List.length (line :: seen)) + 1).
  { rewrite SizeTFacts.succ_small; rewrite Hnum; cbn [List.length]; lia. }
  destruct (is_header line) eqn:Hh.
  - rewrite (load_line_header _ _ Hh) in Hstep. injection Hstep as <-.
    split; [exact Hsucc|]. cbn [ld_sectionIt ld_data existsb].
    rewrite Hh. split; [reflexivity|]. split; [rewrite length_app; simpl; lia|].
    intros key. rewrite current_map_snoc. cbn [key_in_section]. rewrite Hh.
    simpl. tauto.
  - destruct (found line "=") eqn:He.
    + assert (Hkv : is_keyvalue line = true) by (unfold is_keyvalue; now rewrite Hh, He).
      rewrite (load_line_keyvalue _ _ Hkv) in Hstep.
      destruct (Str.all_spaces (key_text line) || Str.all_spaces (value_text line));
        [discriminate|].
      destruct (ld_sectionIt st) as [n|] eqn:Hsec; [|discriminate].
      destruct Hit as (Hex & Hn & Hkeys).
      destruct (map_find (current_map (ld_data st) n) (key_of line)) eqn:Hfind;
        [discriminate|].
      injection Hstep as <-.
      split; [exact Hsucc|]. cbn [ld_sectionIt ld_data existsb]. rewrite Hh.
      split; [exact Hex|]. split; [now rewrite length_set_node|].
      intros key. rewrite (current_map_set_node _ _ Hn), map_find_app.
      cbn [key_in_section _name]. rewrite Hh, Hkv. cbn [andb].
      specialize (Hkeys key).
      destruct (map_find (current_map (ld_data st) n) key) as [r|].
      * destruct (key_in_section seen key).
        -- rewrite orb_true_r. split; discriminate.
        -- pose proof (proj2 Hkeys eq_refl) as Habs. discriminate Habs.
      * rewrite (proj1 Hkeys eq_refl), orb_false_r.
        destruct (String.eqb (key_of line) key); split; auto; discriminate.
    + rewrite (load_line_other _ _ Hh He) in Hstep. injection Hstep as <-.
      split; [exact Hsucc|]. cbn [ld_sectionIt ld_data existsb]. rewrite Hh.
      destruct (ld_sectionIt st) as [n|]; [|exact Hit].
      destruct Hit as (Hex & Hn & Hkeys). repeat split; auto.
      * intros Hf. cbn [key_in_section]. rewrite Hh.
        unfold is_keyvalue. rewrite He, andb_false_r. simpl. now apply Hkeys.
      * cbn [key_in_section]. rewrite Hh.
        unfold is_keyvalue. rewrite He, andb_false_r. simpl. apply Hkeys.
Qed.

(** A turn of the loop fails exactly on an offending line, with the
    message of the failure and the current line number. *)
Lemma load_line_offending seen st line :
  loader_inv seen st ->
  match offending seen line with
  | Some kind =>
      load_line st line = Throw (runtime_error (message kind (ld_lineNum st)))
  | None => exists st', load_line st line = Ok st'
  end.
Proof.
  intros [Hnum Hit]. unfold offending.
  destruct (is_keyvalue line) eqn:Hkv.
  - rewrite (load_line_keyvalue _ _ Hkv). unfold empty_field.
    destruct (Str.all_spaces (key_text line) || Str.all_spaces (value_text line));
      [reflexivity|].
    destruct (ld_sectionIt st) as [n|].
    + destruct Hit as (-> & Hn & Hkeys). cbn [negb].
      specialize (Hkeys (key_of line)).
      destruct (map_find (current_map (ld_data st) n) (key_of line)) as [r|].
      * destruct (key_in_section seen (key_of line)); [reflexivity|].
        pose proof (proj2 Hkeys eq_refl) as Habs. discriminate Habs.
      * rewrite (proj1 Hkeys eq_refl). eexists; reflexivity.
    + rewrite Hit. reflexivity.
  - unfold is_keyvalue in Hkv. destruct (is_header line) eqn:Hh.
    + rewrite (load_line_header _ _ Hh). eexists; reflexivity.
    + simpl in Hkv. rewrite (load_line_other _ _ Hh Hkv). eexists; reflexivity.
Qed.

Lemma first_failure_from_rank seen rest kind i :
  first_failure_from seen rest = Some (kind, i) -> (List.length seen <= i)%nat.
Proof.
  revert seen. induction rest as [|line rest IH]; intros seen; simpl; [discriminate|].
  destruct (offending seen line).
  - intros [= _ <-]. lia.
  - intros Hf. apply IH in Hf. simpl in Hf. lia.
Qed.

(** The loop stops at the first offending line, in the state the lines
    above it have built, and runs to the end when there is none. *)
Lemma load_loop_failure seen st rest :
  N.of_nat (List.length seen + List.length rest) < SizeT.npos ->
  loader_inv seen st ->
  match first_failure_from seen rest with
  | Some (kind, i) =>
      load_loop st rest =
      (fst (load_loop st (firstn (i - List.length seen) rest)),
       Some (runtime_error (message kind (N.of_nat i + 1)))) /\
      snd (load_loop st (firstn (i - List.length seen) rest)) = None
  | None =>
      snd (load_loop st rest) = None /\
      loader_inv (rev rest ++ seen) (fst (load_loop st rest))
  end.
Proof.
  revert seen st. induction rest as [|line rest IH]; intros seen st Hlen Hinv.
  - simpl. split; [reflexivity|exact Hinv].
  - cbn [first_failure_from load_loop].
    pose proof (load_line_offending line Hinv) as Hline.
    destruct (offending seen line) as [kind|].
    + rewrite Hline, Nat.sub_diag. destruct Hinv as [-> _]. split; reflexivity.
    + destruct Hline as [st' Hst']. rewrite Hst'.
      assert (Hinv' : loader_inv (line :: seen) st').
      { apply loader_inv_step with st; auto. cbn [List.length] in Hlen.
        rewrite <- SizeTFacts.npos_succ. lia. }
      specialize (IH (line :: seen) st').
      cbn [List.length] in Hlen. rewrite Nat.add_succ_r in Hlen.
      specialize (IH Hlen Hinv').
      destruct (first_failure_from (line :: seen) rest) as [[kind i]|] eqn:Hff.
      * apply first_failure_from_rank in Hff. cbn [List.length] in *.
        replace (i - List.length seen)%nat with (S (i - S (List.length seen)))
          by lia.
        cbn [firstn load_loop]. rewrite Hst'. exact IH.
      * cbn [rev]. rewrite <- app_assoc. exact IH.
Qed.

(** [first_failure] finds the least rank at which a line is offending
    given the lines above it. *)
Lemma first_failure_from_least seen rest kind i :
  first_failure_from seen rest = Some (kind, i) <->
  exists j, i = (List.length seen + j)%nat /\ (j < List.length rest)%nat /\
    offending (rev (firstn j rest) ++ seen) (nth j rest EmptyString) = Some kind /\
    forall j', (j' < j)%nat ->
      offending (rev (firstn j' rest) ++ seen) (nth j' rest EmptyString) = None.
Proof.
  revert seen i. induction rest as [|line rest IH]; intros seen i.
  - simpl. split; [discriminate|]. intros (j & _ & Hj & _). lia.
  - cbn [first_failure_from]. destruct (offending seen line) as [kind'|] eqn:Hoff.
    + split.
      * intros [= <- <-]. exists O. simpl. repeat split; auto; try lia.
      * intros (j & -> & Hj & Hk & Hmin). destruct j as [|j].
        -- simpl in Hk. rewrite Hoff in Hk. injection Hk as ->.
           now rewrite Nat.add_0_r.
        -- specialize (Hmin O ltac:(lia)). simpl in Hmin. congruence.
    + rewrite IH. split.
      * intros (j & -> & Hj & Hk & Hmin). exists (S j). cbn [List.length].
        split; [lia|]. split; [lia|]. split.
        -- cbn [firstn rev nth]. now rewrite <- app_assoc.
        -- intros [|j'] Hj'; [exact Hoff|].
           cbn [firstn rev nth]. rewrite <- app_assoc. apply Hmin. lia.
      * intros (j & -> & Hj & Hk & Hmin). destruct j as [|j].
        -- simpl in Hk. congruence.
        -- exists j. cbn [List.length] in *. split; [lia|]. split; [lia|]. split.
           ++ cbn [firstn rev nth] in Hk. now rewrite <- app_assoc in Hk.
           ++ intros j' Hj'. specialize (Hmin (S j') ltac:(lia)).
              cbn [firstn rev nth] in Hmin. now rewrite <- app_assoc in Hmin.
Qed.

Lemma first_failure_least lines kind i :
  first_failure lines = Some (kind, i) <->
  (i < List.length lines)%nat /\
  offending (rev (firstn i lines)) (nth i lines EmptyString) = Some kind /\
  forall j, (j < i)%nat ->
    offending (rev (firstn j lines)) (nth j lines EmptyString) = None.
Proof.
  unfold first_failure. rewrite first_failure_from_least. split.
  - intros (j & -> & Hj & Hk & Hmin). simpl. rewrite app_nil_r in Hk.
    repeat split; auto. intros j' Hj'. specialize (Hmin j' Hj').
    now rewrite app_nil_r in Hmin.
  - intros (Hi & Hk & Hmin). exists i. rewrite app_nil_r. repeat split; auto.
    intros j' Hj'. rewrite app_nil_r. now apply Hmin.
Qed.

(** ** Loaded containers *)

Lemma StronglySorted_snoc {A} (R : A -> A -> Prop) l x :
  StronglySorted R l -> Forall (fun y => R y x) l -> StronglySorted R (l ++ [x]).
Proof.
  induction 1 as [|a l Hl IH Ha]; intros Hx; simpl.
  - repeat constructor.
  - apply Forall_cons_iff in Hx. destruct Hx as [Hax Hx].
    constructor; [now apply IH|].
    apply Forall_app. split; [exact Ha|now repeat constructor].
Qed.

Lemma keys_below_mono b b' m : b <= b' -> keys_below b m -> keys_below b' m.
Proof.
  intros Hb [Hs Hf]. split; [exact Hs|].
  eapply Forall_impl; [|exact Hf]. simpl. intros; lia.
Qed.

Lemma loaded_below_mono b b' d : b <= b' -> loaded_below b d -> loaded_below b' d.
Proof.
  intros Hb [Hs Hf]. split; [exact Hs|].
  eapply Forall_impl; [|exact Hf]. simpl. intros node [Hn Hk].
  split; [lia|now apply keys_below_mono with b].
Qed.

Lemma line_lt_map {V} (l : list (element * V)) :
  StronglySorted line_lt l <-> StronglySorted N.lt (List.map lineNum_of l).
Proof.
  induction l as [|a l IH]; simpl.
  - split; constructor.
  - split; intros Hs; apply StronglySorted_inv in Hs; destruct Hs as [Hs Ha];
      (constructor; [now apply IH|]).
    + rewrite Forall_forall in *. intros x Hx. apply in_map_iff in Hx.
      destruct Hx as (y & <- & Hy). now apply Ha.
    + rewrite Forall_forall in *. intros x Hx. apply Ha. now apply in_map.
Qed.

Lemma set_node_lines d n m :
  List.map lineNum_of (set_node d n m) = List.map lineNum_of d.
Proof.
  revert n. induction d as [|[e m0] d IH]; intros [|n]; simpl; auto.
  now rewrite IH.
Qed.

Lemma set_node_sorted d n m :
  StronglySorted line_lt d -> StronglySorted line_lt (set_node d n m).
Proof. rewrite !line_lt_map, set_node_lines. auto. Qed.

Lemma set_node_Forall (P : element * keymap -> Prop) d n m :
  Forall P d ->
  (forall e, nth_error d n = Some (e, current_map d n) -> P (e, m)) ->
  Forall P (set_node d n m).
Proof.
  intros Hf. revert n. induction Hf as [|[e m0] d Hp Hd IH]; intros n Hm; simpl;
    [constructor|].
  destruct n as [|n].
  - constructor; [|exact Hd]. apply Hm. reflexivity.
  - constructor; [exact Hp|]. apply IH. exact Hm.
Qed.

Lemma loaded_below_step seen st line st' :
  N.of_nat (List.length seen) + 2 < SizeT.modulus ->
  loader_inv seen st ->
  loaded_below (ld_lineNum st) (ld_data st) ->
  load_line st line = Ok st' ->
  loaded_below (ld_lineNum st') (ld_data st').
Proof.
  intros Hlen [Hnum Hit] Hld Hstep.
  assert (Hsucc : SizeT.succ (ld_lineNum st) = ld_lineNum st + 1).
  { apply SizeTFacts.succ_small. rewrite Hnum. lia. }
  assert (Hpos : 0 < ld_lineNum st) by (rewrite Hnum; lia).
  assert (Hld' : loaded_below (ld_lineNum st + 1) (ld_data st))
    by (apply loaded_below_mono with (ld_lineNum st); [lia|exact Hld]).
  destruct (is_header line) eqn:Hh.
  - rewrite (load_line_header _ _ Hh) in Hstep. injection Hstep as <-.
    cbn [ld_lineNum ld_data]. rewrite Hsucc.
    destruct Hld as [Hs Hf]. destruct Hld' as [_ Hf'].
    split.
    + apply StronglySorted_snoc; [exact Hs|].
      eapply Forall_impl; [|exact Hf]. unfold line_lt, lineNum_of. simpl. tauto.
    + apply Forall_app. split; [exact Hf'|].
      repeat constructor; unfold lineNum_of; simpl; lia.
  - destruct (found line "=") eqn:He.
    + assert (Hkv : is_keyvalue line = true) by (unfold is_keyvalue; now rewrite Hh, He).
      rewrite (load_line_keyvalue _ _ Hkv) in Hstep.
      destruct (Str.all_spaces (key_text line) || Str.all_spaces (value_text line));
        [discriminate|].
      destruct (ld_sectionIt st) as [n|] eqn:Hsec; [|discriminate].
      destruct (map_find (current_map (ld_data st) n) (key_of line)); [discriminate|].
      injection Hstep as <-. cbn [ld_lineNum ld_data]. rewrite Hsucc.
      destruct Hld as [Hs Hf]. destruct Hld' as [_ Hf'].
      split; [now apply set_node_sorted|].
      apply set_node_Forall; [exact Hf'|]. intros e He'.
      apply nth_error_In in He'.
      rewrite Forall_forall in Hf. destruct (Hf _ He') as (Hle & Hks & Hkf).
      simpl in Hle, Hks, Hkf. split; [simpl; unfold lineNum_of in *; simpl in *; lia|].
      split.
      * apply StronglySorted_snoc; [exact Hks|].
        eapply Forall_impl; [|exact Hkf]. unfold line_lt, lineNum_of. simpl. tauto.
      * apply Forall_app. split.
        -- eapply Forall_impl; [|exact Hkf]. simpl. intros; lia.
        -- repeat constructor; unfold lineNum_of; simpl; lia.
    + rewrite (load_line_other _ _ Hh He) in Hstep. injection Hstep as <-.
      cbn [ld_lineNum ld_data]. rewrite Hsucc. exact Hld'.
Qed.

Lemma load_loop_loaded seen st rest :
  N.of_nat (List.length seen + List.length rest) < SizeT.npos ->
  loader_inv seen st ->
  loaded_below (ld_lineNum st) (ld_data st) ->
  let st' := fst (load_loop st rest) in
  loaded_below (ld_lineNum st') (ld_data st').
Proof.
  revert seen st. induction rest as [|line rest IH]; intros seen st Hlen Hinv Hld.
  - exact Hld.
  - cbn [load_loop].
    destruct (load_line st line) as [st1|] eqn:Hline; [|exact Hld].
    cbn [List.length] in Hlen.
    assert (Hstep : N.of_nat (List.length seen) + 2 < SizeT.modulus)
      by (rewrite <- SizeTFacts.npos_succ; lia).
    apply (IH (line :: seen) st1); auto.
    + cbn [List.length]. rewrite Nat.add_succ_r in Hlen. exact Hlen.
    + now apply loader_inv_step with st.
    + now apply loaded_below_step with seen st line.
Qed.

Lemma loader_inv_init d : loader_inv [] (mkLoader d 1 None).
Proof. split; reflexivity. Qed.

Lemma load_ok d lines d' : load d lines = Ok d' -> d' = load_data d lines.
Proof.
  unfold load. destruct (snd (load_loop (mkLoader d 1 None) lines)); [discriminate|].
  now intros [= <-].
Qed.

(** The container [load] fills, starting from an empty one. *)
Lemma load_loaded lines d :
  N.of_nat (List.length lines) < SizeT.npos ->
  load [] lines = Ok d ->
  exists bound, loaded_below bound d.
Proof.
  intros Hlen Hload. apply load_ok in Hload. subst d. unfold load_data.
  exists (ld_lineNum (fst (load_loop (mkLoader [] 1 None) lines))).
  apply (@load_loop_loaded [] (mkLoader [] 1 None) lines); auto.
  - apply loader_inv_init.
  - split; constructor.
Qed.

Section LoadedFacts.

Context {HT : Hashtable} {ST : Sorting}.

(** A loaded container is written back in insertion order. *)
Lemma arr_loaded bound d : loaded_below bound d -> arr d = d.
Proof.
  intros [Hs Hf]. apply arr_ascending; [|exact Hs].
  clear Hs. induction Hf as [|node d (_ & Hk & _) Hf IH]; constructor; auto.
Qed.



End LoadedFacts.

(** What [save] writes for a container filled by [load]: the sections in
    the order of their headers, the keys of each in the order of their
    lines. *)
Lemma save_loaded {HT : Hashtable} {ST : Sorting} lines d :
  N.of_nat (List.length lines) < SizeT.npos ->
  load [] lines = Ok d ->
  save d = String.concat "" (List.map print_section d).
Proof.
  intros Hlen Hload. destruct (load_loaded lines Hlen Hload) as [bound Hb].
  unfold save. now rewrite (arr_loaded Hb).
Qed.

Lemma render_content d : String.concat "" (List.map print_section d) = render (content d).
Proof.
  unfold render, content. rewrite map_map. f_equal. apply map_ext.
  intros [e m]. unfold print_section. cbn [fst snd]. rewrite map_map. reflexivity.
Qed.

Lemma content_snoc d e : content (d ++ [(e, [])]) = content d ++ [(_name e, [])].
Proof. unfold content. now rewrite map_app. Qed.

Lemma content_add_key d n e v :
  S n = List.length d ->
  content (set_node d n (current_map d n ++ [(e, v)])) =
  add_key (content d) (_name e, v).
Proof.
  revert n. induction d as [|[e0 m0] d IH]; intros n Hn; [discriminate|].
  destruct d as [|[e1 m1] d].
  - destruct n; [|simpl in Hn; lia]. unfold current_map. simpl.
    now rewrite map_app.
  - destruct n as [|n]; [simpl in Hn; lia|].
    specialize (IH n ltac:(simpl in *; lia)).
    change (current_map ((e0, m0) :: (e1, m1) :: d) (S n))
      with (current_map ((e1, m1) :: d) n).
    change (set_node ((e0, m0) :: (e1, m1) :: d) (S n) ?m)
      with ((e0, m0) :: set_node ((e1, m1) :: d) n m).
    unfold content in *. rewrite List.map_cons.
    etransitivity; [apply f_equal; exact IH|reflexivity].
Qed.

Lemma parsed_inv_step seen st line st' :
  parsed_inv seen st -> load_line st line = Ok st' -> parsed_inv (line :: seen) st'.
Proof.
  intros [Hc Hit] Hstep. unfold parsed_inv, parse. cbn [rev].
  rewrite fold_left_app. cbn [fold_left]. fold (parse (rev seen)). rewrite <- Hc.
  unfold read_line. destruct (is_header line) eqn:Hh.
  - rewrite (load_line_header _ _ Hh) in Hstep. injection Hstep as <-.
    cbn [ld_data ld_sectionIt]. rewrite content_snoc, length_app. cbn [_name List.length].
    split; [reflexivity|lia].
  - destruct (found line "=") eqn:He.
    + assert (Hkv : is_keyvalue line = true) by (unfold is_keyvalue; now rewrite Hh, He).
      rewrite Hkv. rewrite (load_line_keyvalue _ _ Hkv) in Hstep.
      destruct (Str.all_spaces (key_text line) || Str.all_spaces (value_text line));
        [discriminate|].
      destruct (ld_sectionIt st) as [n|]; [|discriminate].
      destruct (map_find (current_map (ld_data st) n) (key_of line)); [discriminate|].
      injection Hstep as <-. cbn [ld_data ld_sectionIt].
      rewrite (content_add_key _ _ _ Hit), length_set_node. now split.
    + assert (Hkv : is_keyvalue line = false)
        by (unfold is_keyvalue; now rewrite He, andb_false_r).
      rewrite Hkv. rewrite (load_line_other _ _ Hh He) in Hstep. injection Hstep as <-.
      now split.
Qed.

Lemma load_loop_parsed seen st rest :
  parsed_inv seen st ->
  snd (load_loop st rest) = None ->
  parsed_inv (rev rest ++ seen) (fst (load_loop st rest)).
Proof.
  revert seen st. induction rest as [|line rest IH]; intros seen st Hinv Hrun.
  - exact Hinv.
  - cbn [load_loop] in *. destruct (load_line st line) as [st'|] eqn:Hline;
      [|discriminate].
    cbn [rev]. rewrite <- app_assoc. apply IH; [|exact Hrun].
    now apply parsed_inv_step with st.
Qed.

(** A container filled by [load] holds what the lines spell out. *)
Lemma load_content lines d : load [] lines = Ok d -> content d = parse lines.
Proof.
  intros Hload. pose proof (load_ok _ _ Hload) as ->. unfold load in Hload.
  destruct (snd (load_loop (mkLoader [] 1 None) lines)) eqn:Hrun; [discriminate|].
  destruct (@load_loop_parsed [] (mkLoader [] 1 None) lines) as [Hc _]; auto.
  - split; [reflexivity|exact I].
  - rewrite app_nil_r, rev_involutive in Hc. exact Hc.
Qed.

(** Loading and saving: the text written is the document the lines spell
    out, in the layout of [save], whatever the iteration order of the
    containers and whatever [std::sort] does with equal keys. *)
Lemma save_load_renders_parse {HT : Hashtable} {ST : Sorting} lines d :
  N.of_nat (List.length lines) < SizeT.npos ->
  load [] lines = Ok d ->
  save d = render (parse lines).
Proof.
  intros Hlen Hload.
  now rewrite (save_loaded lines Hlen Hload), render_content, (load_content _ Hload).
Qed.

(** ** Resolving a handle *)

Lemma first_from_app p i pre l :
  (forall x, In x pre -> p x = false) ->
  first_from p i (pre ++ l) = first_from p (i + List.length pre) l.
Proof.
  revert i. induction pre as [|a pre IH]; intros i Hp; simpl.
  - now rewrite Nat.add_0_r.
  - rewrite (Hp a) by now left. rewrite IH by (intros; apply Hp; now right).
    f_equal. lia.
Qed.

Lemma first_from_none p i l :
  (forall x, In x l -> p x = false) -> first_from p i l = None.
Proof.
  revert i. induction l as [|a l IH]; intros i Hp; simpl; [reflexivity|].
  rewrite (Hp a) by now left. apply IH. intros; apply Hp; now right.
Qed.

Lemma run_length_app p grp post :
  (forall x, In x grp -> p x = true) ->
  (forall x, In x post -> p x = false) ->
  run_length p (grp ++ post) = List.length grp.
Proof.
  intros Hg Hp. induction grp as [|a grp IH]; simpl.
  - destruct post as [|b post]; [reflexivity|]. simpl. now rewrite (Hp b) by now left.
  - rewrite (Hg a) by now left. f_equal. apply IH. intros; apply Hg; now right.
Qed.

Lemma filter_group {A} (p : A -> bool) pre grp post :
  (forall x, In x grp -> p x = true) ->
  (forall x, In x (pre ++ post) -> p x = false) ->
  filter p (pre ++ grp ++ post) = grp.
Proof.
  intros Hg Hp. rewrite !filter_app.
  assert (Hnone : forall l, (forall x, In x l -> p x = false) -> filter p l = []).
  { induction l as [|a l IH]; intros Hl; simpl; [reflexivity|].
    rewrite (Hl a) by now left. apply IH. intros; apply Hl; now right. }
  rewrite (Hnone pre), (Hnone post) by (intros; apply Hp, in_or_app; auto).
  rewrite app_nil_r. simpl.
  induction grp as [|a grp IH]; simpl; [reflexivity|].
  rewrite (Hg a) by now left. f_equal. apply IH. intros; apply Hg; now right.
Qed.

Lemma filter_length_perm {A} (p : A -> bool) l l' :
  Permutation l l' -> List.length (filter p l) = List.length (filter p l').
Proof.
  induction 1 as [|a l l' Hp IH|a b l|l1 l2 l3 H1 IH1 H2 IH2]; simpl.
  - reflexivity.
  - destruct (p a); simpl; now rewrite IH.
  - destruct (p a), (p b); reflexivity.
  - now rewrite IH1.
Qed.

Lemma filter_ranks {A} (q : A -> bool) (pre l : list A) :
  List.length
    (filter (fun i => match nth_error (pre ++ l) i with Some a => q a | None => false end)
       (seq (List.length pre) (List.length l)))
  = List.length (filter q l).
Proof.
  revert pre. induction l as [|a l IH]; intros pre; [reflexivity|].
  cbn [List.length seq filter].
  rewrite nth_error_app2, Nat.sub_diag by lia. cbn [nth_error].
  specialize (IH (pre ++ [a])). rewrite <- app_assoc, length_app in IH.
  cbn [List.length app] in IH. rewrite Nat.add_1_r in IH.
  destruct (q a); cbn [List.length]; now rewrite IH.
Qed.

Section ResolveFacts.

Context {HT : Hashtable}.

Lemma node_equals_iff d key n :
  node_equals d key n = true <-> nth_error (names d) n = Some (_name key).
Proof.
  unfold node_equals, names. rewrite nth_error_map.
  destruct (nth_error d n) as [[e m]|]; simpl; [|split; discriminate].
  unfold element_eqb. rewrite String.eqb_eq.
  split; [now intros ->|now intros [= ->]].
Qed.

(** The iteration sequence around the records whose key equals [key]. *)
Lemma iteration_split d key :
  exists pre grp post,
    iteration d = pre ++ grp ++ post /\
    (forall n, In n grp -> node_equals d key n = true) /\
    (forall n, In n (pre ++ post) -> node_equals d key n = false) /\
    List.length grp = occurrences d (_name key).
Proof.
  destruct (multimap_order_adjacent (names d) (_name key))
    as (pre & grp & post & Hit & Hg & Hp).
  exists pre, grp, post. fold (iteration d) in Hit.
  assert (Hg' : forall n, In n grp -> node_equals d key n = true)
    by (intros n Hn; now apply node_equals_iff, Hg).
  assert (Hp' : forall n, In n (pre ++ post) -> node_equals d key n = false).
  { intros n Hn. destruct (node_equals d key n) eqn:E; [|reflexivity].
    apply node_equals_iff in E. now elim (Hp n Hn). }
  repeat split; auto.
  rewrite <- (filter_group (node_equals d key) pre grp post Hg' Hp'), <- Hit.
  unfold iteration.
  rewrite (filter_length_perm _ (multimap_order_perm (names d))).
  unfold occurrences, names. rewrite length_map.
  rewrite <- (filter_ranks (fun p => String.eqb (_name (fst p)) (_name key)) [] d).
  cbn [app List.length]. f_equal. apply filter_ext_in. intros n _.
  unfold node_equals. now destruct (nth_error d n) as [[e m]|].
Qed.

Lemma equal_range_split d key pre grp post :
  iteration d = pre ++ grp ++ post ->
  (forall n, In n grp -> node_equals d key n = true) ->
  (forall n, In n (pre ++ post) -> node_equals d key n = false) ->
  equal_range d key =
  match grp with
  | [] => (end_ d, end_ d)
  | _ => (List.length pre, (List.length pre + List.length grp)%nat)
  end.
Proof.
  intros Hit Hg Hp. unfold equal_range. rewrite Hit.
  rewrite first_from_app by (intros; apply Hp, in_or_app; auto).
  destruct grp as [|g grp].
  - simpl. rewrite first_from_none by (intros; apply Hp, in_or_app; auto).
    reflexivity.
  - cbn [app first_from]. rewrite (Hg g) by now left. cbn [Nat.add].
    rewrite skipn_app, skipn_all, Nat.sub_diag. cbn [app skipn].
    change (g :: grp ++ post) with ((g :: grp) ++ post).
    rewrite run_length_app by (auto; intros; apply Hp, in_or_app; auto).
    reflexivity.
Qed.

(** [getIterator] in terms of the group of records with the handle's
    name: the test lets the index [length grp] through. *)
Lemma getIterator_split d section pre grp post :
  iteration d = pre ++ grp ++ post ->
  (forall n, In n grp -> node_equals d (element_of_section section) n = true) ->
  (forall n, In n (pre ++ post) -> node_equals d (element_of_section section) n = false) ->
  getIterator d section =
  if Nat.eqb (List.length grp) 0 || (N.of_nat (List.length grp) + 1 <=? getIndex section)
  then end_ d
  else (List.length pre + N.to_nat (getIndex section))%nat.
Proof.
  intros Hit Hg Hp. unfold getIterator.
  rewrite (equal_range_split _ _ _ _ _ Hit Hg Hp).
  destruct grp as [|g grp].
  - cbn [fst snd]. rewrite Nat.eqb_refl. reflexivity.
  - cbn [fst snd]. unfold end_. rewrite Hit, !length_app.
    set (lg := List.length (g :: grp)).
    assert (Hlg : (0 < lg)%nat) by (unfold lg; simpl; lia).
    replace (Nat.eqb (List.length pre) (List.length pre + (lg + List.length post)))
      with false by (symmetry; apply Nat.eqb_neq; lia).
    replace (Nat.eqb lg 0) with false by (symmetry; apply Nat.eqb_neq; lia).
    cbn [andb orb]. unfold distance.
    replace (List.length pre + lg - List.length pre)%nat with lg by lia.
    reflexivity.
Qed.

(** [sectionCount] counts the records with the handle's name. *)
Lemma sectionCount_occurrences d section :
  sectionCount d section = N.of_nat (occurrences d (sectionName section)).
Proof.
  destruct (iteration_split d (element_of_section section))
    as (pre & grp & post & Hit & Hg & Hp & Hocc).
  cbn [element_of_section _name] in Hocc. rewrite <- Hocc.
  unfold sectionCount. rewrite (equal_range_split _ _ _ _ _ Hit Hg Hp).
  destruct grp as [|g grp].
  - cbn [fst snd]. now rewrite Nat.eqb_refl.
  - cbn [fst snd]. unfold end_. rewrite Hit, !length_app.
    set (lg := List.length (g :: grp)).
    assert (Hlg : (0 < lg)%nat) by (unfold lg; simpl; lia).
    replace (Nat.eqb (List.length pre) (List.length pre + (lg + List.length post)))
      with false by (symmetry; apply Nat.eqb_neq; lia).
    cbn [andb]. unfold distance. f_equal. lia.
Qed.

Lemma iteration_in_range d n : In n (iteration d) -> (n < List.length d)%nat.
Proof.
  intros Hn. unfold iteration in Hn.
  apply (Permutation_in _ (multimap_order_perm (names d))) in Hn.
  apply in_seq in Hn. unfold names in Hn. rewrite length_map in Hn. lia.
Qed.

(** An index below the number of same-named records resolves to one of
    them. *)
Lemma getIterator_resolves d section :
  getIndex section < N.of_nat (occurrences d (sectionName section)) ->
  exists n e m,
    node_at d (getIterator d section) = Some (n, m) /\
    nth_error d n = Some (e, m) /\
    _name e = sectionName section.
Proof.
  destruct (iteration_split d (element_of_section section))
    as (pre & grp & post & Hit & Hg & Hp & Hocc).
  cbn [element_of_section _name] in Hocc. rewrite <- Hocc.
  intros Hidx. rewrite (getIterator_split _ _ _ _ _ Hit Hg Hp).
  assert (Hlen : (N.to_nat (getIndex section) < List.length grp)%nat) by lia.
  replace (Nat.eqb (List.length grp) 0) with false by (symmetry; apply Nat.eqb_neq; lia).
  replace (N.of_nat (List.length grp) + 1 <=? getIndex section) with false
    by (symmetry; apply N.leb_gt; lia).
  cbn [orb]. unfold node_at, end_, deref. rewrite Hit.
  replace (Nat.eqb _ (List.length (pre ++ grp ++ post))) with false
    by (symmetry; apply Nat.eqb_neq; rewrite !length_app; lia).
  rewrite nth_error_app2, Nat.add_comm, Nat.add_sub, nth_error_app1 by lia.
  destruct (nth_error grp (N.to_nat (getIndex section))) as [n|] eqn:En;
    [|apply nth_error_None in En; lia].
  apply nth_error_In in En.
  assert (Hin : In n (iteration d))
    by (rewrite Hit; apply in_or_app; right; apply in_or_app; now left).
  apply iteration_in_range in Hin.
  destruct (nth_error d n) as [[e m]|] eqn:Ed; [|apply nth_error_None in Ed; lia].
  exists n, e, m. split; [reflexivity|]. split; [exact Ed|].
  specialize (Hg n En). apply node_equals_iff in Hg.
  unfold names in Hg. rewrite nth_error_map, Ed in Hg. simpl in Hg. now injection Hg.
Qed.

(** An index above the number of same-named records does not resolve. *)
Lemma getIterator_beyond d section :
  N.of_nat (occurrences d (sectionName section)) < getIndex section ->
  getIterator d section = end_ d.
Proof.
  destruct (iteration_split d (element_of_section section))
    as (pre & grp & post & Hit & Hg & Hp & Hocc).
  cbn [element_of_section _name] in Hocc. rewrite <- Hocc.
  intros Hidx. rewrite (getIterator_split _ _ _ _ _ Hit Hg Hp).
  replace (N.of_nat (List.length grp) + 1 <=? getIndex section) with true
    by (symmetry; apply N.leb_le; lia).
  now rewrite orb_true_r.
Qed.

(** No record of that name: no index resolves. *)
Lemma getIterator_unknown d section :
  occurrences d (sectionName section) = O ->
  getIterator d section = end_ d.
Proof.
  destruct (iteration_split d (element_of_section section))
    as (pre & grp & post & Hit & Hg & Hp & Hocc).
  cbn [element_of_section _name] in Hocc. rewrite <- Hocc.
  intros Hz. rewrite (getIterator_split _ _ _ _ _ Hit Hg Hp), Hz. reflexivity.
Qed.

End ResolveFacts.

(** At the index equal to the number of same-named records the iterator
    returned is the one that ends their range: the next record iterated,
    or [end()] when they come last. *)
Lemma getIterator_boundary {HT : Hashtable} d section :
  (0 < occurrences d (sectionName section))%nat ->
  getIndex section = N.of_nat (occurrences d (sectionName section)) ->
  exists pre grp post,
    iteration d = pre ++ grp ++ post /\
    (forall n, In n grp -> node_equals d (element_of_section section) n = true) /\
    (forall n, In n (pre ++ post) -> node_equals d (element_of_section section) n = false) /\
    getIterator d section = (List.length pre + List.length grp)%nat /\
    deref d (getIterator d section) = hd_error post.
Proof.
  destruct (iteration_split d (element_of_section section))
    as (pre & grp & post & Hit & Hg & Hp & Hocc).
  cbn [element_of_section _name] in Hocc. rewrite <- Hocc.
  intros Hpos Hidx. exists pre, grp, post.
  assert (Hget : getIterator d section = (List.length pre + List.length grp)%nat).
  { rewrite (getIterator_split _ _ _ _ _ Hit Hg Hp), Hidx.
    replace (Nat.eqb (List.length grp) 0) with false by (symmetry; apply Nat.eqb_neq; lia).
    replace (N.of_nat (List.length grp) + 1 <=? N.of_nat (List.length grp)) with false
      by (symmetry; apply N.leb_gt; lia).
    cbn [orb]. now rewrite Nat2N.id. }
  repeat split; auto. rewrite Hget. unfold deref. rewrite Hit.
  rewrite nth_error_app2 by lia.
  replace (List.length pre + List.length grp - List.length pre)%nat
    with (List.length grp) by lia.
  rewrite nth_error_app2, Nat.sub_diag by lia. now destruct post.
Qed.

Lemma one_section_iteration {HT : Hashtable} : iteration one_section = [0%nat].
Proof.
  pose proof (multimap_order_perm (names one_section)) as Hp.
  symmetry in Hp. apply Permutation_length_1_inv in Hp. exact Hp.
Qed.

Lemma two_sections_iteration {HT : Hashtable} :
  iteration two_sections = [0; 1]%nat \/ iteration two_sections = [1; 0]%nat.
Proof.
  pose proof (multimap_order_perm (names two_sections)) as Hp.
  symmetry in Hp. apply Permutation_length_2_inv in Hp. exact Hp.
Qed.

(** ** What a handle and a key give access to *)

Section StoredFacts.

Context {HT : Hashtable}.

Lemma keyExists_stored d section key :
  keyExists d section key = false <-> stored d section key = None.
Proof.
  unfold keyExists, stored.
  destruct (node_at d (getIterator d section)) as [[n m]|]; [|tauto].
  destruct (map_find m key); simpl; split; auto; discriminate.
Qed.

Lemma sectionExists_stored d section key :
  sectionExists d section = false -> stored d section key = None.
Proof.
  unfold sectionExists, stored, node_at.
  destruct (Nat.eqb (getIterator d section) (end_ d)); [reflexivity|discriminate].
Qed.

Lemma node_at_nth d it n m :
  node_at d it = Some (n, m) -> exists e, nth_error d n = Some (e, m).
Proof.
  unfold node_at. destruct (Nat.eqb it (end_ d)); [discriminate|].
  destruct (deref d it) as [n'|]; [|discriminate].
  destruct (nth_error d n') as [[e m']|] eqn:E; [|discriminate].
  intros [= <- <-]. now exists e.
Qed.

Lemma set_node_same d n e m : nth_error d n = Some (e, m) -> set_node d n m = d.
Proof.
  revert n. induction d as [|[e' m'] d IH]; intros [|n]; simpl; try discriminate.
  - now intros [= -> ->].
  - intros Hn. now rewrite IH.
Qed.

(** Indexing a map with a key it holds reads the value and leaves the
    container as it was. *)
Lemma index_present d it n m key e text :
  node_at d it = Some (n, m) ->
  map_find m key = Some (e, text) ->
  map_index m key = (text, m) /\ set_node d n m = d.
Proof.
  intros Hn Hf. unfold map_index. rewrite Hf. split; [reflexivity|].
  destruct (node_at_nth _ _ Hn) as [e' He']. now apply set_node_same with e'.
Qed.

(** None of the three [read]s changes the container: [operator[]] is only
    reached with a key that is present. *)
Lemma read_leaves_container {T} (extract : string -> option T) (declared : option T)
    d section key (defaultValue : T) (defaultBool : bool) (defaultString : string) :
  snd (read extract declared d section key defaultValue) = d /\
  snd (read_bool d section key defaultBool) = d /\
  snd (read_string d section key defaultString) = d.
Proof.
  unfold read, read_bool, read_string.
  destruct (node_at d (getIterator d section)) as [[n m]|] eqn:Hn; [|repeat split].
  destruct (map_find m key) as [[e v]|] eqn:Hf; [|repeat split].
  destruct (index_present _ _ _ Hn Hf) as [-> ->]. repeat split.
Qed.

End StoredFacts.

(** A handle whose name is unknown, or whose index is above the number of
    records of its name, reads as the default. *)
Lemma read_default_unresolved {HT : Hashtable} {T} (extract : string -> option T)
    (declared : option T) d section key (defaultValue : T) :
  occurrences d (sectionName section) = O \/
  N.of_nat (occurrences d (sectionName section)) < getIndex section ->
  sectionExists d section = false /\
  read extract declared d section key defaultValue = (Returns defaultValue, d).
Proof.
  intros Hout.
  assert (Hend : getIterator d section = end_ d)
    by (destruct Hout; [now apply getIterator_unknown|now apply getIterator_beyond]).
  unfold sectionExists, read, node_at. rewrite Hend, Nat.eqb_refl. split; reflexivity.
Qed.

(** ** The tokenizer on one-sided spaces *)

(** [readWord] removes the spaces of a text that has them on one side
    only. *)
Lemma readWord_one_sided s :
  Str.leading_spaces s = 0 \/ Str.leading_spaces (Str.rev s) = 0 ->
  readWord s = Ok (trim s).
Proof.
  intros Hside. unfold readWord, trim. destruct s as [|a s]; [reflexivity|].
  cbn [Str.empty]. set (line := String a s) in *.
  pose proof (StrFacts.leading_spaces_le line) as Hlead.
  rewrite StrFacts.substr_ok by exact Hlead.
  do 2 f_equal. f_equal. destruct Hside as [-> | ->]; lia.
Qed.

(** ** An example of the order of [save] *)

(** Two sections inserted with the line numbers 10 and 3, in that order:
    the one of line 3 is saved first. *)
Lemma save_line_3_before_line_10 {HT : Hashtable} {ST : Sorting} :
  getlines
    (save [(mkElement "late" 10, [(mkElement "b" 12, "2"); (mkElement "a" 11, "1")]);
           (mkElement "early" 3, [])]) =
  ["[early]"; ""; "[late]"; "a = 1"; "b = 2"; ""].
Proof.
  assert (Hkeys : sorted_keys [(mkElement "b" 12, "2"); (mkElement "a" 11, "1")] =
                  [(mkElement "a" 11, "1"); (mkElement "b" 12, "2")]).
  { apply sorted_keys_ascending; [apply perm_swap|].
    repeat constructor. }
  assert (Hnone : sorted_keys [] = []).
  { apply sorted_keys_ascending; [reflexivity|constructor]. }
  unfold save.
  rewrite (@ascending_unique _ (arr _)
             [(mkElement "early" 3, []);
              (mkElement "late" 10, [(mkElement "a" 11, "1"); (mkElement "b" 12, "2")])]).
  - reflexivity.
  - rewrite arr_perm. cbn [List.map fst snd]. rewrite Hkeys, Hnone. apply perm_swap.
  - apply (std_sort_sorted (lineNum_of (V:=list (element * string)))).
  - repeat constructor.
Qed.

(** ** Reading with a default *)

(** When [sectionExists] or [keyExists] answers [false], each of the
    three [read]s returns the default it was given and leaves the
    container as it was. *)
Lemma read_default_fallback {HT : Hashtable} {T} (extract : string -> option T)
    (declared : option T) d section key (defaultValue : T)
    (defaultBool : bool) (defaultString : string) :
  sectionExists d section = false \/ keyExists d section key = false ->
  read extract declared d section key defaultValue = (Returns defaultValue, d) /\
  read_bool d section key defaultBool = (defaultBool, d) /\
  read_string d section key defaultString = (defaultString, d).
Proof.
  intros Hmiss.
  assert (Hs : stored d section key = None).
  { destruct Hmiss as [Hs|Hk]; [now apply sectionExists_stored|now apply keyExists_stored]. }
  unfold stored in Hs. unfold read, read_bool, read_string.
  destruct (node_at d (getIterator d section)) as [[n m]|]; [|repeat split].
  destruct (map_find m key); [discriminate|repeat split].
Qed.

(** [read<int>(handle, "missing", 42)] on an existing section without
    the key, and on a handle whose name is unknown. *)
Lemma read_default_fallback_witness :
  keyExists (HT:=ChainedLaws.hashtable) flags (mkIniSection "A" 0 0) "missing" = false /\
  read (HT:=ChainedLaws.hashtable) Stream.extract_int None flags
    (mkIniSection "A" 0 0) "missing" 42%Z = (Returns 42%Z, flags) /\
  sectionExists (HT:=ChainedLaws.hashtable) flags (mkIniSection "C" 0 0) = false /\
  read (HT:=ChainedLaws.hashtable) Stream.extract_int None flags
    (mkIniSection "C" 0 0) "x" 42%Z = (Returns 42%Z, flags).
Proof.
  split; [reflexivity|]. split.
  - exact (proj1 (read_default_fallback (HT:=ChainedLaws.hashtable) Stream.extract_int None
                    flags (mkIniSection "A" 0 0) "missing" 42%Z false ""
                    (or_intror eq_refl))).
  - split; [reflexivity|].
    exact (proj1 (read_default_fallback (HT:=ChainedLaws.hashtable) Stream.extract_int None
                    flags (mkIniSection "C" 0 0) "x" 42%Z false ""
                    (or_introl eq_refl))).
Defined.

(** Behind a handle that resolves and a key that is present, the generic
    [read<T>] does not use the default: where the extraction stores a
    value, that value is returned. *)
Lemma read_ignores_default {HT : Hashtable} {T} (extract : string -> option T)
    (declared : option T) d section key text value (defaultValue : T) :
  stored d section key = Some text ->
  extract text = Some value ->
  read extract declared d section key defaultValue = (Returns value, d).
Proof.
  unfold stored, read.
  destruct (node_at d (getIterator d section)) as [[n m]|] eqn:Hn; [|discriminate].
  destruct (map_find m key) as [[e v]|] eqn:Hf; [|discriminate].
  cbn [option_map snd]. intros [= ->] Hx.
  destruct (index_present _ _ _ Hn Hf) as [-> ->]. now rewrite Hx.
Qed.

(** The text ["abc"] is not a number: with the defaults 1 and 2 the result
    is the same, the zero the extraction writes. *)
Lemma read_ignores_default_witness :
  load [] ["[A]"; "n = 12"; "w = abc"] = Ok numbers /\
  read (HT:=ChainedLaws.hashtable) Stream.extract_int None numbers
    (mkIniSection "A" 0 0) "w" 1%Z = (Returns 0%Z, numbers) /\
  read (HT:=ChainedLaws.hashtable) Stream.extract_int None numbers
    (mkIniSection "A" 0 0) "w" 2%Z = (Returns 0%Z, numbers).
Proof.
  split; [reflexivity|]. split.
  - exact (read_ignores_default (HT:=ChainedLaws.hashtable) Stream.extract_int None
             numbers (mkIniSection "A" 0 0) "w" 1%Z eq_refl eq_refl).
  - exact (read_ignores_default (HT:=ChainedLaws.hashtable) Stream.extract_int None
             numbers (mkIniSection "A" 0 0) "w" 2%Z eq_refl eq_refl).
Defined.

(** * The claims *)

(** C1: loading lines and saving the result should give back the same
    sections, keys and values, written as [key = value].  On the line
    [" k = v"] the loader keeps the key ["k "] (the slip of [readWord]
    behind C3), [save] writes ["k  = v"], and loading that text again
    gives a container with the key ["k"]: the content has changed. *)
Theorem roundtrip_indented_key {HT : Hashtable} {ST : Sorting} :
  exists d d',
    load [] ["[A]"; " k = v"] = Ok d /\
    content d = [("A", [("k ", "v")])] /\
    getlines (save d) = ["[A]"; "k  = v"; ""] /\
    load [] (getlines (save d)) = Ok d' /\
    content d' = [("A", [("k", "v")])].
Proof.
  eexists. eexists.
  assert (Hload : load [] ["[A]"; " k = v"] =
                  Ok [(mkElement "A" 1, [(mkElement "k " 2, "v")])]) by reflexivity.
  split; [exact Hload|]. split; [reflexivity|].
  rewrite (save_loaded ["[A]"; " k = v"] eq_refl Hload).
  split; [reflexivity|]. split; reflexivity.
Qed.

(** C2: with [k] records of one name, the indices below [k] should
    resolve and the index [k] should not.  [getIterator] compares the
    index with [distance + 1], so the index [k] passes the test and the
    iterator is advanced to the end of the range: unless the records of
    that name are the last ones iterated, that is a record of another
    section.  With one [[A]] and one [[B]], whatever the iteration order,
    one of the two handles of index 1 exists and reads the other
    section's key. *)
Theorem index_k_resolves_elsewhere {HT : Hashtable} :
  load [] ["[A]"; "k=1"; "[B]"; "k=2"] = Ok two_sections /\
  sectionCount two_sections (mkIniSection "A" 1 0) = 1 /\
  sectionCount two_sections (mkIniSection "B" 1 0) = 1 /\
  ((sectionExists two_sections (mkIniSection "A" 1 0) = true /\
    fst (read_string two_sections (mkIniSection "A" 1 0) "k" "default") = "2")
   \/
   (sectionExists two_sections (mkIniSection "B" 1 0) = true /\
    fst (read_string two_sections (mkIniSection "B" 1 0) "k" "default") = "1")).
Proof.
  split; [reflexivity|].
  split; [now rewrite sectionCount_occurrences|].
  split; [now rewrite sectionCount_occurrences|].
  destruct two_sections_iteration as [Hit|Hit]; [left|right];
    unfold sectionExists, read_string, node_at, getIterator, equal_range, end_, deref;
    rewrite !Hit; split; reflexivity.
Qed.

(** C3: a key/value line is split at the first [=] and each half goes
    through [readWord], which is meant to strip the spaces on both sides.
    With spaces on both sides the trailing ones stay: [readWord] passes the
    end position where [substr] expects a length, so the half [" ab "] is
    stored as ["ab "], not as ["ab"]. *)
Theorem readWord_keeps_trailing_space :
  readWord " ab " = Ok "ab " /\
  load [] ["[S]"; " ab = cd "] =
  Ok [(mkElement "S" 1, [(mkElement "ab " 2, "cd ")])].
Proof. split; reflexivity. Qed.

(** C4: [load] should throw on a key/value line that repeats a key of
    the section it is in, the keys being the trimmed texts left of the
    [=].  The loader compares the keys as [readWord] returns them, and
    [readWord] leaves trailing spaces on a text with spaces on both sides
    (C3).  Under [k=1], the line [ k =2] repeats the key [k]: line 3 is
    where the load should fail.  It returns, with the keys [k] and [k ]
    in the section. *)
Theorem repeated_key_not_rejected :
  spec_key "k=1" = "k" /\ spec_key " k =2" = "k" /\
  spec_first_failure ["[A]"; "k=1"; " k =2"] = Some (DuplicateKey, 2%nat) /\
  first_failure ["[A]"; "k=1"; " k =2"] = None /\
  load [] ["[A]"; "k=1"; " k =2"] =
  Ok [(mkElement "A" 1, [(mkElement "k" 2, "1"); (mkElement "k " 3, "2")])].
Proof. repeat split; reflexivity. Qed.




(** C6, as stated, fails on equal line numbers: the sections [A] and [B]
    created in that order, both with the line number 0, are saved [B]
    first. *)
Lemma equal_lines_not_in_insertion_order :
  let d := snd (writeSection (HT:=ChainedLaws.hashtable)
                  (snd (writeSection (HT:=ChainedLaws.hashtable) [] "A")) "B") in
  let out := getlines (save (HT:=ChainedLaws.hashtable) (ST:=ChainedLaws.sort) d) in
  d = [(mkElement "A" 0, []); (mkElement "B" 0, [])] /\
  out = ["[B]"; ""; "[A]"; ""] /\
  written_above "[A]" "[B]" out = false.
Proof. repeat split. Qed.

(** C6, amended: [save] prints the records in ascending order of their
    line numbers, and under each its keys in ascending order of theirs: a
    [[name]] line, a [key = value] line per key with one space on each
    side of the [=], and an empty line.  Nothing is fixed about the order
    of records, or of keys, with equal line numbers. *)
Theorem save_ascending_format {HT : Hashtable} {ST : Sorting} (d : data) :
  save d = String.concat "" (List.map print_section (arr d)) /\
  Permutation (arr d) (List.map (fun node => (fst node, sorted_keys (snd node))) d) /\
  StronglySorted line_le (arr d) /\
  (forall m : keymap,
     Permutation (sorted_keys m) m /\ StronglySorted line_le (sorted_keys m)) /\
  (forall e keys,
     print_section (e, keys) =
     ("[" ++ _name e ++ "]" ++ nl
        ++ String.concat "" (List.map print_key keys) ++ nl)%string) /\
  (forall e value, print_key (e, value) = (_name e ++ " = " ++ value ++ nl)%string).
Proof.
  split; [reflexivity|]. split; [apply arr_perm|].
  split; [apply (std_sort_sorted (lineNum_of (V:=list (element * string))))|].
  split; [|split; reflexivity].
  intros m. split; [apply sorted_keys_perm|].
  apply (std_sort_sorted (lineNum_of (V:=string))).
Qed.

(** C7: behind a handle that resolves and a key that is present,
    [read<bool>] is [true] exactly when the stored text, in lower case, is
    one of ["true"], ["on"], ["yes"], ["1"], and [false] otherwise; the
    default is the result when the handle does not resolve or the key is
    absent. *)
Theorem read_bool_semantics {HT : Hashtable} d section key defaultValue :
  (forall text, stored d section key = Some text ->
     (fst (read_bool d section key defaultValue) = true <->
      In (Str.map Str.tolower text) ["true"; "on"; "yes"; "1"]) /\
     (fst (read_bool d section key defaultValue) = false <->
      ~ In (Str.map Str.tolower text) ["true"; "on"; "yes"; "1"])) /\
  (stored d section key = None ->
     fst (read_bool d section key defaultValue) = defaultValue).
Proof.
  unfold stored, read_bool.
  destruct (node_at d (getIterator d section)) as [[n m]|] eqn:Hn;
    [|split; [discriminate|reflexivity]].
  destruct (map_find m key) as [[e v]|] eqn:Hf; [|split; [discriminate|reflexivity]].
  split; [|discriminate]. intros text [= <-].
  destruct (index_present _ _ _ Hn Hf) as [-> _]. cbn [fst].
  assert (Hfind : forall l x, std_find l x = true <-> In x l).
  { induction l as [|a l IH]; intros x; simpl; [split; [discriminate|tauto]|].
    destruct (String.eqb_spec a x) as [->|Hne]; [tauto|].
    rewrite IH. split; [tauto|]. intros [Ha|Hl]; [contradiction|exact Hl]. }
  change ["true"; "on"; "yes"; "1"] with alias.trueValue.
  specialize (Hfind alias.trueValue (Str.map Str.tolower v)).
  destruct (std_find alias.trueValue (Str.map Str.tolower v)).
  - split; [tauto|]. split; [discriminate|]. intros Hn'. elim Hn'. now apply Hfind.
  - split; [split; [discriminate|]|split; auto].
    + intros Hi. apply Hfind in Hi. discriminate.
    + intros _ Hi. apply Hfind in Hi. discriminate.
Qed.

(** ["YES"] reads as [true] and ["2"] as [false], both with the opposite
    default; a missing key reads as the default. *)
Lemma read_bool_semantics_witness :
  load [] ["[A]"; "x = YES"; "y = 2"] = Ok flags /\
  fst (read_bool (HT:=ChainedLaws.hashtable) flags (mkIniSection "A" 0 0) "x" false) = true /\
  fst (read_bool (HT:=ChainedLaws.hashtable) flags (mkIniSection "A" 0 0) "y" true) = false /\
  fst (read_bool (HT:=ChainedLaws.hashtable) flags (mkIniSection "A" 0 0) "z" true) = true.
Proof.
  split; [reflexivity|]. split; [|split].
  - apply (proj1 (read_bool_semantics (HT:=ChainedLaws.hashtable) flags
                    (mkIniSection "A" 0 0) "x" false) "YES" eq_refl).
    right. right. left. reflexivity.
  - apply (proj1 (read_bool_semantics (HT:=ChainedLaws.hashtable) flags
                    (mkIniSection "A" 0 0) "y" true) "2" eq_refl).
    simpl. intros [Hx|[Hx|[Hx|[Hx|[]]]]]; discriminate Hx.
  - exact (proj2 (read_bool_semantics (HT:=ChainedLaws.hashtable) flags
                    (mkIniSection "A" 0 0) "z" true) eq_refl).
Defined.

(** C8: a handle that does not resolve should read as the default.
    With one [[A]] and one [[B]], each name has one record, of index 0,
    and the handles of index 1 resolve to nothing.  [getIterator] lets
    the index 1 through (it compares the index with [distance + 1], C2)
    and returns the iterator after the record of that name: whatever the
    iteration order, one of the two calls [read<int>(handle, "k", 42)]
    returns the number of the other section, not 42. *)
Theorem unresolved_handle_reads_a_value {HT : Hashtable} :
  load [] ["[A]"; "k=1"; "[B]"; "k=2"] = Ok two_sections /\
  occurrences two_sections "A" = 1%nat /\
  occurrences two_sections "B" = 1%nat /\
  (read Stream.extract_int None two_sections (mkIniSection "A" 1 0) "k" 42%Z
   = (Returns 2%Z, two_sections)
   \/
   read Stream.extract_int None two_sections (mkIniSection "B" 1 0) "k" 42%Z
   = (Returns 1%Z, two_sections)).
Proof.
  split; [reflexivity|]. split; [reflexivity|]. split; [reflexivity|].
  destruct two_sections_iteration as [Hit|Hit]; [left|right];
    unfold read, node_at, getIterator, equal_range, end_, deref;
    rewrite !Hit; reflexivity.
Qed.

(** C9: the accessors should answer a missing section or key with a
    default, [false] or a sentinel.  [read] and [keyExists] do, and
    [getKeyLineNum] does for a handle that does not resolve; for a handle
    that resolves and a key that is absent it dereferences
    [it->second.find(key)], which is [it->second.end()], where [keyExists]
    tests for it. *)
Theorem getKeyLineNum_absent_key {HT : Hashtable} :
  load [] ["[A]"; "k=1"] = Ok one_section /\
  sectionExists one_section (mkIniSection "A" 0 0) = true /\
  keyExists one_section (mkIniSection "A" 0 0) "missing" = false /\
  getKeyLineNum one_section (mkIniSection "A" 0 0) "k" = Returns 2 /\
  getKeyLineNum one_section (mkIniSection "B" 0 0) "k" = Returns 0 /\
  getKeyLineNum one_section (mkIniSection "A" 0 0) "missing" = Undefined.
Proof.
  split; [reflexivity|].
  unfold sectionExists, keyExists, getKeyLineNum, node_at, getIterator, equal_range,
    end_, deref.
  rewrite !one_section_iteration. repeat split.
Qed.

(** C10: behind a handle that resolves and a key that is present, the
    result of [read<int>] should be made from the stored text alone.  The
    line [k=<TAB>] is loaded with a tab as its value: [readWord] strips
    spaces only.  On that text the extraction skips the white space,
    meets the end of the stream and stores nothing, and [var] was
    declared without an initializer: [read] returns a variable that was
    never written, whatever the default. *)
Theorem read_returns_uninitialised {HT : Hashtable} :
  load [] ["[A]"; String "k" (String "=" tab)] = Ok tab_value /\
  Stream.extract_int tab = None /\
  sectionExists tab_value (mkIniSection "A" 0 0) = true /\
  keyExists tab_value (mkIniSection "A" 0 0) "k" = true /\
  forall defaultValue : Z,
    read Stream.extract_int None tab_value (mkIniSection "A" 0 0) "k" defaultValue
    = (Undefined, tab_value).
Proof.
  split; [reflexivity|]. split; [reflexivity|].
  assert (Hit : iteration tab_value = [0%nat]) by apply one_section_iteration.
  unfold sectionExists, keyExists, read, node_at, getIterator, equal_range, end_, deref.
  rewrite !Hit. repeat split.
Qed.

(** * Further properties of the code *)

(** ** Strings and [size_t] *)

Lemma sub_small a b : b <= a -> a < SizeT.modulus -> SizeT.sub a b = a - b.
Proof.
  intros Hba Ha. unfold SizeT.sub.
  rewrite (SizeTFacts.wrap_small (n:=b)) by lia.
  replace (a + SizeT.modulus - b) with (a - b + 1 * SizeT.modulus) by lia.
  unfold SizeT.wrap. rewrite N.Div0.mod_add. apply N.mod_small. lia.
Qed.

Lemma size_app a b : Str.size (a ++ b)%string = Str.size a + Str.size b.
Proof.
  unfold Str.size. induction a as [|c a IH]; simpl String.length; [reflexivity|].
  simpl in IH. lia.
Qed.

Lemma drop_app a b : Str.drop (String.length a) (a ++ b)%string = b.
Proof. induction a as [|c a IH]; simpl; auto. Qed.

Lemma take_app a b : Str.take (String.length a) (a ++ b)%string = a.
Proof.
  induction a as [|c a IH]; simpl; [now destruct b|]. now rewrite IH.
Qed.

Lemma take_all a : Str.take (String.length a) a = a.
Proof. induction a as [|c a IH]; simpl; [reflexivity|]. now rewrite IH. Qed.

Lemma index_from_app i c a b :
  occurs c a = false ->
  Str.index_from i c (a ++ b)%string = Str.index_from (i + Str.size a) c b.
Proof.
  revert i. induction a as [|x a IH]; intros i Hc; simpl.
  - f_equal. unfold Str.size. simpl. lia.
  - simpl in Hc. apply orb_false_iff in Hc. destruct Hc as [Hx Ha].
    rewrite Hx, IH by exact Ha. f_equal. rewrite StrFacts.size_cons. lia.
Qed.

Lemma last_index_from_none i c b :
  occurs c b = false -> Str.last_index_from i c b = None.
Proof.
  revert i. induction b as [|x b IH]; intros i Hc; simpl; [reflexivity|].
  simpl in Hc. apply orb_false_iff in Hc. destruct Hc as [Hx Hb].
  now rewrite IH, Hx.
Qed.

Lemma last_index_from_app i c a b :
  occurs c b = false ->
  Str.last_index_from i c (a ++ String c b)%string = Some (i + Str.size a).
Proof.
  intros Hc. revert i. induction a as [|x a IH]; intros i; simpl.
  - rewrite last_index_from_none by exact Hc. rewrite Ascii.eqb_refl.
    f_equal. unfold Str.size. simpl. lia.
  - rewrite IH. f_equal. rewrite StrFacts.size_cons. lia.
Qed.

Lemma find_first_of_app c a b :
  occurs c a = false ->
  Str.find_first_of (a ++ String c b)%string c = Str.size a.
Proof.
  intros Hc. unfold Str.find_first_of. rewrite index_from_app by exact Hc.
  simpl. now rewrite Ascii.eqb_refl.
Qed.

Lemma found_occurs line c :
  Str.size line < SizeT.npos -> found line c = occurs c line.
Proof.
  intros Hsize. unfold found, Str.find_first_of.
  assert (Hgen : forall i s, match Str.index_from i c s with
                             | Some _ => occurs c s = true
                             | None => occurs c s = false
                             end).
  { intros i s. revert i. induction s as [|x s IH]; intros i; simpl; [reflexivity|].
    destruct (Ascii.eqb x c); [reflexivity|]. apply IH. }
  specialize (Hgen 0 line).
  destruct (Str.index_from 0 c line) as [j|] eqn:E.
  - apply StrFacts.index_from_bound in E. rewrite Hgen.
    apply negb_true_iff, N.eqb_neq. lia.
  - rewrite Hgen, N.eqb_refl. reflexivity.
Qed.

(** ** The tokenizer *)

Lemma leading_spaces_drop s :
  Str.leading_spaces (Str.drop (N.to_nat (Str.leading_spaces s)) s) = 0.
Proof.
  induction s as [|a s IH]; [reflexivity|].
  cbn [Str.leading_spaces]. destruct (Ascii.eqb a " ") eqn:E.
  - replace (N.to_nat (1 + Str.leading_spaces s)) with (S (N.to_nat (Str.leading_spaces s)))
      by lia.
    exact IH.
  - simpl. now rewrite E.
Qed.

Lemma leading_spaces_take n s :
  Str.leading_spaces s = 0 -> Str.leading_spaces (Str.take n s) = 0.
Proof.
  destruct s as [|a s], n as [|n]; cbn [Str.take Str.leading_spaces]; auto.
  destruct (Ascii.eqb a " "); [lia|reflexivity].
Qed.

(** X1: [readWord] never throws, whatever the text; the word it returns
    never begins with a space, and it is empty exactly when the text holds
    nothing but spaces (the empty text included). *)
Theorem readWord_never_throws (line : string) :
  exists word,
    readWord line = Ok word /\
    Str.leading_spaces word = 0 /\
    (word = EmptyString <-> Str.only_spaces line).
Proof.
  assert (Hlead : forall w, readWord line = Ok w -> Str.leading_spaces w = 0).
  { intros w Hw. unfold readWord in Hw. destruct (Str.empty line).
    - now injection Hw as <-.
    - rewrite StrFacts.substr_ok in Hw by apply StrFacts.leading_spaces_le.
      injection Hw as <-. apply leading_spaces_take, leading_spaces_drop. }
  destruct (readWord_total line) as (word & Hw & Hempty).
  exists word. split; [exact Hw|]. split; [now apply Hlead|].
  now rewrite Hempty, StrFacts.all_spaces_iff.
Qed.

(** X2: on a text with spaces at one end only, which is what the halves
    of a line written [key = value] are, [readWord] returns the text
    without its leading and trailing spaces. *)
Theorem readWord_trims_one_sided (s : string) :
  Str.leading_spaces s = 0 \/ Str.leading_spaces (Str.rev s) = 0 ->
  readWord s = Ok (trim s).
Proof. apply readWord_one_sided. Qed.

Lemma readWord_trims_one_sided_witness :
  readWord "key " = Ok "key" /\ readWord "  value" = Ok "value".
Proof.
  split.
  - exact (readWord_trims_one_sided "key " (or_introl eq_refl)).
  - exact (readWord_trims_one_sided "  value" (or_intror eq_refl)).
Defined.

(** X3: a line that has a [[] with no [[] before it and, further on, a
    []] with no []] after it is a header, and the name [load] gives the
    section is the text between the two, as it stands: spaces, [=] and
    further brackets inside are kept. *)
Theorem header_name_between_brackets (pre name post : string) :
  let line := (pre ++ String "[" (name ++ String "]" post))%string in
  Str.size line < SizeT.npos ->
  occurs "[" pre = false ->
  occurs "]" post = false ->
  is_header line = true /\ header_name line = Ok name.
Proof.
  intros line Hsize Hpre Hpost.
  assert (Hlen : Str.size line = Str.size pre + 1 + Str.size name + 1 + Str.size post).
  { unfold line. rewrite size_app, StrFacts.size_cons, size_app, StrFacts.size_cons. lia. }
  assert (Hfirst : Str.find_first_of line "[" = Str.size pre)
    by (apply find_first_of_app; exact Hpre).
  assert (Hlast : Str.find_last_of line "]" = Str.size pre + 1 + Str.size name).
  { unfold Str.find_last_of, line.
    replace (pre ++ String "[" (name ++ String "]" post))%string
      with ((pre ++ String "[" name) ++ String "]" post)%string.
    - rewrite last_index_from_app by exact Hpost.
      rewrite size_app, StrFacts.size_cons. lia.
    - clear. induction pre as [|c pre IH]; simpl; [reflexivity|]. now rewrite IH. }
  split.
  - unfold is_header. rewrite !found_occurs by exact Hsize. unfold line.
    assert (Happ : forall c a b, occurs c (a ++ b)%string = occurs c a || occurs c b).
    { intros c a b. induction a as [|x a IH]; simpl; [reflexivity|].
      now rewrite IH, orb_assoc. }
    rewrite !Happ. simpl. rewrite !Happ. simpl.
    now rewrite !orb_true_r.
  - assert (Hmod : SizeT.npos < SizeT.modulus) by reflexivity.
    unfold header_name. rewrite Hfirst, Hlast.
    rewrite (sub_small (a:=Str.size pre + 1 + Str.size name) (b:=Str.size pre)) by lia.
    rewrite sub_small by lia.
    rewrite StrFacts.substr_ok by lia. f_equal.
    replace (N.min (Str.size pre + 1 + Str.size name - Str.size pre - 1)
               (Str.size line - (Str.size pre + 1)))
      with (Str.size name) by lia.
    unfold Str.size at 1 2. rewrite Nat2N.id.
    replace (N.to_nat (N.of_nat (String.length pre) + 1))
      with (S (String.length pre)) by lia.
    unfold line.
    assert (Hdrop : forall a c b, Str.drop (S (String.length a)) (a ++ String c b)%string = b).
    { intros a c b. induction a as [|x a IH]; simpl; auto. }
    now rewrite Hdrop, take_app.
Qed.

Lemma header_name_between_brackets_witness :
  is_header "x [a = [b]] y" = true /\ header_name "x [a = [b]] y" = Ok "a = [b]".
Proof.
  exact (header_name_between_brackets "x " "a = [b]" " y" eq_refl eq_refl eq_refl).
Defined.

(** X4: a line that is not a header is split at its first [=]: the key
    text is what stands before it and the value text is all that follows,
    further [=] included. *)
Theorem keyvalue_split_at_first_equals (k v : string) :
  let line := (k ++ String "=" v)%string in
  Str.size line < SizeT.npos ->
  occurs "=" k = false ->
  is_header line = false ->
  is_keyvalue line = true /\ key_text line = k /\ value_text line = v.
Proof.
  intros line Hsize Hk Hh.
  assert (Hlen : Str.size line = Str.size k + 1 + Str.size v)
    by (unfold line; rewrite size_app, StrFacts.size_cons; lia).
  assert (Hfirst : Str.find_first_of line "=" = Str.size k)
    by (apply find_first_of_app; exact Hk).
  assert (Hdrop : forall a c b, Str.drop (S (String.length a)) (a ++ String c b)%string = b).
  { intros a c b. induction a as [|x a IH]; simpl; auto. }
  split; [|split].
  - unfold is_keyvalue. rewrite Hh. cbn [negb andb].
    unfold found. rewrite Hfirst. apply negb_true_iff, N.eqb_neq. lia.
  - unfold key_text, key_half. rewrite Hfirst, StrFacts.substr_ok by lia.
    cbn [token Str.drop N.to_nat]. rewrite N.sub_0_r.
    replace (N.min (Str.size k) (Str.size line)) with (Str.size k) by lia.
    unfold Str.size. rewrite Nat2N.id. apply take_app.
  - unfold value_text, value_half. rewrite Hfirst, StrFacts.substr_ok by lia.
    cbn [token].
    replace (N.min SizeT.npos (Str.size line - (Str.size k + 1))) with (Str.size v) by lia.
    unfold Str.size. rewrite Nat2N.id.
    replace (N.to_nat (N.of_nat (String.length k) + 1)) with (S (String.length k)) by lia.
    unfold line. rewrite Hdrop. apply take_all.
Qed.

Lemma keyvalue_split_at_first_equals_witness :
  is_keyvalue "url = a=b" = true /\
  key_text "url = a=b" = "url " /\ value_text "url = a=b" = " a=b" /\
  load [] ["[S]"; "url = a=b"] =
  Ok [(mkElement "S" 1, [(mkElement "url" 2, "a=b")])].
Proof.
  destruct (keyvalue_split_at_first_equals "url " " a=b" eq_refl eq_refl eq_refl)
    as (Hkv & Hk & Hv).
  repeat split; assumption || reflexivity.
Defined.

(** ** The loader *)

Lemma current_map_app d x n :
  current_map (d ++ x) (List.length d + n) = current_map x n.
Proof.
  unfold current_map. rewrite nth_error_app2 by lia.
  now replace (List.length d + n - List.length d)%nat with n by lia.
Qed.

Lemma set_node_app d x n m :
  set_node (d ++ x) (List.length d + n) m = d ++ set_node x n m.
Proof.
  induction d as [|[e m0] d IH]; [reflexivity|]. cbn [app List.length Nat.add set_node].
  now rewrite IH.
Qed.

Lemma load_line_shift d st line :
  load_line (shift d st) line =
  match load_line st line with
  | Ok st' => Ok (shift d st')
  | Throw e => Throw e
  end.
Proof.
  destruct (is_header line) eqn:Hh.
  - rewrite !(load_line_header _ _ Hh). unfold shift. cbn [ld_data ld_lineNum ld_sectionIt].
    rewrite <- app_assoc, length_app. reflexivity.
  - destruct (found line "=") eqn:He.
    + assert (Hkv : is_keyvalue line = true) by (unfold is_keyvalue; now rewrite Hh, He).
      rewrite !(load_line_keyvalue _ _ Hkv). unfold shift at 1 2 3 4.
      cbn [ld_data ld_lineNum ld_sectionIt].
      destruct (Str.all_spaces (key_text line) || Str.all_spaces (value_text line));
        [reflexivity|].
      destruct (ld_sectionIt st) as [n|] eqn:Hsec; cbn [option_map]; [|reflexivity].
      rewrite !current_map_app.
      destruct (map_find (current_map (ld_data st) n) (key_of line)); [reflexivity|].
      unfold shift. cbn [ld_data ld_lineNum ld_sectionIt option_map].
      now rewrite set_node_app, Hsec, !current_map_app.
    + rewrite !(load_line_other _ _ Hh He). reflexivity.
Qed.

Lemma load_loop_shift d st lines :
  load_loop (shift d st) lines =
  (shift d (fst (load_loop st lines)), snd (load_loop st lines)).
Proof.
  revert st. induction lines as [|line rest IH]; intros st; [reflexivity|].
  cbn [load_loop]. rewrite load_line_shift.
  destruct (load_line st line) as [st'|e]; [apply IH|reflexivity].
Qed.

(** X5: [load] does not clear the container.  Called on an [IniFile]
    that already holds records, it leaves them as they are and adds the
    records of the file behind them, with line numbers counted from 1
    again; it throws on the same files, with the same message, as on an
    empty container.  Loading a file twice therefore doubles its
    sections. *)
Theorem load_appends (d : data) (lines : list string) :
  load_data d lines = d ++ load_data [] lines /\
  load d lines =
  match load [] lines with
  | Ok d' => Ok (d ++ d')
  | Throw e => Throw e
  end.
Proof.
  assert (Hinit : mkLoader d 1 None = shift d (mkLoader [] 1 None))
    by (unfold shift; cbn; now rewrite app_nil_r).
  assert (Hdata : load_data d lines = d ++ load_data [] lines).
  { unfold load_data. rewrite Hinit, load_loop_shift. reflexivity. }
  split; [exact Hdata|]. unfold load. rewrite Hdata, Hinit, load_loop_shift. cbn [snd].
  now destruct (snd (load_loop (mkLoader [] 1 None) lines)).
Qed.

Lemma map_find_none m key : map_find m key = None <-> ~ In key (names m).
Proof.
  induction m as [|[e v] m IH]; simpl; [tauto|].
  unfold element_eqb. cbn [_name element_of_string].
  destruct (String.eqb_spec (_name e) key) as [->|Hne].
  - split; [discriminate|]. intros Hn. elim Hn. now left.
  - rewrite IH. tauto.
Qed.

Lemma map_find_some m key e v :
  map_find m key = Some (e, v) -> In (e, v) m /\ _name e = key.
Proof.
  induction m as [|[e' v'] m IH]; simpl; [discriminate|].
  unfold element_eqb at 1. cbn [_name element_of_string].
  destruct (String.eqb_spec (_name e') key) as [Heq|Hne].
  - intros [= <- <-]. split; [now left|exact Heq].
  - intros Hf. destruct (IH Hf). split; [now right|assumption].
Qed.

Lemma names_app {V} (a b : list (element * V)) : names (a ++ b) = names a ++ names b.
Proof. unfold names. apply map_app. Qed.

Lemma keys_unique_set_node d n m :
  keys_unique d -> NoDup (names m) -> keys_unique (set_node d n m).
Proof.
  intros Hd Hm. apply set_node_Forall; [exact Hd|]. intros e _. exact Hm.
Qed.

Lemma NoDup_snoc {A} (l : list A) x : NoDup l -> ~ In x l -> NoDup (l ++ [x]).
Proof.
  intros Hl Hx. apply NoDup_app; [exact Hl|repeat constructor; intros []|].
  intros y Hy [<-|[]]. contradiction.
Qed.

Lemma keys_unique_node d n :
  keys_unique d -> NoDup (names (current_map d n)).
Proof.
  intros Hd. unfold current_map. destruct (nth_error d n) as [[e m]|] eqn:E; [|constructor].
  apply nth_error_In in E. unfold keys_unique in Hd. rewrite Forall_forall in Hd.
  exact (Hd _ E).
Qed.

Lemma load_line_keys_unique st line st' :
  load_line st line = Ok st' ->
  keys_unique (ld_data st) -> keys_unique (ld_data st').
Proof.
  intros Hstep Hu. destruct (is_header line) eqn:Hh.
  - rewrite (load_line_header _ _ Hh) in Hstep. injection Hstep as <-.
    cbn [ld_data]. apply Forall_app. split; [exact Hu|]. repeat constructor.
  - destruct (found line "=") eqn:He.
    + assert (Hkv : is_keyvalue line = true) by (unfold is_keyvalue; now rewrite Hh, He).
      rewrite (load_line_keyvalue _ _ Hkv) in Hstep.
      destruct (Str.all_spaces (key_text line) || Str.all_spaces (value_text line));
        [discriminate|].
      destruct (ld_sectionIt st) as [n|]; [|discriminate].
      destruct (map_find (current_map (ld_data st) n) (key_of line)) eqn:Hf;
        [discriminate|].
      injection Hstep as <-. cbn [ld_data].
      apply keys_unique_set_node; [exact Hu|].
      rewrite names_app. apply NoDup_snoc; [now apply keys_unique_node|].
      now apply map_find_none.
    + rewrite (load_line_other _ _ Hh He) in Hstep. now injection Hstep as <-.
Qed.

Lemma load_loop_keys_unique st lines :
  keys_unique (ld_data st) -> keys_unique (ld_data (fst (load_loop st lines))).
Proof.
  revert st. induction lines as [|line rest IH]; intros st Hu; [exact Hu|].
  cbn [load_loop]. destruct (load_line st line) as [st'|e] eqn:Hline; [|exact Hu].
  apply IH. now apply load_line_keys_unique with st line.
Qed.

Lemma names_map_assign m key v :
  names (map_assign m key v) =
  match map_find m key with
  | Some _ => names m
  | None => names m ++ [key]
  end.
Proof.
  induction m as [|[e w] m IH]; [reflexivity|]. cbn [map_assign map_find].
  destruct (element_eqb e (element_of_string key)); [reflexivity|].
  change (names ((e, w) :: map_assign m key v)) with (_name e :: names (map_assign m key v)).
  rewrite IH. now destruct (map_find m key).
Qed.

Lemma keys_perm {HT : Hashtable} (m : keymap) :
  Permutation (List.map (fun pair => _name (fst pair)) (select m (map_order (names m))))
    (names m).
Proof.
  unfold names at 2. apply Permutation_map, select_perm.
  unfold names. rewrite <- (length_map (fun p => _name (fst p)) m).
  apply map_order_perm.
Qed.

(** X6: no section ever holds two keys of one name.  [load] refuses a
    repeated key, [writeKeyValue] overwrites a key that is there and
    [writeSection] adds an empty section: each of them keeps the property,
    also a [load] that throws half-way, so it holds of every container
    built from the empty one; [keys] then never lists a name twice. *)
Theorem keys_stay_unique {HT : Hashtable} {T} (to_string : T -> string)
    (d : data) (lines : list string) (section : IniSection) (key : string)
    (value : T) (name : string) :
  keys_unique d ->
  keys_unique (load_data d lines) /\
  keys_unique (writeKeyValue to_string d section key value) /\
  keys_unique (snd (writeSection d name)) /\
  NoDup (keys d section).
Proof.
  intros Hu. split; [|split; [|split]].
  - unfold load_data. now apply load_loop_keys_unique.
  - unfold writeKeyValue, assign.
    destruct (node_at d (getIterator d section)) as [[n m]|] eqn:Hn; [|exact Hu].
    destruct (node_at_nth _ _ Hn) as [e He].
    apply keys_unique_set_node; [exact Hu|].
    assert (Hm : NoDup (names m)).
    { apply nth_error_In in He. unfold keys_unique in Hu. rewrite Forall_forall in Hu.
      exact (Hu _ He). }
    rewrite names_map_assign. destruct (map_find m key) eqn:Hf; [exact Hm|].
    apply NoDup_snoc; [exact Hm|now apply map_find_none].
  - unfold writeSection. cbn [multimap_insert snd]. apply Forall_app.
    split; [exact Hu|]. repeat constructor.
  - unfold keys. destruct (node_at d (getIterator d section)) as [[n m]|] eqn:Hn;
      [|constructor].
    destruct (node_at_nth _ _ Hn) as [e He].
    apply nth_error_In in He. unfold keys_unique in Hu. rewrite Forall_forall in Hu.
    apply (Permutation_NoDup (l:=names m)); [symmetry; apply keys_perm|exact (Hu _ He)].
Qed.

Lemma keys_stay_unique_witness :
  keys_unique (load_data [] ["[A]"; "k=1"; "j=2"; "k=3"]) /\
  load_data [] ["[A]"; "k=1"; "j=2"; "k=3"] =
  [(mkElement "A" 1, [(mkElement "k" 2, "1"); (mkElement "j" 3, "2")])].
Proof.
  split; [|reflexivity].
  exact (proj1 (keys_stay_unique (HT:=ChainedLaws.hashtable) Str.of_size_t
                  ["[A]"; "k=1"; "j=2"; "k=3"] (mkIniSection "A" 0 0) "k" 0 "B"
                  (Forall_nil _))).
Defined.

Lemma line_numbered_app seen line rest :
  N.of_nat (List.length seen) + 1 < SizeT.modulus ->
  line_numbered (rev seen ++ line :: rest) (N.of_nat (List.length seen) + 1) = Some line.
Proof.
  intros _. unfold line_numbered.
  replace (N.of_nat (List.length seen) + 1 =? 0) with false
    by (symmetry; apply N.eqb_neq; lia).
  replace (N.to_nat (N.of_nat (List.length seen) + 1) - 1)%nat
    with (List.length (rev seen) + 0)%nat by (rewrite length_rev; lia).
  now rewrite nth_error_app2, Nat.add_0_r, Nat.sub_diag by lia.
Qed.

Lemma load_line_from_lines lines seen st line rest st' :
  lines = rev seen ++ line :: rest ->
  N.of_nat (List.length seen) + 2 < SizeT.modulus ->
  loader_inv seen st ->
  Forall (from_lines lines) (ld_data st) ->
  load_line st line = Ok st' ->
  Forall (from_lines lines) (ld_data st').
Proof.
  intros Hl Hlen [Hnum Hit] Hall Hstep.
  assert (Hline : line_numbered lines (ld_lineNum st) = Some line)
    by (rewrite Hnum, Hl; apply line_numbered_app; lia).
  destruct (is_header line) eqn:Hh.
  - rewrite (load_line_header _ _ Hh) in Hstep. injection Hstep as <-.
    cbn [ld_data]. apply Forall_app. split; [exact Hall|].
    constructor; [|constructor]. split; [|constructor].
    exists line. now repeat split.
  - destruct (found line "=") eqn:He.
    + assert (Hkv : is_keyvalue line = true) by (unfold is_keyvalue; now rewrite Hh, He).
      rewrite (load_line_keyvalue _ _ Hkv) in Hstep.
      destruct (Str.all_spaces (key_text line) || Str.all_spaces (value_text line));
        [discriminate|].
      destruct (ld_sectionIt st) as [n|]; [|discriminate].
      destruct (map_find (current_map (ld_data st) n) (key_of line)); [discriminate|].
      injection Hstep as <-. cbn [ld_data].
      apply set_node_Forall; [exact Hall|]. intros e He'.
      apply nth_error_In in He'. rewrite Forall_forall in Hall.
      destruct (Hall _ He') as [Hhead Hkeys]. split; [exact Hhead|].
      cbn [snd] in *. apply Forall_app. split; [exact Hkeys|].
      constructor; [|constructor]. exists line. now repeat split.
    + rewrite (load_line_other _ _ Hh He) in Hstep. now injection Hstep as <-.
Qed.

Lemma load_loop_from_lines lines rest seen st :
  lines = rev seen ++ rest ->
  N.of_nat (List.length lines) < SizeT.npos ->
  loader_inv seen st ->
  Forall (from_lines lines) (ld_data st) ->
  Forall (from_lines lines) (ld_data (fst (load_loop st rest))).
Proof.
  revert seen st. induction rest as [|line rest IH]; intros seen st Hl Hlen Hinv Hall.
  - exact Hall.
  - cbn [load_loop]. destruct (load_line st line) as [st'|e] eqn:Hline; [|exact Hall].
    assert (Hstep : N.of_nat (List.length seen) + 2 < SizeT.modulus).
    { rewrite Hl, length_app, length_rev in Hlen. cbn [List.length] in Hlen.
      rewrite <- SizeTFacts.npos_succ. lia. }
    apply (IH (line :: seen) st').
    + cbn [rev]. now rewrite <- app_assoc.
    + exact Hlen.
    + now apply loader_inv_step with st.
    + now apply load_line_from_lines with seen st line rest.
Qed.

(** X7: the line numbers a loaded container carries are those of the
    file.  Every record stands for the header line with its number
    (counted from 1) and name, every key for the key/value line with its
    number, key and value; so [getKeyLineNum], for a key that exists,
    returns the number of the line that line [read]s the value from. *)
Theorem loaded_line_numbers {HT : Hashtable} (lines : list string) (d : data)
    (section : IniSection) (key : string) :
  N.of_nat (List.length lines) < SizeT.npos ->
  load [] lines = Ok d ->
  Forall (from_lines lines) d /\
  (keyExists d section key = true ->
   exists n line,
     getKeyLineNum d section key = Returns n /\
     line_numbered lines n = Some line /\
     is_keyvalue line = true /\
     key_of line = key /\
     stored d section key = Some (value_of line)).
Proof.
  intros Hlen Hload.
  assert (Hall : Forall (from_lines lines) d).
  { apply load_ok in Hload. subst d. unfold load_data.
    apply (@load_loop_from_lines lines lines [] (mkLoader [] 1 None));
      [reflexivity|exact Hlen|apply loader_inv_init|constructor]. }
  split; [exact Hall|].
  unfold keyExists, getKeyLineNum, stored.
  destruct (node_at d (getIterator d section)) as [[n m]|] eqn:Hn; [|discriminate].
  destruct (map_find m key) as [[e v]|] eqn:Hf; [|discriminate].
  intros _. destruct (node_at_nth _ _ Hn) as [e0 He0].
  apply nth_error_In in He0. rewrite Forall_forall in Hall.
  destruct (Hall _ He0) as [_ Hkeys]. cbn [snd] in Hkeys.
  destruct (map_find_some _ _ Hf) as [Hin Hname].
  rewrite Forall_forall in Hkeys.
  destruct (Hkeys _ Hin) as (line & Hline & Hkv & Hk & Hv).
  exists (_lineNum e), line. cbn [fst snd option_map] in *.
  repeat split; auto; congruence.
Qed.

Lemma loaded_line_numbers_witness :
  exists line,
    getKeyLineNum (HT:=ChainedLaws.hashtable) flags (mkIniSection "A" 0 0) "y" = Returns 3 /\
    line_numbered ["[A]"; "x = YES"; "y = 2"] 3 = Some line /\
    key_of line = "y" /\
    stored (HT:=ChainedLaws.hashtable) flags (mkIniSection "A" 0 0) "y" = Some (value_of line).
Proof.
  destruct (proj2 (loaded_line_numbers (HT:=ChainedLaws.hashtable)
                     ["[A]"; "x = YES"; "y = 2"] (d:=flags) (mkIniSection "A" 0 0) "y"
                     eq_refl eq_refl) eq_refl)
    as (n & line & Hget & Hline & _ & Hk & Hs).
  exists line. assert (Hn : n = 3) by (now injection Hget). subst n.
  now repeat split.
Defined.

Lemma offending_filter seen line :
  offending (filter significant seen) line = offending seen line.
Proof.
  assert (Hhead : existsb is_header (filter significant seen) = existsb is_header seen).
  { induction seen as [|l seen IH]; [reflexivity|]. cbn [filter existsb].
    unfold significant at 1. destruct (is_header l) eqn:Hh; cbn [orb existsb];
      [now rewrite Hh|].
    destruct (is_keyvalue l); cbn [existsb]; rewrite ?Hh; exact IH. }
  assert (Hkey : forall key,
             key_in_section (filter significant seen) key = key_in_section seen key).
  { clear Hhead. intros key.
    induction seen as [|l seen IH]; [reflexivity|]. cbn [filter key_in_section].
    unfold significant at 1. destruct (is_header l) eqn:Hh; cbn [orb key_in_section];
      [now rewrite Hh|].
    destruct (is_keyvalue l) eqn:Hkv; cbn [key_in_section andb orb]; rewrite ?Hh, ?Hkv;
      cbn [andb orb]; now rewrite IH. }
  unfold offending. now rewrite Hhead, Hkey.
Qed.

Lemma first_failure_filter rest seen seen' :
  first_failure_from seen rest = None ->
  filter significant seen' = filter significant seen ->
  first_failure_from seen' (filter significant rest) = None.
Proof.
  revert seen seen'. induction rest as [|line rest IH]; intros seen seen' Hnone Hsame;
    [reflexivity|].
  cbn [first_failure_from] in Hnone.
  destruct (offending seen line) eqn:Hoff; [discriminate|].
  cbn [filter]. destruct (significant line) eqn:Hsig.
  - cbn [first_failure_from].
    rewrite <- (offending_filter seen'), Hsame, offending_filter, Hoff.
    apply (IH (line :: seen)); [exact Hnone|]. cbn [filter]. now rewrite Hsig, Hsame.
  - apply (IH (line :: seen)); [exact Hnone|]. cbn [filter]. now rewrite Hsig.
Qed.

Lemma parse_filter lines : parse (filter significant lines) = parse lines.
Proof.
  unfold parse. generalize (@nil (string * list (string * string))).
  induction lines as [|line rest IH]; intros doc; [reflexivity|].
  cbn [filter fold_left]. destruct (significant line) eqn:Hsig.
  - cbn [fold_left]. apply IH.
  - rewrite IH. f_equal. unfold read_line. unfold significant in Hsig.
    apply orb_false_iff in Hsig. destruct Hsig as [-> ->]. reflexivity.
Qed.

Lemma load_accepts lines :
  N.of_nat (List.length lines) < SizeT.npos ->
  (exists d, load [] lines = Ok d) <-> first_failure lines = None.
Proof.
  intros Hlen.
  pose proof (@load_loop_failure [] (mkLoader [] 1 None) lines Hlen (loader_inv_init []))
    as Hloop.
  unfold first_failure, load.
  destruct (first_failure_from [] lines) as [[kind i]|].
  - destruct Hloop as [-> _]. cbn [snd]. split; [intros [d Hd]|]; discriminate.
  - destruct Hloop as [-> _]. split; [reflexivity|]. intros _. eexists. reflexivity.
Qed.

Lemma offending_significant seen line kind :
  offending seen line = Some kind -> significant line = true.
Proof.
  unfold offending, significant. destruct (is_keyvalue line); [|discriminate].
  intros _. apply orb_true_r.
Qed.

Lemma first_failure_filter_some rest seen seen' kind i :
  first_failure_from seen rest = Some (kind, i) ->
  filter significant seen' = filter significant seen ->
  first_failure_from seen' (filter significant rest) =
  Some (kind,
        (List.length seen'
         + List.length (filter significant (firstn (i - List.length seen) rest)))%nat).
Proof.
  revert seen seen'. induction rest as [|line rest IH]; intros seen seen' Hsome Hsame;
    [discriminate|].
  cbn [first_failure_from] in Hsome.
  assert (Hoff' : offending seen' line = offending seen line)
    by now rewrite <- (offending_filter seen'), Hsame, offending_filter.
  destruct (offending seen line) as [kind'|] eqn:Hoff.
  - injection Hsome as -> <-. rewrite Nat.sub_diag. cbn [firstn filter List.length].
    rewrite (offending_significant _ _ Hoff). cbn [first_failure_from].
    rewrite Hoff'. f_equal. f_equal. lia.
  - pose proof (first_failure_from_rank _ _ Hsome) as Hrank. cbn [List.length] in Hrank.
    replace (i - List.length seen)%nat with (S (i - S (List.length seen))) by lia.
    cbn [firstn filter]. destruct (significant line) eqn:Hsig.
    + cbn [first_failure_from List.length]. rewrite Hoff'.
      rewrite (IH (line :: seen) (line :: seen') Hsome)
        by (cbn [filter]; now rewrite Hsig, Hsame).
      cbn [List.length]. f_equal. f_equal. lia.
    + rewrite (IH (line :: seen) seen' Hsome) by (cbn [filter]; now rewrite Hsig).
      reflexivity.
Qed.

Lemma load_rejects lines kind i :
  N.of_nat (List.length lines) < SizeT.npos ->
  first_failure lines = Some (kind, i) ->
  load [] lines = Throw (runtime_error (message kind (N.of_nat i + 1))).
Proof.
  intros Hlen Hfail.
  pose proof (@load_loop_failure [] (mkLoader [] 1 None) lines Hlen (loader_inv_init []))
    as Hloop.
  unfold first_failure in Hfail. rewrite Hfail in Hloop. destruct Hloop as [Hrun _].
  unfold load. now rewrite Hrun.
Qed.

(** X8: the lines that are neither headers nor key/value lines (empty
    lines, free text) have no effect but on the line numbers.  A file that
    loads still loads once they are taken out, the container holds the
    same sections, keys and values, and [save] writes the same text.  A
    file on which [load] throws still makes it throw once they are taken
    out, at the same line and for the same reason; the message carries the
    number that line then has. *)
Theorem load_skips_other_lines {HT : Hashtable} {ST : Sorting} (lines : list string) :
  N.of_nat (List.length lines) < SizeT.npos ->
  (forall d,
      load [] lines = Ok d ->
      exists d',
        load [] (filter significant lines) = Ok d' /\
        content d' = content d /\
        save d' = save d) /\
  (forall e,
      load [] lines = Throw e ->
      exists kind i,
        e = runtime_error (message kind (N.of_nat i + 1)) /\
        load [] (filter significant lines) =
        Throw (runtime_error
                 (message kind
                    (N.of_nat (List.length (filter significant (firstn i lines))) + 1)))).
Proof.
  intros Hlen.
  assert (Hlen' : N.of_nat (List.length (filter significant lines)) < SizeT.npos).
  { pose proof (filter_length_le significant lines). lia. }
  split.
  - intros d Hload.
    assert (Hnone : first_failure lines = None)
      by (apply load_accepts; [exact Hlen|now exists d]).
    assert (Hnone' : first_failure (filter significant lines) = None)
      by (apply (@first_failure_filter lines [] []); auto).
    apply load_accepts in Hnone'; [|exact Hlen']. destruct Hnone' as [d' Hd'].
    exists d'. split; [exact Hd'|].
    split.
    + now rewrite (load_content _ Hd'), (load_content _ Hload), parse_filter.
    + rewrite (save_load_renders_parse _ Hlen' Hd'), (save_load_renders_parse _ Hlen Hload).
      now rewrite parse_filter.
  - intros e Hload.
    destruct (first_failure lines) as [[kind i]|] eqn:Hfail.
    + exists kind, i. rewrite (@load_rejects _ _ _ Hlen Hfail) in Hload.
      split; [now injection Hload|].
      apply load_rejects; [exact Hlen'|].
      unfold first_failure in *.
      rewrite (first_failure_filter_some lines [] [] Hfail eq_refl).
      cbn [List.length]. now rewrite Nat.sub_0_r.
    + apply load_accepts in Hfail; [|exact Hlen]. destruct Hfail as [d Hd].
      congruence.
Qed.

Lemma load_skips_other_lines_witness :
  (exists d',
      load [] ["[A]"; "k = 1"] = Ok d' /\
      content d' = content [(mkElement "A" 2, [(mkElement "k" 4, "1")])]) /\
  load [] ["; settings"; "[A]"; ""; "k = 1"; "k = 2"] =
  Throw (runtime_error "duplicate key in line: 5") /\
  exists kind i,
    runtime_error "duplicate key in line: 5" =
    runtime_error (message kind (N.of_nat i + 1)) /\
    load [] ["[A]"; "k = 1"; "k = 2"] =
    Throw (runtime_error
             (message kind
                (N.of_nat
                   (List.length
                      (filter significant
                         (firstn i ["; settings"; "[A]"; ""; "k = 1"; "k = 2"]))) + 1))).
Proof.
  split; [|split; [reflexivity|]].
  - destruct (proj1 (load_skips_other_lines (HT:=ChainedLaws.hashtable)
                       (ST:=ChainedLaws.sort) ["; settings"; "[A]"; ""; "k = 1"] eq_refl)
                _ eq_refl)
      as (d' & Hload & Hcontent & _).
    exists d'. split; [exact Hload|exact Hcontent].
  - exact (proj2 (load_skips_other_lines (HT:=ChainedLaws.hashtable)
                    (ST:=ChainedLaws.sort) ["; settings"; "[A]"; ""; "k = 1"; "k = 2"]
                    eq_refl)
             _ eq_refl).
Defined.

(** X9: what [save] writes after a [load] that returned: header by
    header, in the order of the file, the line [[name]], then a line
    [key = value] for each key/value line up to the next header, with the
    key and value [readWord] made of the two sides of the [=], then an
    empty line.  This holds for every iteration order of the containers
    and every [std::sort]: loaded line numbers are all different. *)
Theorem save_after_load {HT : Hashtable} {ST : Sorting} (lines : list string) (d : data) :
  N.of_nat (List.length lines) < SizeT.npos ->
  load [] lines = Ok d ->
  content d = parse lines /\ save d = render (parse lines).
Proof.
  intros Hlen Hload. split; [now apply load_content|now apply save_load_renders_parse].
Qed.

Lemma save_after_load_witness :
  getlines (save (HT:=ChainedLaws.hashtable) (ST:=ChainedLaws.sort) two_sections) =
  ["[A]"; "k = 1"; ""; "[B]"; "k = 2"; ""].
Proof.
  rewrite (proj2 (save_after_load (HT:=ChainedLaws.hashtable) (ST:=ChainedLaws.sort)
                    ["[A]"; "k=1"; "[B]"; "k=2"] (d:=two_sections) eq_refl eq_refl)).
  reflexivity.
Defined.

(** ** Handles *)

Lemma node_equals_name {HT : Hashtable} d key key' n :
  _name key = _name key' -> node_equals d key n = node_equals d key' n.
Proof.
  intros Hk. unfold node_equals. destruct (nth_error d n) as [[e m]|]; [|reflexivity].
  unfold element_eqb. now rewrite Hk.
Qed.

Lemma iteration_NoDup {HT : Hashtable} d : NoDup (iteration d).
Proof.
  apply (Permutation_NoDup (l:=seq 0 (List.length (names d)))).
  - symmetry. apply multimap_order_perm.
  - apply seq_NoDup.
Qed.

Lemma end_length {HT : Hashtable} d : end_ d = List.length d.
Proof.
  unfold end_, iteration.
  rewrite (Permutation_length (multimap_order_perm (names d))), length_seq.
  unfold names. apply length_map.
Qed.

Lemma deref_node {HT : Hashtable} d it :
  (it < end_ d)%nat ->
  exists n e m, deref d it = Some n /\ nth_error d n = Some (e, m).
Proof.
  intros Hit. unfold deref, end_ in *.
  destruct (nth_error (iteration d) it) as [n|] eqn:En;
    [|apply nth_error_None in En; lia].
  pose proof (iteration_in_range d n (nth_error_In _ _ En)) as Hn.
  destruct (nth_error d n) as [[e m]|] eqn:Ed; [|apply nth_error_None in Ed; lia].
  now exists n, e, m.
Qed.

(** The handle [section] seen from the records of its name, [grp], as
    they lie in the iteration sequence. *)
Lemma getIterator_in_group {HT : Hashtable} d section pre grp post :
  iteration d = pre ++ grp ++ post ->
  (forall n, In n grp -> node_equals d (element_of_section section) n = true) ->
  (forall n, In n (pre ++ post) -> node_equals d (element_of_section section) n = false) ->
  (N.to_nat (getIndex section) < List.length grp)%nat ->
  getIterator d section = (List.length pre + N.to_nat (getIndex section))%nat /\
  deref d (getIterator d section) = nth_error grp (N.to_nat (getIndex section)).
Proof.
  intros Hit Hg Hp Hidx.
  assert (Hget : getIterator d section
                 = (List.length pre + N.to_nat (getIndex section))%nat).
  { rewrite (getIterator_split _ _ _ _ _ Hit Hg Hp).
    replace (Nat.eqb (List.length grp) 0) with false by (symmetry; apply Nat.eqb_neq; lia).
    replace (N.of_nat (List.length grp) + 1 <=? getIndex section) with false
      by (symmetry; apply N.leb_gt; lia).
    reflexivity. }
  split; [exact Hget|]. rewrite Hget. unfold deref. rewrite Hit.
  rewrite nth_error_app2 by lia.
  replace (List.length pre + N.to_nat (getIndex section) - List.length pre)%nat
    with (N.to_nat (getIndex section)) by lia.
  now rewrite nth_error_app1 by lia.
Qed.

Lemma getIterator_le_end {HT : Hashtable} d section : (getIterator d section <= end_ d)%nat.
Proof.
  destruct (iteration_split d (element_of_section section))
    as (pre & grp & post & Hit & Hg & Hp & _).
  rewrite (getIterator_split _ _ _ _ _ Hit Hg Hp).
  destruct (Nat.eqb (List.length grp) 0 || (N.of_nat (List.length grp) + 1 <=? getIndex section))
    eqn:E; [lia|].
  apply orb_false_iff in E. destruct E as [_ E]. apply N.leb_gt in E.
  unfold end_. rewrite Hit, !length_app. lia.
Qed.

Lemma sectionExists_node {HT : Hashtable} d section :
  sectionExists d section = true <->
  exists n e m,
    node_at d (getIterator d section) = Some (n, m) /\ nth_error d n = Some (e, m).
Proof.
  unfold sectionExists, node_at.
  destruct (Nat.eqb (getIterator d section) (end_ d)) eqn:E.
  - split; [discriminate|]. intros (n & e & m & Habs & _). discriminate.
  - apply Nat.eqb_neq in E. pose proof (getIterator_le_end d section) as Hle.
    destruct (@deref_node _ d (getIterator d section)) as (n & e & m & Hd & Hn); [lia|].
    rewrite Hd, Hn. split; [|reflexivity]. intros _. now exists n, e, m.
Qed.

(** X10: with [k] records of one name, every index below [k] resolves
    to a record of that name, and two different indices below [k] resolve
    to two different records: each of the [k] records is addressed by
    exactly one of the indices [0 .. k-1]. *)
Theorem index_below_count_resolves {HT : Hashtable} (d : data) (s1 s2 : IniSection) :
  sectionName s1 = sectionName s2 ->
  getIndex s1 < N.of_nat (occurrences d (sectionName s1)) ->
  getIndex s2 < N.of_nat (occurrences d (sectionName s1)) ->
  exists n1 e1 m1 n2 e2 m2,
    node_at d (getIterator d s1) = Some (n1, m1) /\
    nth_error d n1 = Some (e1, m1) /\ _name e1 = sectionName s1 /\
    node_at d (getIterator d s2) = Some (n2, m2) /\
    nth_error d n2 = Some (e2, m2) /\ _name e2 = sectionName s1 /\
    (getIndex s1 <> getIndex s2 -> n1 <> n2).
Proof.
  intros Hname H1 H2.
  destruct (getIterator_resolves d s1 H1) as (n1 & e1 & m1 & Hn1 & He1 & Hk1).
  rewrite Hname in H2.
  destruct (getIterator_resolves d s2 H2) as (n2 & e2 & m2 & Hn2 & He2 & Hk2).
  exists n1, e1, m1, n2, e2, m2. rewrite <- Hname in Hk2. repeat split; auto.
  intros Hne Heq. subst n2.
  destruct (iteration_split d (element_of_section s1))
    as (pre & grp & post & Hit & Hg & Hp & Hocc).
  cbn [element_of_section _name] in Hocc.
  assert (Hsame : forall n, node_equals d (element_of_section s2) n
                            = node_equals d (element_of_section s1) n)
    by (intros n; apply node_equals_name; cbn; now rewrite Hname).
  destruct (getIterator_in_group d s1 pre grp post Hit Hg Hp) as [_ Hd1]; [lia|].
  destruct (getIterator_in_group d s2 pre grp post Hit) as [_ Hd2].
  { intros n Hn. rewrite Hsame. now apply Hg. }
  { intros n Hn. rewrite Hsame. now apply Hp. }
  { rewrite <- Hname in H2. lia. }
  assert (Hderef : forall s n m, node_at d (getIterator d s) = Some (n, m) ->
                                 deref d (getIterator d s) = Some n).
  { intros s n m. unfold node_at. destruct (Nat.eqb _ _); [discriminate|].
    destruct (deref d (getIterator d s)) as [n'|]; [|discriminate].
    destruct (nth_error d n') as [[e m']|]; [|discriminate]. now intros [= -> _]. }
  rewrite (Hderef _ _ _ Hn1) in Hd1. rewrite (Hderef _ _ _ Hn2) in Hd2.
  assert (Hnd : NoDup grp).
  { pose proof (iteration_NoDup d) as Hnd. rewrite Hit in Hnd.
    apply NoDup_app_remove_l in Hnd. now apply NoDup_app_remove_r in Hnd. }
  apply Hne. apply N2Nat.inj.
  apply (proj1 (NoDup_nth_error grp) Hnd); [lia|congruence].
Qed.

Lemma index_below_count_resolves_witness :
  load [] ["[A]"; "k=1"; "[B]"; "[A]"; "k=2"] = Ok twice_A /\
  exists n1 n2 m1 m2,
    node_at (HT:=ChainedLaws.hashtable) twice_A
      (getIterator (HT:=ChainedLaws.hashtable) twice_A (mkIniSection "A" 0 0)) = Some (n1, m1) /\
    node_at (HT:=ChainedLaws.hashtable) twice_A
      (getIterator (HT:=ChainedLaws.hashtable) twice_A (mkIniSection "A" 1 0)) = Some (n2, m2) /\
    n1 <> n2.
Proof.
  split; [reflexivity|].
  destruct (index_below_count_resolves (HT:=ChainedLaws.hashtable) twice_A
              (mkIniSection "A" 0 0) (mkIniSection "A" 1 0) eq_refl eq_refl eq_refl)
    as (n1 & e1 & m1 & n2 & e2 & m2 & H1 & _ & _ & H2 & _ & _ & Hne).
  exists n1, n2, m1, m2. repeat split; auto. apply Hne. discriminate.
Defined.

(** X11: a handle whose name no record has, or whose index is above the
    number of records of its name, addresses nothing: [sectionExists] and
    [keyExists] are [false], [keys] is empty, [getKeyLineNum] is 0,
    [read] gives the default and [writeKeyValue] leaves the container as
    it is, without creating the section. *)
Theorem index_above_count_fails {HT : Hashtable} {T} (extract : string -> option T)
    (to_string : T -> string) (declared : option T)
    (d : data) (section : IniSection) (key : string) (value defaultValue : T) :
  occurrences d (sectionName section) = O \/
  N.of_nat (occurrences d (sectionName section)) < getIndex section ->
  sectionExists d section = false /\
  keyExists d section key = false /\
  keys d section = [] /\
  getKeyLineNum d section key = Returns 0 /\
  read extract declared d section key defaultValue = (Returns defaultValue, d) /\
  writeKeyValue to_string d section key value = d.
Proof.
  intros Hout.
  assert (Hend : getIterator d section = end_ d)
    by (destruct Hout; [now apply getIterator_unknown|now apply getIterator_beyond]).
  unfold sectionExists, keyExists, keys, getKeyLineNum, read, writeKeyValue, assign, node_at.
  rewrite Hend, Nat.eqb_refl. repeat split.
Qed.

Lemma index_above_count_fails_witness :
  sectionExists (HT:=ChainedLaws.hashtable) twice_A (mkIniSection "A" 3 0) = false /\
  sectionExists (HT:=ChainedLaws.hashtable) twice_A (mkIniSection "C" 0 0) = false /\
  writeKeyValue (HT:=ChainedLaws.hashtable) Str.of_size_t twice_A
    (mkIniSection "C" 0 0) "k" 5 = twice_A.
Proof.
  split; [|split].
  - exact (proj1 (index_above_count_fails (HT:=ChainedLaws.hashtable) Stream.extract_int
                    Stream.to_string_int None twice_A (mkIniSection "A" 3 0) "k" 0%Z 0%Z
                    (or_intror eq_refl))).
  - exact (proj1 (index_above_count_fails (HT:=ChainedLaws.hashtable) Stream.extract_int
                    Stream.to_string_int None twice_A (mkIniSection "C" 0 0) "k" 0%Z 0%Z
                    (or_introl eq_refl))).
  - destruct (index_above_count_fails (HT:=ChainedLaws.hashtable)
                (fun _ : string => @None N) Str.of_size_t None twice_A
                (mkIniSection "C" 0 0) "k" 5 0 (or_introl eq_refl))
      as (_ & _ & _ & _ & _ & Hw).
    exact Hw.
Defined.

(** X12: [sectionCount] is the number of records whose name is the
    handle's, whatever the handle's index and line number, and whatever
    the iteration order; for an unknown name it is 0. *)
Theorem sectionCount_counts_records {HT : Hashtable} (d : data) (section : IniSection) :
  sectionCount d section = N.of_nat (occurrences d (sectionName section)) /\
  sectionCount d section =
  sectionCount d (mkIniSection (sectionName section) 0 0).
Proof.
  split; [apply sectionCount_occurrences|].
  now rewrite !sectionCount_occurrences.
Qed.

(** ** Writing *)

Lemma names_set_node d n m : names (set_node d n m) = names d.
Proof.
  unfold names. revert n. induction d as [|[e m0] d IH]; intros [|n]; simpl; auto.
  now rewrite IH.
Qed.

Lemma fst_set_node d n m : List.map fst (set_node d n m) = List.map fst d.
Proof.
  revert n. induction d as [|[e m0] d IH]; intros [|n]; simpl; auto.
  now rewrite IH.
Qed.

Lemma nth_error_set_node d n m i :
  nth_error (set_node d n m) i =
  match nth_error d i with
  | Some (e, m0) => Some (e, if Nat.eqb i n then m else m0)
  | None => None
  end.
Proof.
  revert n i. induction d as [|[e m0] d IH]; intros n i.
  - destruct n, i; reflexivity.
  - destruct n as [|n], i as [|i]; cbn [set_node nth_error Nat.eqb]; try reflexivity.
    + now destruct (nth_error d i) as [[e' m']|].
    + apply IH.
Qed.

Lemma first_from_ext p q i l :
  (forall n, p n = q n) -> first_from p i l = first_from q i l.
Proof.
  intros Hpq. revert i. induction l as [|n l IH]; intros i; simpl; [reflexivity|].
  rewrite Hpq. now rewrite IH.
Qed.

Lemma run_length_ext p q l : (forall n, p n = q n) -> run_length p l = run_length q l.
Proof.
  intros Hpq. induction l as [|n l IH]; simpl; [reflexivity|].
  rewrite Hpq. now rewrite IH.
Qed.

Lemma map_find_assign m key v :
  map_find (map_assign m key v) key =
  Some (match map_find m key with
        | Some (e, _) => e
        | None => element_of_string key
        end, v).
Proof.
  induction m as [|[e w] m IH]; cbn [map_assign map_find].
  - unfold element_eqb. now rewrite String.eqb_refl.
  - destruct (element_eqb e (element_of_string key)) eqn:E; cbn [map_find]; rewrite E;
      [reflexivity|exact IH].
Qed.

Lemma map_find_assign_other m key v key' :
  key' <> key -> map_find (map_assign m key v) key' = map_find m key'.
Proof.
  intros Hne. induction m as [|[e w] m IH]; cbn [map_assign map_find].
  - unfold element_eqb. cbn [_name element_of_string].
    destruct (String.eqb_spec key key'); [congruence|reflexivity].
  - destruct (element_eqb e (element_of_string key)) eqn:E; cbn [map_find].
    + unfold element_eqb in *. cbn [_name element_of_string] in *.
      apply String.eqb_eq in E.
      destruct (String.eqb_spec (_name e) key'); [congruence|reflexivity].
    + now rewrite IH.
Qed.

Lemma fst_map_assign m key v :
  map_find m key <> None -> List.map fst (map_assign m key v) = List.map fst m.
Proof.
  induction m as [|[e w] m IH]; cbn [map_assign map_find]; [congruence|].
  destruct (element_eqb e (element_of_string key)); [reflexivity|].
  intros Hf. cbn [List.map fst]. now rewrite IH.
Qed.

Section WriteFacts.

Context {HT : Hashtable}.

Lemma iteration_set_node d n m : iteration (set_node d n m) = iteration d.
Proof. unfold iteration. now rewrite names_set_node. Qed.

Lemma node_equals_set_node d n m key i :
  node_equals (set_node d n m) key i = node_equals d key i.
Proof.
  unfold node_equals. rewrite nth_error_set_node.
  now destruct (nth_error d i) as [[e m0]|].
Qed.

Lemma equal_range_set_node d n m key :
  equal_range (set_node d n m) key = equal_range d key.
Proof.
  unfold equal_range, end_. rewrite iteration_set_node.
  rewrite (first_from_ext _ (node_equals d key))
    by (intro; apply node_equals_set_node).
  destruct (first_from (node_equals d key) 0 (iteration d)); [|reflexivity].
  now rewrite (run_length_ext _ (node_equals d key))
    by (intro; apply node_equals_set_node).
Qed.

Lemma getIterator_set_node d n m section :
  getIterator (set_node d n m) section = getIterator d section.
Proof. unfold getIterator, end_. now rewrite equal_range_set_node, iteration_set_node. Qed.

Lemma node_at_set_node d n m it :
  node_at (set_node d n m) it =
  match node_at d it with
  | Some (n', m0) => Some (n', if Nat.eqb n' n then m else m0)
  | None => None
  end.
Proof.
  unfold node_at, end_, deref. rewrite iteration_set_node.
  destruct (Nat.eqb it (List.length (iteration d))); [reflexivity|].
  destruct (nth_error (iteration d) it) as [n'|]; [|reflexivity].
  rewrite nth_error_set_node. now destruct (nth_error d n') as [[e m0]|].
Qed.

(** Two iterators on the same node are the same iterator. *)
Lemma node_at_inj d it it' n m m' :
  node_at d it = Some (n, m) -> node_at d it' = Some (n, m') -> it = it'.
Proof.
  assert (Hd : forall i k, node_at d i = Some (n, k) ->
                           nth_error (iteration d) i = Some n).
  { intros i k. unfold node_at, deref. destruct (Nat.eqb i (end_ d)); [discriminate|].
    destruct (nth_error (iteration d) i) as [n'|]; [|discriminate].
    destruct (nth_error d n') as [[e k']|]; [|discriminate]. now intros [= -> _]. }
  intros H1 H2. pose proof (Hd _ _ H1) as E1. pose proof (Hd _ _ H2) as E2.
  apply (proj1 (NoDup_nth_error (iteration d)) (iteration_NoDup d)); [|congruence].
  apply nth_error_Some. congruence.
Qed.

(** The record behind an existing section after [it->second[key] = text]. *)
Lemma assign_node d section key text :
  sectionExists d section = true ->
  exists n e m,
    node_at d (getIterator d section) = Some (n, m) /\
    nth_error d n = Some (e, m) /\
    assign d section key text = set_node d n (map_assign m key text) /\
    node_at (assign d section key text) (getIterator (assign d section key text) section)
    = Some (n, map_assign m key text).
Proof.
  intros Hs. apply sectionExists_node in Hs. destruct Hs as (n & e & m & Hn & He).
  exists n, e, m. unfold assign. rewrite Hn.
  rewrite getIterator_set_node, node_at_set_node, Hn, Nat.eqb_refl. auto.
Qed.

Lemma assign_untouched d section key text :
  untouched d (assign d section key text) section key.
Proof.
  unfold assign.
  destruct (node_at d (getIterator d section)) as [[n m]|] eqn:Hn;
    [|unfold untouched; repeat split; reflexivity].
  unfold untouched. split; [apply fst_set_node|].
  split; [intros s; apply getIterator_set_node|].
  split.
  { intros s. unfold sectionExists, end_.
    now rewrite getIterator_set_node, iteration_set_node. }
  split.
  { intros s. unfold sectionCount, end_.
    now rewrite equal_range_set_node, iteration_set_node. }
  intros s key' Hother.
  assert (Hfind : match node_at (set_node d n (map_assign m key text))
                          (getIterator (set_node d n (map_assign m key text)) s),
                        node_at d (getIterator d s) with
                  | Some (_, m1), Some (_, m2) => map_find m1 key' = map_find m2 key'
                  | None, None => True
                  | _, _ => False
                  end).
  { rewrite getIterator_set_node, node_at_set_node.
    destruct (node_at d (getIterator d s)) as [[n' m']|] eqn:Hn'; [|exact I].
    destruct (Nat.eqb_spec n' n) as [->|Hne]; [|reflexivity].
    destruct (node_at_nth _ _ Hn) as [e He].
    destruct (node_at_nth _ _ Hn') as [e' He'].
    assert (m' = m) by congruence. subst m'.
    destruct Hother as [Hk|Hit].
    - now apply map_find_assign_other.
    - elim Hit. now apply node_at_inj with d n m m. }
  unfold stored, keyExists.
  destruct (node_at (set_node d n (map_assign m key text))
              (getIterator (set_node d n (map_assign m key text)) s)) as [[n1 m1]|];
    destruct (node_at d (getIterator d s)) as [[n2 m2]|]; try contradiction; auto.
  now rewrite Hfind.
Qed.

End WriteFacts.

(** ** [std::to_string] and extraction at [int] *)









(** X14: a write changes one text and nothing else.  None of the three
    [writeKeyValue]s adds, removes, renames or renumbers a record; every
    handle resolves to the record it resolved to before, [sectionExists]
    and [sectionCount] answer as before, and [read] and [keyExists] see
    no change under any other key, nor in any other record. *)
Theorem write_changes_one_text {HT : Hashtable} {T} (to_string : T -> string)
    (d : data) (section : IniSection) (key text : string) (value : T) (flag : bool) :
  untouched d (writeKeyValue to_string d section key value) section key /\
  untouched d (writeKeyValue_bool d section key flag) section key /\
  untouched d (writeKeyValue_string d section key text) section key.
Proof.
  unfold writeKeyValue, writeKeyValue_bool, writeKeyValue_string.
  split; [|split]; [|destruct flag|]; apply assign_untouched.
Qed.

Lemma assign_line {HT : Hashtable} d section key text :
  sectionExists d section = true ->
  getKeyLineNum (assign d section key text) section key =
  if keyExists d section key then getKeyLineNum d section key else Returns 0.
Proof.
  intros Hs. destruct (assign_node d section key text Hs) as (n & e & m & Hn & _ & _ & Hn').
  unfold getKeyLineNum, keyExists. rewrite Hn', Hn, map_find_assign.
  now destruct (map_find m key) as [[e0 v]|].
Qed.

(** X15: a write keeps the line number of a key the section has, and
    gives a key the section does not have the line number 0:
    [operator[]] builds the missing key with [element(key)], whose line
    number defaults to 0, and assigning to the mapped string never touches
    a key. *)
Theorem write_line_number {HT : Hashtable} {T} (to_string : T -> string)
    (d : data) (section : IniSection) (key text : string) (value : T) (flag : bool) :
  sectionExists d section = true ->
  let before :=
    if keyExists d section key then getKeyLineNum d section key else Returns 0 in
  getKeyLineNum (writeKeyValue to_string d section key value) section key = before /\
  getKeyLineNum (writeKeyValue_bool d section key flag) section key = before /\
  getKeyLineNum (writeKeyValue_string d section key text) section key = before.
Proof.
  intros Hs before. unfold writeKeyValue, writeKeyValue_bool, writeKeyValue_string.
  split; [|split]; [|destruct flag|]; now apply assign_line.
Qed.

Lemma write_line_number_witness :
  getKeyLineNum (HT:=ChainedLaws.hashtable)
    (writeKeyValue_string (HT:=ChainedLaws.hashtable) twice_A (mkIniSection "A" 1 0) "k" "x")
    (mkIniSection "A" 1 0) "k" = Returns 2 /\
  getKeyLineNum (HT:=ChainedLaws.hashtable)
    (writeKeyValue_string (HT:=ChainedLaws.hashtable) twice_A (mkIniSection "A" 1 0) "n" "x")
    (mkIniSection "A" 1 0) "n" = Returns 0.
Proof.
  split.
  - exact (proj2 (proj2 (write_line_number (HT:=ChainedLaws.hashtable) Str.of_size_t
                           twice_A (mkIniSection "A" 1 0) "k" "x" 0 true eq_refl))).
  - exact (proj2 (proj2 (write_line_number (HT:=ChainedLaws.hashtable) Str.of_size_t
                           twice_A (mkIniSection "A" 1 0) "n" "x" 0 true eq_refl))).
Defined.

Lemma keys_below_fst bound (m m' : keymap) :
  List.map fst m' = List.map fst m -> keys_below bound m -> keys_below bound m'.
Proof.
  intros Hfst. unfold keys_below. rewrite !line_lt_map.
  assert (Hl : List.map lineNum_of m' = List.map lineNum_of m).
  { unfold lineNum_of. rewrite <- !(map_map fst _lineNum). now rewrite Hfst. }
  rewrite Hl. intros [Hs Hf]. split; [exact Hs|].
  apply (proj1 (Forall_map lineNum_of (fun x => 0 < x < bound) m')).
  rewrite Hl. now apply (proj2 (Forall_map lineNum_of (fun x => 0 < x < bound) m)).
Qed.

Lemma loaded_below_overwrite bound d n e m key text :
  loaded_below bound d ->
  nth_error d n = Some (e, m) ->
  map_find m key <> None ->
  loaded_below bound (set_node d n (map_assign m key text)).
Proof.
  intros [Hs Hf] Hn Hk. split; [now apply set_node_sorted|].
  apply set_node_Forall; [exact Hf|].
  intros e' He'. unfold current_map in He'. rewrite Hn in He'. injection He' as <-.
  pose proof (proj1 (Forall_forall _ d) Hf _ (nth_error_In _ _ Hn)) as [Hl Hb].
  split; [exact Hl|]. cbn [snd] in *.
  apply keys_below_fst with m; [now apply fst_map_assign|exact Hb].
Qed.

Lemma outline_content_fst d d' :
  List.map fst d' = List.map fst d ->
  Forall2 (fun node node' => List.map fst (snd node') = List.map fst (snd node)) d d' ->
  outline (content d') = outline (content d).
Proof.
  intros Hfst Hall. revert Hfst.
  induction Hall as [|[e m] [e' m'] d d' Hm Hall IH]; [reflexivity|].
  cbn [List.map fst snd] in *. intros [= -> Hfst].
  unfold outline, content in *. cbn [List.map fst snd]. rewrite IH by exact Hfst.
  f_equal. f_equal. rewrite !map_map. cbn [fst].
  rewrite <- (map_map fst _name m'), <- (map_map fst _name m). now rewrite Hm.
Qed.

Lemma set_node_Forall2 (R : element * keymap -> element * keymap -> Prop) d n e m m' :
  (forall node, R node node) ->
  nth_error d n = Some (e, m) ->
  R (e, m) (e, m') ->
  Forall2 R d (set_node d n m').
Proof.
  intros Hrefl. revert n. induction d as [|[e0 m0] d IH]; intros [|n] Hn Hr;
    try discriminate; cbn [set_node].
  - injection Hn as -> ->. constructor; [exact Hr|].
    clear - Hrefl. induction d; constructor; auto.
  - constructor; [apply Hrefl|]. now apply IH.
Qed.

(** X16: overwriting a key that came from the file keeps its place.
    After a [load] that returned and a [writeKeyValue] on a key the
    section has, [save] writes the sections and keys of the file, in the
    order of the file and in the layout of [save], with the new text
    after that key's [=]: the written file has the same outline as the
    one that was read. *)
Theorem overwrite_keeps_place {HT : Hashtable} {ST : Sorting} (lines : list string)
    (d : data) (section : IniSection) (key text : string) :
  N.of_nat (List.length lines) < SizeT.npos ->
  load [] lines = Ok d ->
  keyExists d section key = true ->
  let d' := writeKeyValue_string d section key text in
  save d' = render (content d') /\
  outline (content d') = outline (parse lines) /\
  stored d' section key = Some text.
Proof.
  intros Hlen Hload Hkey d'.
  destruct (load_loaded lines Hlen Hload) as [bound Hb].
  assert (Hs : sectionExists d section = true).
  { destruct (sectionExists d section) eqn:E; [reflexivity|].
    pose proof (sectionExists_stored d section key E) as Hst.
    apply keyExists_stored in Hst. congruence. }
  destruct (assign_node d section key text Hs) as (n & e & m & Hn & He & Ha & Hn').
  assert (Hfind : map_find m key <> None).
  { unfold keyExists in Hkey. rewrite Hn in Hkey.
    destruct (map_find m key); [discriminate|discriminate Hkey]. }
  unfold d', writeKeyValue_string. split; [|split].
  - rewrite Ha. unfold save.
    rewrite (arr_loaded (loaded_below_overwrite n key text Hb He Hfind)).
    apply render_content.
  - rewrite <- (load_content _ Hload), Ha. apply outline_content_fst.
    + apply fst_set_node.
    + apply set_node_Forall2 with e m; auto.
      cbn [snd]. now apply fst_map_assign.
  - unfold stored. rewrite Hn', map_find_assign. reflexivity.
Qed.

Lemma overwrite_keeps_place_witness :
  getlines
    (save (HT:=ChainedLaws.hashtable) (ST:=ChainedLaws.sort)
       (writeKeyValue_string (HT:=ChainedLaws.hashtable) two_sections
          (mkIniSection "A" 0 0) "k" "new")) =
  ["[A]"; "k = new"; ""; "[B]"; "k = 2"; ""].
Proof.
  rewrite (proj1 (overwrite_keeps_place (HT:=ChainedLaws.hashtable) (ST:=ChainedLaws.sort)
                    ["[A]"; "k=1"; "[B]"; "k=2"] (d:=two_sections)
                    (mkIniSection "A" 0 0) "k" "new" eq_refl eq_refl eq_refl)).
  reflexivity.
Defined.

(** ** Enumerating *)

Lemma nth_error_seq_inv s n i x : nth_error (seq s n) i = Some x -> x = (s + i)%nat.
Proof.
  revert s i. induction n as [|n IH]; intros s [|i]; simpl; try discriminate.
  - intros [= <-]. lia.
  - intros Hx. rewrite (IH _ _ Hx). lia.
Qed.

(** A loop that pushes one element per step. *)
Lemma flat_map_singletons {A B} (f : A -> list B) (l : list A) :
  (forall x, In x l -> exists y, f x = [y]) ->
  List.length (flat_map f l) = List.length l /\
  forall i y, nth_error (flat_map f l) i = Some y ->
              exists x, nth_error l i = Some x /\ f x = [y].
Proof.
  induction l as [|a l IH]; intros Hone.
  - split; [reflexivity|]. intros [|i] y; discriminate.
  - destruct (Hone a (or_introl eq_refl)) as [b Hb].
    destruct IH as [Hlen Hnth]; [intros x Hx; apply Hone; now right|].
    cbn [flat_map]. rewrite Hb. cbn [app List.length]. split; [now rewrite Hlen|].
    intros [|i] y; cbn [nth_error].
    + intros [= <-]. now exists a.
    + apply Hnth.
Qed.

Lemma first_from_position n i l :
  In n l -> exists k, first_from (Nat.eqb n) i l = Some (i + k)%nat /\ nth_error l k = Some n.
Proof.
  revert i. induction l as [|x l IH]; intros i; [intros []|].
  intros Hin. cbn [first_from]. destruct (Nat.eqb_spec n x) as [->|Hne].
  - exists O. split; [f_equal; lia|reflexivity].
  - destruct Hin as [Hx|Hin]; [congruence|].
    destruct (IH (S i) Hin) as (k & Hk & Hn). exists (S k).
    split; [rewrite Hk; f_equal; lia|exact Hn].
Qed.

Section EnumerationFacts.

Context {HT : Hashtable}.

(** [getIterator] undoes [getIteratorIndex]: the handle made of the name
    of the record at [it] and of the index [getIteratorIndex] computes for
    [it] resolves to [it], whatever its line number. *)
Lemma getIterator_position d it n e m line :
  deref d it = Some n ->
  nth_error d n = Some (e, m) ->
  getIterator d (mkIniSection (_name e) (getIteratorIndex d it) line) = it /\
  node_at d it = Some (n, m).
Proof.
  intros Hd Hn.
  destruct (iteration_split d (element_of_string (_name e)))
    as (pre & grp & post & Hit & Hg & Hp & _).
  assert (Heq : node_equals d (element_of_string (_name e)) n = true).
  { unfold node_equals. rewrite Hn. unfold element_eqb. apply String.eqb_refl. }
  assert (Hrange : (List.length pre <= it < List.length pre + List.length grp)%nat).
  { unfold deref in Hd. rewrite Hit in Hd.
    destruct (Nat.lt_ge_cases it (List.length pre)) as [Hlt|Hge].
    - rewrite nth_error_app1 in Hd by exact Hlt.
      rewrite (Hp n) in Heq; [discriminate|].
      apply in_or_app. left. now apply nth_error_In with it.
    - split; [exact Hge|].
      destruct (Nat.lt_ge_cases it (List.length pre + List.length grp)) as [Hlt|Hge'];
        [exact Hlt|].
      rewrite nth_error_app2 in Hd by exact Hge.
      rewrite nth_error_app2 in Hd by lia.
      rewrite (Hp n) in Heq; [discriminate|].
      apply in_or_app. right. eapply nth_error_In. exact Hd. }
  assert (Hidx : getIteratorIndex d it = N.of_nat (it - List.length pre)).
  { unfold getIteratorIndex. rewrite Hd, Hn.
    rewrite (equal_range_split _ _ _ _ _ Hit Hg Hp).
    destruct grp; [simpl in Hrange; lia|reflexivity]. }
  assert (Hend : (it < end_ d)%nat).
  { unfold end_. rewrite Hit, !length_app. lia. }
  split.
  - destruct (getIterator_in_group d (mkIniSection (_name e) (getIteratorIndex d it) line)
                pre grp post Hit) as [Hget _].
    + intros k Hk. rewrite <- (Hg k Hk). now apply node_equals_name.
    + intros k Hk. rewrite <- (Hp k Hk). now apply node_equals_name.
    + cbn [getIndex]. rewrite Hidx. lia.
    + rewrite Hget. cbn [getIndex]. rewrite Hidx. lia.
  - unfold node_at. replace (Nat.eqb it (end_ d)) with false
      by (symmetry; apply Nat.eqb_neq; lia).
    now rewrite Hd, Hn.
Qed.

Lemma key_at_some d it :
  (it < end_ d)%nat ->
  exists n e m, deref d it = Some n /\ nth_error d n = Some (e, m) /\ key_at d it = Some e.
Proof.
  intros Hit. destruct (deref_node d Hit) as (n & e & m & Hd & Hn).
  exists n, e, m. unfold key_at. now rewrite Hd, Hn.
Qed.

End EnumerationFacts.

(** X17: [writeSection] appends one empty record, with line number 0,
    and changes no other; the handle it returns resolves to that record,
    whatever the iteration order; the section then exists, has no key, and
    its name has one record more than before. *)
Theorem writeSection_handle {HT : Hashtable} (d : data) (name : string) :
  let h := fst (writeSection d name) in
  let d' := snd (writeSection d name) in
  d' = d ++ [(mkElement name 0, [])] /\
  sectionName h = name /\
  node_at d' (getIterator d' h) = Some (List.length d, []) /\
  sectionExists d' h = true /\
  keys d' h = [] /\
  sectionCount d' h = sectionCount d h + 1.
Proof.
  unfold writeSection, multimap_insert, position_of. cbv beta iota zeta. cbn [fst snd].
  set (d' := (d ++ _)%list).
  assert (Hn : nth_error d' (List.length d) = Some (element_of_string name, [])).
  { unfold d'. rewrite nth_error_app2 by lia. now rewrite Nat.sub_diag. }
  assert (Hin : In (List.length d) (iteration d')).
  { apply (Permutation_in (l:=seq 0 (List.length (names d')))).
    - symmetry. apply multimap_order_perm.
    - apply in_seq. unfold names, d'. rewrite length_map, length_app. simpl. lia. }
  destruct (first_from_position (List.length d) 0 _ Hin) as (it & Hpos & Hd).
  rewrite Hpos. cbn [Nat.add].
  destruct (getIterator_position d' it 0 Hd Hn) as [Hget Hnode].
  cbn [_name element_of_string] in Hget.
  assert (Hat : node_at d' (getIterator d' (mkIniSection name (getIteratorIndex d' it) 0))
                = Some (List.length d, [])) by now rewrite Hget.
  split; [reflexivity|]. split; [reflexivity|]. split; [exact Hat|].
  split; [|split].
  - apply sectionExists_node. eexists _, _, _. split; [exact Hat|exact Hn].
  - unfold keys. rewrite Hat. cbn [names List.map].
    pose proof (map_order_perm []) as Hp. cbn [List.length seq] in Hp.
    apply Permutation_sym, Permutation_nil in Hp. now rewrite Hp.
  - rewrite !sectionCount_occurrences. cbn [sectionName].
    unfold occurrences, d'. rewrite filter_app, length_app. cbn [filter fst _name element_of_string].
    rewrite String.eqb_refl. cbn [List.length]. lia.
Qed.

(** X18: [sections] returns one handle per record, in iteration order;
    the handle at position [it] resolves to the record at [it], so the
    handles resolve to the records of the container one to one, and each
    carries the name and the line number of its record. *)
Theorem sections_enumerates_records {HT : Hashtable} (d : data) :
  List.length (sections d) = List.length d /\
  forall it h,
    nth_error (sections d) it = Some h ->
    getIterator d h = it /\
    exists n e m,
      node_at d it = Some (n, m) /\ nth_error d n = Some (e, m) /\
      sectionName h = _name e /\ getLineNum h = _lineNum e.
Proof.
  unfold sections.
  destruct (flat_map_singletons
              (fun it => match key_at d it with
                         | Some e => [mkIniSection (_name e) (getIteratorIndex d it) (_lineNum e)]
                         | None => []
                         end) (seq 0 (end_ d))) as [Hlen Hnth].
  { intros it Hit. apply in_seq in Hit.
    destruct (@key_at_some _ d it) as (n & e & m & _ & _ & ->); [lia|]. eauto. }
  split; [now rewrite Hlen, length_seq, end_length|].
  intros it h Hh. destruct (Hnth _ _ Hh) as (x & Hx & Hf).
  pose proof (nth_error_seq_inv _ _ _ Hx) as ->. cbn [Nat.add] in *.
  assert (Hit : (it < end_ d)%nat).
  { apply nth_error_In, in_seq in Hx. lia. }
  destruct (key_at_some d Hit) as (n & e & m & Hd & Hn & Hk).
  rewrite Hk in Hf. injection Hf as <-.
  destruct (getIterator_position d it (_lineNum e) Hd Hn) as [Hget Hnode].
  split; [exact Hget|]. exists n, e, m. auto.
Qed.

(** X19: [sectionRange], and [operator[]] which returns it, lists the
    records of the handle's name: as many handles as [sectionCount]
    counts, carrying the name of the argument and the indices 0, 1, 2, ...
    in turn, each resolving to a record of that name whose line number it
    carries.  The index and the line number of the argument play no
    part. *)
Theorem sectionRange_enumerates {HT : Hashtable} (d : data) (section : IniSection) :
  subscript d section = sectionRange d section /\
  N.of_nat (List.length (sectionRange d section)) = sectionCount d section /\
  forall i h,
    nth_error (sectionRange d section) i = Some h ->
    sectionName h = sectionName section /\ getIndex h = N.of_nat i /\
    exists n e m,
      node_at d (getIterator d h) = Some (n, m) /\ nth_error d n = Some (e, m) /\
      _name e = sectionName section /\ getLineNum h = _lineNum e.
Proof.
  split; [reflexivity|].
  destruct (iteration_split d (element_of_section section))
    as (pre & grp & post & Hit & Hg & Hp & Hocc).
  cbn [element_of_section _name] in Hocc.
  rewrite sectionCount_occurrences, <- Hocc.
  unfold sectionRange. rewrite (equal_range_split _ _ _ _ _ Hit Hg Hp).
  assert (Hrange : (let pairIt := match grp with
                                  | [] => (end_ d, end_ d)
                                  | _ => (List.length pre,
                                          (List.length pre + List.length grp)%nat)
                                  end in
                    snd pairIt - fst pairIt = List.length grp /\
                    (grp <> [] -> fst pairIt = List.length pre))%nat).
  { destruct grp; cbn [fst snd List.length]; split; try lia; congruence. }
  cbv zeta in *.
  destruct (match grp with
            | [] => (end_ d, end_ d)
            | _ => (List.length pre, (List.length pre + List.length grp)%nat)
            end) as [first second].
  cbn [fst snd] in *. destruct Hrange as [-> Hfirst].
  assert (Hat : forall i, (i < List.length grp)%nat ->
                exists n e m,
                  deref d (first + i) = Some n /\ nth_error grp i = Some n /\
                  nth_error d n = Some (e, m) /\ _name e = sectionName section /\
                  key_at d (first + i) = Some e).
  { intros i Hi. rewrite Hfirst by (destruct grp; [simpl in Hi; lia|discriminate]).
    destruct (nth_error grp i) as [n|] eqn:En; [|apply nth_error_None in En; lia].
    assert (Hd : deref d (List.length pre + i) = Some n).
    { unfold deref. rewrite Hit, nth_error_app2 by lia.
      replace (List.length pre + i - List.length pre)%nat with i by lia.
      now rewrite nth_error_app1 by lia. }
    pose proof (Hg n (nth_error_In _ _ En)) as Heq. unfold node_equals in Heq.
    destruct (nth_error d n) as [[e m]|] eqn:Hn; [|discriminate].
    exists n, e, m. unfold key_at. rewrite Hd, Hn. repeat split; auto.
    unfold element_eqb in Heq. now apply String.eqb_eq in Heq. }
  destruct (flat_map_singletons
              (fun index => match key_at d (first + index) with
                            | Some e => [mkIniSection (sectionName section)
                                           (N.of_nat index) (_lineNum e)]
                            | None => []
                            end) (seq 0 (List.length grp))) as [Hlen Hnth].
  { intros i Hi. apply in_seq in Hi.
    destruct (Hat i) as (n & e & m & _ & _ & _ & _ & ->); [lia|]. eauto. }
  split; [now rewrite Hlen, length_seq|].
  intros i h Hh. destruct (Hnth _ _ Hh) as (x & Hx & Hf).
  pose proof (nth_error_seq_inv _ _ _ Hx) as ->. cbn [Nat.add] in *.
  assert (Hi : (i < List.length grp)%nat).
  { apply nth_error_In, in_seq in Hx. lia. }
  destruct (Hat i Hi) as (n & e & m & Hd & En & Hn & Hname & Hk).
  rewrite Hk in Hf. injection Hf as <-. cbn [sectionName getIndex getLineNum].
  split; [reflexivity|]. split; [reflexivity|].
  exists n, e, m.
  set (h := mkIniSection (sectionName section) (N.of_nat i) (_lineNum e)).
  destruct (getIterator_in_group d h pre grp post Hit) as [Hget Hderef].
  { intros k Hk'. rewrite <- (Hg k Hk'). now apply node_equals_name. }
  { intros k Hk'. rewrite <- (Hp k Hk'). now apply node_equals_name. }
  { cbn [getIndex h]. lia. }
  repeat split; auto.
  cbn [getIndex h] in Hget, Hderef. rewrite Nat2N.id in Hget, Hderef.
  unfold node_at. rewrite Hderef, En, Hn.
  replace (Nat.eqb (getIterator d h) (end_ d)) with false; [reflexivity|].
  symmetry. apply Nat.eqb_neq. rewrite Hget. unfold end_. rewrite Hit, !length_app. lia.
Qed.

(** X20: [keys] lists the names of the keys of the record the handle
    resolves to, each once and in the iteration order of the map: a name
    is in the list exactly when [keyExists] holds for it, and the list is
    empty when the handle does not resolve. *)
Theorem keys_lists_the_section {HT : Hashtable} (d : data) (section : IniSection) :
  (forall key, In key (keys d section) <-> keyExists d section key = true) /\
  (forall n m, node_at d (getIterator d section) = Some (n, m) ->
               Permutation (keys d section) (names m)) /\
  (sectionExists d section = false -> keys d section = []).
Proof.
  unfold keys, keyExists, sectionExists, node_at.
  destruct (Nat.eqb (getIterator d section) (end_ d)).
  { split; [|split]; [|discriminate|reflexivity].
    intros key. split; [intros []|discriminate]. }
  destruct (deref d (getIterator d section)) as [n|].
  2:{ split; [|split]; [|discriminate|reflexivity].
      intros key. split; [intros []|discriminate]. }
  destruct (nth_error d n) as [[e m]|].
  2:{ split; [|split]; [|discriminate|reflexivity].
      intros key. split; [intros []|discriminate]. }
  split; [|split]; [| |discriminate].
  - intros key. pose proof (keys_perm m) as Hperm. split.
    + intros Hin. apply (Permutation_in _ Hperm) in Hin.
      destruct (map_find m key) eqn:Hf; [reflexivity|].
      apply map_find_none in Hf. contradiction.
    + intros Hk. apply (Permutation_in _ (Permutation_sym Hperm)).
      destruct (map_find m key) eqn:Hf; [|discriminate].
      destruct (in_dec string_dec key (names m)) as [Hin|Hout]; [exact Hin|].
      apply map_find_none in Hout. congruence.
  - intros n' m' [= <- <-]. apply keys_perm.
Qed.

(** ** Keys of the containers *)

(** X21: [element::operator==] is an equivalence that looks at the name
    only, and [elementHash] agrees with it: equal elements have equal
    hashes, as the unordered containers require of their key type.  So a
    handle is looked up by its name alone, whatever line number it
    carries. *)
Theorem element_hash_respects_equality (std_hash : string -> N) (a b c : element)
    (section : IniSection) :
  (element_eqb a b = true -> elementHash std_hash a = elementHash std_hash b) /\
  element_eqb a a = true /\
  element_eqb a b = element_eqb b a /\
  (element_eqb a b = true -> element_eqb b c = true -> element_eqb a c = true) /\
  element_eqb a (mkElement (_name a) (_lineNum b)) = true /\
  element_eqb (element_of_section section) (element_of_string (sectionName section)) = true.
Proof.
  unfold element_eqb, elementHash. cbn [_name element_of_section element_of_string].
  rewrite !String.eqb_refl. repeat split.
  - intros Hab. apply String.eqb_eq in Hab. now rewrite Hab.
  - apply String.eqb_sym.
  - intros Hab Hbc. apply String.eqb_eq in Hab. now rewrite Hab.
Qed.

(** X22: none of the three [read]s changes the container, although
    they are not [const] and go through [operator[]], which inserts a
    missing key: the subscript is only reached for a key [find] has
    found. *)
Theorem read_never_writes {HT : Hashtable} {T} (extract : string -> option T)
    (declared : option T) (d : data) (section : IniSection) (key : string)
    (defaultValue : T) (defaultFlag : bool) (defaultText : string) :
  snd (read extract declared d section key defaultValue) = d /\
  snd (read_bool d section key defaultFlag) = d /\
  snd (read_string d section key defaultText) = d.
Proof. apply read_leaves_container. Qed.

(** ** Sections of a loaded file *)

Lemma add_key_sections doc kv : List.map fst (add_key doc kv) = List.map fst doc.
Proof.
  induction doc as [|s doc IH]; [reflexivity|].
  destruct doc as [|s' doc]; [reflexivity|].
  change (add_key (s :: s' :: doc) kv) with (s :: add_key (s' :: doc) kv).
  cbn [List.map]. now rewrite IH.
Qed.

Lemma parse_sections lines doc :
  List.map fst (fold_left read_line lines doc) =
  (List.map fst doc ++ List.map section_of (filter is_header lines))%list.
Proof.
  revert doc. induction lines as [|line lines IH]; intros doc.
  - cbn. now rewrite app_nil_r.
  - cbn [fold_left filter]. rewrite IH. unfold read_line.
    destruct (is_header line).
    + rewrite map_app. cbn [List.map fst]. now rewrite <- app_assoc.
    + destruct (is_keyvalue line); [now rewrite add_key_sections|reflexivity].
Qed.

Lemma occurrences_content d name :
  occurrences d name =
  List.length (filter (fun n => String.eqb n name) (List.map fst (content d))).
Proof.
  unfold occurrences, content. induction d as [|[e m] d IH]; [reflexivity|].
  cbn [List.map filter fst]. destruct (String.eqb (_name e) name); cbn [List.length];
    now rewrite IH.
Qed.

Lemma headers_named_filter lines name :
  headers_named lines name =
  List.length (filter (fun n => String.eqb n name)
                 (List.map section_of (filter is_header lines))).
Proof.
  unfold headers_named. induction lines as [|line lines IH]; [reflexivity|].
  cbn [filter]. destruct (is_header line); cbn [andb List.map filter]; [|exact IH].
  destruct (String.eqb (section_of line) name); cbn [List.length]; now rewrite IH.
Qed.

(** X23: a header that repeats a name opens a record of its own.  After
    a [load] that returned, [sectionCount] is the number of header lines
    naming the section, every index below that number resolves, and the
    container has one record per header line. *)
Theorem loaded_section_count {HT : Hashtable} (lines : list string) (d : data)
    (section : IniSection) :
  load [] lines = Ok d ->
  sectionCount d section = N.of_nat (headers_named lines (sectionName section)) /\
  List.length d = List.length (filter is_header lines) /\
  (getIndex section < N.of_nat (headers_named lines (sectionName section)) ->
   sectionExists d section = true).
Proof.
  intros Hload. pose proof (load_content _ Hload) as Hc.
  assert (Hsec : List.map fst (content d) = List.map section_of (filter is_header lines)).
  { rewrite Hc. unfold parse. now rewrite parse_sections. }
  assert (Hocc : occurrences d (sectionName section)
                 = headers_named lines (sectionName section))
    by now rewrite occurrences_content, headers_named_filter, Hsec.
  split; [now rewrite sectionCount_occurrences, Hocc|]. split.
  - rewrite <- (length_map section_of), <- Hsec. unfold content.
    now rewrite !length_map.
  - intros Hidx. rewrite <- Hocc in Hidx.
    destruct (getIterator_resolves d section Hidx) as (n & e & m & Hn & He & _).
    apply sectionExists_node. now exists n, e, m.
Qed.

Lemma loaded_section_count_witness :
  sectionCount (HT:=ChainedLaws.hashtable) twice_A (mkIniSection "A" 0 0) = 2 /\
  sectionCount (HT:=ChainedLaws.hashtable) twice_A (mkIniSection "B" 0 0) = 1 /\
  sectionCount (HT:=ChainedLaws.hashtable) twice_A (mkIniSection "C" 0 0) = 0.
Proof.
  split; [|split].
  - exact (proj1 (loaded_section_count (HT:=ChainedLaws.hashtable)
                    ["[A]"; "k=1"; "[B]"; "[A]"; "k=2"] (mkIniSection "A" 0 0) eq_refl)).
  - exact (proj1 (loaded_section_count (HT:=ChainedLaws.hashtable)
                    ["[A]"; "k=1"; "[B]"; "[A]"; "k=2"] (mkIniSection "B" 0 0) eq_refl)).
  - exact (proj1 (loaded_section_count (HT:=ChainedLaws.hashtable)
                    ["[A]"; "k=1"; "[B]"; "[A]"; "k=2"] (mkIniSection "C" 0 0) eq_refl)).
Defined.

(** ** The tokenizer, exactly *)

Lemma string_app_assoc (a b c : string) : ((a ++ b) ++ c = a ++ (b ++ c))%string.
Proof. induction a as [|x a IH]; simpl; [reflexivity|]. now rewrite IH. Qed.

Lemma length_spaces n : String.length (spaces n) = n.
Proof. induction n as [|n IH]; simpl; [reflexivity|]. now rewrite IH. Qed.

Lemma spaces_shift n t : (spaces n ++ String " " t = String " " (spaces n ++ t))%string.
Proof. induction n as [|n IH]; simpl; [reflexivity|]. now rewrite IH. Qed.

Lemma leading_spaces_spaces n t :
  Str.leading_spaces (spaces n ++ t) = N.of_nat n + Str.leading_spaces t.
Proof.
  induction n as [|n IH]; [reflexivity|].
  cbn [spaces append Str.leading_spaces]. change (Ascii.eqb " " " ") with true.
  cbv iota. rewrite IH. lia.
Qed.

Lemma leading_spaces_core core t :
  core <> EmptyString -> Str.leading_spaces core = 0 -> Str.leading_spaces (core ++ t) = 0.
Proof.
  destruct core as [|a core]; [congruence|]. intros _.
  cbn [append Str.leading_spaces]. destruct (Ascii.eqb a " "); [lia|reflexivity].
Qed.

Lemma rev_append_acc s acc : Str.rev_append s acc = (Str.rev s ++ acc)%string.
Proof.
  unfold Str.rev. revert acc. induction s as [|a s IH]; intros acc; [reflexivity|].
  cbn [Str.rev_append]. rewrite (IH (String a acc)), (IH (String a EmptyString)).
  now rewrite string_app_assoc.
Qed.

Lemma rev_app a b : Str.rev (a ++ b) = (Str.rev b ++ Str.rev a)%string.
Proof.
  assert (Hcat : forall acc, Str.rev_append (a ++ b) acc
                             = Str.rev_append b (Str.rev_append a acc)).
  { induction a as [|x a IH]; intros acc; [reflexivity|]. cbn [append Str.rev_append].
    apply IH. }
  unfold Str.rev at 1. rewrite Hcat. apply rev_append_acc.
Qed.

Lemma rev_spaces n : Str.rev (spaces n) = spaces n.
Proof.
  assert (Hacc : forall acc, Str.rev_append (spaces n) acc = (spaces n ++ acc)%string).
  { induction n as [|n IH]; intros acc; [reflexivity|].
    cbn [spaces Str.rev_append]. rewrite IH. apply spaces_shift. }
  unfold Str.rev. rewrite Hacc. clear. induction n as [|n IH]; simpl; [reflexivity|].
  now rewrite IH.
Qed.

Lemma take_spaces k n : (k <= n)%nat -> Str.take k (spaces n) = spaces k.
Proof.
  revert n. induction k as [|k IH]; intros [|n] Hk; simpl; try reflexivity; [lia|].
  rewrite IH by lia. reflexivity.
Qed.

Lemma take_app_more a b k :
  Str.take (String.length a + k) (a ++ b) = (a ++ Str.take k b)%string.
Proof.
  induction a as [|x a IH]; simpl; [reflexivity|]. now rewrite IH.
Qed.

(** X24: what [readWord] returns, exactly.  On a text made of [lead]
    spaces, a word that neither starts nor ends with a space, and [trail]
    spaces, it returns the word followed by [min lead trail] spaces:
    [substr] is given the end position where it takes a length, so as
    many trailing spaces stay as leading spaces were skipped, as far as
    there are any.  The word comes back clean exactly when one of the two
    sides has no space. *)
Theorem readWord_exact (lead trail : nat) (word : string) :
  word <> EmptyString ->
  Str.leading_spaces word = 0 ->
  Str.leading_spaces (Str.rev word) = 0 ->
  readWord (spaces lead ++ word ++ spaces trail)
  = Ok (word ++ spaces (Nat.min lead trail))%string /\
  (readWord (spaces lead ++ word ++ spaces trail) = Ok word <-> lead = O \/ trail = O).
Proof.
  intros Hword Hfirst Hlast.
  set (line := (spaces lead ++ word ++ spaces trail)%string).
  assert (Hlen : (0 < String.length word)%nat)
    by (destruct word; [congruence|simpl; lia]).
  assert (Hsize : Str.size line
                  = N.of_nat lead + N.of_nat (String.length word) + N.of_nat trail).
  { unfold line. rewrite !size_app. unfold Str.size. rewrite !length_spaces. lia. }
  assert (Hlead : Str.leading_spaces line = N.of_nat lead).
  { unfold line. rewrite leading_spaces_spaces, leading_spaces_core by assumption. lia. }
  assert (Htrail : Str.leading_spaces (Str.rev line) = N.of_nat trail).
  { unfold line. rewrite !rev_app, !rev_spaces, string_app_assoc.
    rewrite leading_spaces_spaces, leading_spaces_core; [lia| |exact Hlast].
    intros Hrev. pose proof (StrFacts.size_rev word) as Hs. rewrite Hrev in Hs.
    unfold Str.size in Hs. simpl in Hs. lia. }
  assert (Hread : readWord line = Ok (word ++ spaces (Nat.min lead trail))%string).
  { assert (Hempty : forall s, Str.size s <> 0 -> Str.empty s = false)
      by (intros [|a rest]; [now intros []|reflexivity]).
    assert (Hdrop : Str.drop lead line = (word ++ spaces trail)%string).
    { pose proof (drop_app (spaces lead) (word ++ spaces trail)) as Hd.
      now rewrite length_spaces in Hd. }
    unfold readWord. rewrite Hempty by lia. cbv zeta.
    rewrite StrFacts.substr_ok by (rewrite Hlead, Hsize; lia).
    rewrite Hlead, Htrail, Hsize, Nat2N.id, Hdrop.
    replace (N.to_nat _) with (String.length word + Nat.min lead trail)%nat by lia.
    rewrite take_app_more, take_spaces by lia. reflexivity. }
  split; [exact Hread|]. rewrite Hread. split.
  - intros [= Heq].
    assert (Hmin : Nat.min lead trail = O).
    { apply (f_equal Str.size) in Heq. rewrite size_app in Heq.
      unfold Str.size in Heq. rewrite length_spaces in Heq. lia. }
    lia.
  - intros Hside. replace (Nat.min lead trail) with O by lia.
    cbn [spaces]. f_equal. clear. induction word as [|a w IH]; simpl; [reflexivity|].
    now rewrite IH.
Qed.

Lemma readWord_exact_witness :
  readWord "  ab cd " = Ok "ab cd " /\ readWord " ab   " = Ok "ab ".
Proof.
  split.
  - exact (proj1 (readWord_exact 2 1 (word:="ab cd")
                    ltac:(discriminate) eq_refl eq_refl)).
  - exact (proj1 (readWord_exact 1 3 (word:="ab")
                    ltac:(discriminate) eq_refl eq_refl)).
Defined.

(** ** The failures of [load] *)

Lemma take_drop n s : (Str.take n s ++ Str.drop n s)%string = s.
Proof.
  revert s. induction n as [|n IH]; intros [|a s]; simpl; try reflexivity.
  now rewrite IH.
Qed.

Lemma leading_spaces_stop x c y :
  Ascii.eqb c " " = false -> Str.leading_spaces (x ++ String c y) <= Str.size x.
Proof.
  intros Hc. induction x as [|a x IH]; cbn [append Str.leading_spaces].
  - rewrite Hc. unfold Str.size. simpl. lia.
  - rewrite StrFacts.size_cons. destruct (Ascii.eqb a " "); lia.
Qed.

(** In a text that is not made of spaces only, the leading and the
    trailing spaces do not overlap. *)
Lemma spaces_both_ends s :
  Str.all_spaces s = false ->
  Str.leading_spaces s + Str.leading_spaces (Str.rev s) < Str.size s.
Proof.
  intros Hall. unfold Str.all_spaces in Hall. apply N.eqb_neq in Hall.
  pose proof (StrFacts.leading_spaces_le s) as Hle.
  pose proof (leading_spaces_drop s) as Hzero.
  pose proof (take_drop (N.to_nat (Str.leading_spaces s)) s) as Hsplit.
  destruct (Str.drop (N.to_nat (Str.leading_spaces s)) s) as [|c r] eqn:Hdrop.
  - apply StrFacts.drop_empty in Hdrop. unfold Str.size in *. lia.
  - cbn [Str.leading_spaces] in Hzero.
    destruct (Ascii.eqb c " ") eqn:Hc; [lia|].
    assert (Hsize : Str.size s
                    = Str.size (Str.take (N.to_nat (Str.leading_spaces s)) s)
                      + (1 + Str.size r))
      by (rewrite <- Hsplit at 1; now rewrite size_app, StrFacts.size_cons).
    assert (Htake : Str.size (Str.take (N.to_nat (Str.leading_spaces s)) s)
                    = Str.leading_spaces s).
    { clear - Hle. unfold Str.size in *.
      assert (Hlen : forall n t, (n <= String.length t)%nat ->
                                 String.length (Str.take n t) = n).
      { induction n as [|n IH]; intros [|a t] Hn; simpl in *; try lia.
        rewrite IH by lia. reflexivity. }
      rewrite Hlen by lia. lia. }
    rewrite <- Hsplit at 2. rewrite rev_app.
    change (Str.rev (String c r)) with (Str.rev_append r (String c EmptyString)).
    rewrite rev_append_acc, string_app_assoc. cbn [append].
    pose proof (leading_spaces_stop (Str.rev r) c
                  (Str.rev (Str.take (N.to_nat (Str.leading_spaces s)) s)) Hc) as Hstop.
    rewrite StrFacts.size_rev in Hstop. lia.
Qed.

Lemma trim_empty s : Str.empty (trim s) = Str.all_spaces s.
Proof.
  unfold trim. destruct (Str.all_spaces s) eqn:Hall.
  - unfold Str.all_spaces in Hall. apply N.eqb_eq in Hall.
    replace (Str.drop (N.to_nat (Str.leading_spaces s)) s) with EmptyString.
    + now destruct (N.to_nat _).
    + symmetry. apply StrFacts.drop_empty. unfold Str.size in Hall. lia.
  - pose proof (spaces_both_ends s Hall) as Hends.
    destruct (Str.drop (N.to_nat (Str.leading_spaces s)) s) as [|c r] eqn:Hdrop.
    + apply StrFacts.drop_empty in Hdrop. unfold Str.size in Hends. lia.
    + destruct (N.to_nat (Str.size s - Str.leading_spaces (Str.rev s)
                          - Str.leading_spaces s)) eqn:Hn; [lia|reflexivity].
Qed.

Lemma key_of_one_sided line : one_sided (key_text line) -> key_of line = spec_key line.
Proof.
  intros Hside. unfold key_of, spec_key. now rewrite (readWord_one_sided _ Hside).
Qed.

Lemma key_in_section_clean seen key :
  clean_keys seen -> spec_key_in_section seen key = key_in_section seen key.
Proof.
  intros Hclean. induction Hclean as [|l seen Hl Hclean IH]; [reflexivity|].
  cbn [spec_key_in_section key_in_section]. destruct (is_header l); [reflexivity|].
  rewrite IH. destruct (is_keyvalue l); [|reflexivity].
  now rewrite (key_of_one_sided _ (Hl eq_refl)).
Qed.

Lemma offending_clean seen line :
  clean_keys (line :: seen) -> spec_offending seen line = offending seen line.
Proof.
  intros Hclean. apply Forall_cons_iff in Hclean. destruct Hclean as [Hl Hseen].
  unfold spec_offending, offending, empty_field, spec_key at 1, spec_value.
  rewrite !trim_empty. destruct (is_keyvalue line); [|reflexivity].
  rewrite (key_in_section_clean _ Hseen), (key_of_one_sided _ (Hl eq_refl)).
  reflexivity.
Qed.

Lemma first_failure_clean seen rest :
  clean_keys seen -> clean_keys rest ->
  spec_first_failure_from seen rest = first_failure_from seen rest.
Proof.
  intros Hseen Hrest. revert seen Hseen.
  induction Hrest as [|line rest Hl Hrest IH]; intros seen Hseen; [reflexivity|].
  cbn [spec_first_failure_from first_failure_from].
  rewrite offending_clean by now constructor.
  destruct (offending seen line); [reflexivity|]. apply IH. now constructor.
Qed.

(** X25: the failures of [load], on the keys and values as it
    tokenizes them.  [load] throws exactly when some key/value line has
    nothing but spaces on one side of its [=], or stands above every
    section header, or repeats a key of the section it is in.  The
    exception is raised at the first such line; its message is the text
    for that kind of failure followed by the number of the line, counted
    from 1.  The lines from that one on are not read, and the container is
    left as the lines above it have filled it.  When no line is of that
    kind, [load] returns.  In a file where no key has spaces on both
    sides, these are the failures as the specification words them, on the
    trimmed keys and values.  Failure to open the file is not part of this
    statement. *)
Theorem load_failure_taxonomy (d : data) (lines : list string) :
  N.of_nat (List.length lines) < SizeT.npos ->
  match first_failure lines with
  | Some (kind, i) =>
      load d lines = Throw (runtime_error (message kind (N.of_nat i + 1))) /\
      load d (firstn i lines) = Ok (load_data d lines)
  | None => load d lines = Ok (load_data d lines)
  end /\
  (clean_keys lines -> spec_first_failure lines = first_failure lines).
Proof.
  intros Hlen. split.
  - pose proof (@load_loop_failure [] (mkLoader d 1 None) lines Hlen (loader_inv_init d))
      as Hloop.
    unfold first_failure, load, load_data.
    destruct (first_failure_from [] lines) as [[kind i]|].
    + cbn [List.length] in Hloop. rewrite Nat.sub_0_r in Hloop.
      destruct Hloop as [Hrun Hpre]. rewrite Hpre, Hrun. split; reflexivity.
    + destruct Hloop as [-> _]. reflexivity.
  - intros Hclean. apply first_failure_clean; [constructor|exact Hclean].
Qed.

(** The three lines [[A]], [k=1], [k=2]: the duplicate key is reported
    at line 3. *)
Lemma load_failure_taxonomy_witness :
  N.of_nat (List.length ["[A]"; "k=1"; "k=2"]) < SizeT.npos /\
  load [] ["[A]"; "k=1"; "k=2"] = Throw (runtime_error "duplicate key in line: 3") /\
  load [] ["[A]"; "k=1"] = Ok (load_data [] ["[A]"; "k=1"; "k=2"]) /\
  spec_first_failure ["[A]"; "k=1"; "k=2"] = Some (DuplicateKey, 2%nat).
Proof.
  assert (Hlen : N.of_nat (List.length ["[A]"; "k=1"; "k=2"]) < SizeT.npos)
    by reflexivity.
  split; [exact Hlen|].
  destruct (load_failure_taxonomy [] ["[A]"; "k=1"; "k=2"] Hlen) as [[Hthrow Hleft] Hspec].
  split; [exact Hthrow|]. split; [exact Hleft|].
  apply Hspec. repeat constructor; intros _; left; reflexivity.
Defined.
